(** * Piecewise functions of lib2geom (piecewise.h)

    A shallow embedding of [Geom::Piecewise<T>] and of the algorithms of
    piecewise.h, followed by the properties of the container that the
    specification states and by further properties of the code: locating
    and evaluating, moving the domain, concatenation, refinement, short
    segments, roots, the operators with a number, the integral,
    composition and bounds.

    Conventions of the embedding:
    - a [double] is an exact rational in canonical form ([Qc]), so that
      [==] on doubles is Leibniz equality and segment arithmetic is exact
      (a division by zero, which no well-formed container leads to, gives
      0 here and an infinity or a NaN there);
    - a [std::vector] is a [list]; [operator[]] is [vget], which either
      faults or yields an unspecified value when the index is out of range
      (see [oob] below);
    - [assert] is a fault ([AssertFail]): assertions are compiled in;
    - a [while] loop is the combinator [while], which takes fuel; every
      caller supplies enough fuel for the loop to finish, and running out
      is the fault [OutOfFuel];
    - vector sizes and indices are far below 2^31; the one subtraction on
      [unsigned] that can wrap, [size() - 1] on an empty container, is
      written out ([usub1]). *)

From Stdlib Require Import List ZArith QArith Qcanon Lia Lqa Bool Field.
Import ListNotations.

Set Implicit Arguments.

(* ================================================================== *)
(** * Faults and the error monad *)
(* ================================================================== *)

Inductive fault : Type :=
| AssertFail   (* an [assert] does not hold *)
| OutOfRange   (* a vector is read or written outside its bounds *)
| OutOfFuel.   (* a loop was given too little fuel (never by the callers here) *)

Inductive outcome (A : Type) : Type :=
| Ok (a : A)
| Fault (e : fault).

Arguments Ok {A} a.
Arguments Fault {A} e.

Definition bind {A B : Type} (m : outcome A) (k : A -> outcome B) : outcome B :=
  match m with
  | Ok a => k a
  | Fault e => Fault e
  end.

Declare Scope outcome_scope.
Delimit Scope outcome_scope with outcome.
Notation "x <- m ;; k" := (bind m (fun x => k))
  (at level 61, m at next level, right associativity) : outcome_scope.
Notation "' p <- m ;; k" := (bind m (fun x => let p := x in k))
  (at level 61, p pattern, m at next level, right associativity) : outcome_scope.
Notation "m ;;; k" := (bind m (fun _ => k))
  (at level 61, right associativity) : outcome_scope.
Open Scope outcome_scope.

Definition assert (b : bool) : outcome unit :=
  if b then Ok tt else Fault AssertFail.

(** What a loop body hands back: go round again, or [return r]. *)
Inductive step (S R : Type) : Type :=
| Continue (s : S)
| Return (r : R).

Arguments Continue {S R} s.
Arguments Return {S R} r.

(** [while (cond) body], with the loop state made explicit. *)
Fixpoint while {S R : Type} (fuel : nat) (cond : S -> outcome bool)
    (body : S -> outcome (step S R)) (s : S) : outcome (step S R) :=
  match fuel with
  | O => Fault OutOfFuel
  | Datatypes.S fuel' =>
      b <- cond s ;;
      if b then
        r <- body s ;;
        match r with
        | Continue s' => while fuel' cond body s'
        | Return r' => Ok (Return r')
        end
      else Ok (Continue s)
  end.

(** [for (unsigned i = lo; i < lo + n; i++) body]. *)
Fixpoint for_loop {S : Type} (lo n : nat) (body : nat -> S -> outcome S) (s : S)
    : outcome S :=
  match n with
  | O => Ok s
  | Datatypes.S n' => s' <- body lo s ;; for_loop (Datatypes.S lo) n' body s'
  end.

(* ================================================================== *)
(** * Doubles *)
(* ================================================================== *)

Definition Qcltb (x y : Qc) : bool :=
  match (x ?= y)%Qc with Lt => true | _ => false end.
Definition Qcleb (x y : Qc) : bool :=
  match (x ?= y)%Qc with Gt => false | _ => true end.

Declare Scope dbl_scope.
Delimit Scope dbl_scope with dbl.
Infix "<?" := Qcltb (at level 70, no associativity) : dbl_scope.
Infix "<=?" := Qcleb (at level 70, no associativity) : dbl_scope.
Infix "=?" := Qc_eq_bool (at level 70, no associativity) : dbl_scope.
Notation "x >? y" := (Qcltb y x) (at level 70, no associativity, only parsing) : dbl_scope.
Notation "x >=? y" := (Qcleb y x) (at level 70, no associativity, only parsing) : dbl_scope.

Definition Qcmin (x y : Qc) : Qc := if (y <? x)%dbl then y else x.
Definition Qcmax (x y : Qc) : Qc := if (x <? y)%dbl then y else x.

(** Modelled from the spec: [Geom::Interval], whose header is not among
    the sources.  A closed interval given by its two bounds; the
    constructor from two doubles puts them in order, [extent] is its
    width, and it is empty when the bounds coincide. *)
Record Interval : Type := mkInterval { imin : Qc; imax : Qc }.
Definition Interval_of (u v : Qc) : Interval :=
  if (u <=? v)%dbl then mkInterval u v else mkInterval v u.
Definition extent (i : Interval) : Qc := (imax i - imin i)%Qc.
Definition isEmpty (i : Interval) : bool := (imin i =? imax i)%dbl.

(** Modelled from the spec: the rest of [Geom::Interval] that the bounds
    functions use.  [Interval(v)] is the one-point interval, [unionWith]
    widens an interval to the hull of itself and another, and an interval
    contains the values between its bounds. *)
Definition Interval_point (v : Qc) : Interval := mkInterval v v.
Definition unionWith (a b : Interval) : Interval :=
  mkInterval (Qcmin (imin a) (imin b)) (Qcmax (imax a) (imax b)).
Definition contains (i : Interval) (x : Qc) : Prop :=
  (imin i <= x)%Qc /\ (x <= imax i)%Qc.

(* ================================================================== *)
(** * Vectors *)
(* ================================================================== *)

Section Vectors.
Context {A : Type}.

(** [oob] is what reading past the end of a vector does: [None] when the
    read faults, [Some x] when it goes through and yields [x]. *)
Definition vget (oob : option A) (v : list A) (i : nat) : outcome A :=
  match nth_error v i with
  | Some x => Ok x
  | None => match oob with Some x => Ok x | None => Fault OutOfRange end
  end.

(** The same for an [int] or wrapped [unsigned] index. *)
Definition vgetZ (oob : option A) (v : list A) (i : Z) : outcome A :=
  if (i <? 0)%Z || (Z.of_nat (length v) <=? i)%Z
  then match oob with Some x => Ok x | None => Fault OutOfRange end
  else vget oob v (Z.to_nat i).

(** [v[i] = x]; writing past the end always faults. *)
Fixpoint vset (v : list A) (i : nat) (x : A) : outcome (list A) :=
  match v, i with
  | [], _ => Fault OutOfRange
  | _ :: v', O => Ok (x :: v')
  | y :: v', Datatypes.S i' => v'' <- vset v' i' x ;; Ok (y :: v'')
  end.

Definition vfront (oob : option A) (v : list A) : outcome A := vget oob v 0.
Definition vback (oob : option A) (v : list A) : outcome A :=
  match v with
  | [] => match oob with Some x => Ok x | None => Fault OutOfRange end
  | _ => vget oob v (length v - 1)
  end.

Definition push_back (v : list A) (x : A) : list A := v ++ [x].

(** [v.insert(v.end(), w.begin() + i, w.begin() + j)] *)
Definition slice (w : list A) (i j : nat) : list A := firstn (j - i) (skipn i w).
End Vectors.

(** [size() - 1] on [unsigned]: wraps to [UINT_MAX] when the size is 0. *)
Definition UINT_MAX : Z := 4294967295.
Definition usub1 (n : nat) : Z :=
  match n with O => UINT_MAX | Datatypes.S k => Z.of_nat k end.

(* ================================================================== *)
(** * The fragment concept *)
(* ================================================================== *)

(** The operations piecewise.h uses on a segment type [T]
    ([FragmentConcept], with the offsetable, scalable, addable and
    multiplicable concepts).  Fragments are scalar-valued, as [SBasis] is:
    [T::output_type] is [double]. *)
Class Fragment (T : Type) : Type := {
  eval : T -> Qc -> Qc;                      (* s(t) *)
  at0 : T -> Qc;
  at1 : T -> Qc;
  seg_portion : T -> Qc -> Qc -> T;          (* portion(s, from, to) *)
  seg_const : Qc -> T;                       (* T(v) *)
  seg_default : T;                           (* T() *)
  seg_offset : T -> Qc -> T;                 (* s + v *)
  seg_scale : T -> Qc -> T;                  (* s * k *)
  seg_div : T -> Qc -> T;                    (* s / k *)
  seg_neg : T -> T;                          (* - s *)
  seg_add : T -> T -> T;                     (* s1 + s2 *)
  seg_sub : T -> T -> T;                     (* s1 - s2 *)
  seg_mul : T -> T -> T;                     (* s1 * s2 *)
  seg_integral : T -> T;
  seg_derivative : T -> T;
  seg_roots : T -> list Qc
}.

(** What "segment arithmetic taken exact" means: each operation of the
    capability has the pointwise meaning its name says. *)
Class FragmentLaws (T : Type) {F : Fragment T} : Prop := {
  eval_at0 : forall s, at0 s = eval s 0%Qc;
  eval_at1 : forall s, at1 s = eval s 1%Qc;
  eval_portion : forall s a b u,
    eval (seg_portion s a b) u = eval s (a + u * (b - a))%Qc;
  eval_offset : forall s k u, eval (seg_offset s k) u = (eval s u + k)%Qc;
  eval_scale : forall s k u, eval (seg_scale s k) u = (eval s u * k)%Qc;
  eval_div : forall s k u, eval (seg_div s k) u = (eval s u / k)%Qc;
  eval_neg : forall s u, eval (seg_neg s) u = (- eval s u)%Qc;
  eval_sub : forall s1 s2 u, eval (seg_sub s1 s2) u = (eval s1 u - eval s2 u)%Qc;
  eval_add : forall s1 s2 u, eval (seg_add s1 s2) u = (eval s1 u + eval s2 u)%Qc;
  eval_mul : forall s1 s2 u, eval (seg_mul s1 s2) u = (eval s1 u * eval s2 u)%Qc
}.

Arguments FragmentLaws T {F}.

(** What "antiderivative and derivative taken exact" means: both are
    linear, the derivative of a constant offset vanishes, and each undoes
    the other up to a constant. *)
Class CalculusLaws (T : Type) {F : Fragment T} : Prop := {
  derivative_integral : forall s u,
    eval (seg_derivative (seg_integral s)) u = eval s u;
  derivative_scale : forall s k u,
    eval (seg_derivative (seg_scale s k)) u = (eval (seg_derivative s) u * k)%Qc;
  derivative_offset : forall s k u,
    eval (seg_derivative (seg_offset s k)) u = eval (seg_derivative s) u;
  integral_derivative : forall s, exists k, forall u,
    eval (seg_integral (seg_derivative s)) u = (eval s u + k)%Qc;
  integral_div : forall s k u,
    eval (seg_integral (seg_div s k)) u = (eval (seg_integral s) u / k)%Qc
}.

Arguments CalculusLaws T {F}.

(* ================================================================== *)
(** * The container *)
(* ================================================================== *)

Section Container.
Context {T : Type} {F : Fragment T}.

(** What an out-of-range read of a vector of doubles yields.  Reading a
    segment out of range always faults. *)
Variable oob : option Qc.

Record Piecewise : Type := mkPiecewise {
  cuts : list Qc;
  segs : list T       (* segs[i] stretches from cuts[i] to cuts[i+1] *)
}.

Definition pw_empty : Piecewise := mkPiecewise [] [].

Definition size (p : Piecewise) : nat := length (segs p).
Definition empty (p : Piecewise) : bool :=
  match segs p with [] => true | _ => false end.

Definition push_seg (p : Piecewise) (s : T) : Piecewise :=
  mkPiecewise (cuts p) (push_back (segs p) s).

Definition push_cut (p : Piecewise) (c : Qc) : outcome Piecewise :=
  ok <- match cuts p with
        | [] => Ok true
        | _ => b <- vback oob (cuts p) ;; Ok (c >? b)%dbl
        end ;;
  assert ok ;;;
  Ok (mkPiecewise (push_back (cuts p) c) (segs p)).

(** [cuts.size() - segs.size() == 1] is computed on [size_t]; with sizes
    below 2^64 it holds exactly when there is one cut more. *)
Definition push (p : Piecewise) (s : T) (to : Qc) : outcome Piecewise :=
  assert (length (cuts p) =? Datatypes.S (length (segs p)))%nat ;;;
  push_cut (push_seg p s) to.

Definition of_seg (s : T) : outcome Piecewise :=
  p <- push_cut pw_empty 0%Qc ;;
  push_cut (push_seg p s) 1%Qc.

Definition of_value (v : Qc) : outcome Piecewise := of_seg (seg_const v).

(** The binary search of [segN], on [int]s. *)
Definition segN_cond (st : Z * Z) : outcome bool :=
  let '(low, high) := st in Ok (low <? high)%Z.

Definition segN_body (p : Piecewise) (t : Qc) (st : Z * Z)
    : outcome (step (Z * Z) Z) :=
  let '(low, high) := st in
  let mid := Z.quot (high + low) 2 in
  mv <- vgetZ oob (cuts p) mid ;;
  if (mv <? t)%dbl then
    c1 <- vgetZ oob (cuts p) (mid + 1) ;;
    if (t <? c1)%dbl then Ok (Return mid) else Ok (Continue ((mid + 1)%Z, high))
  else if (t <? mv)%dbl then
    c0 <- vgetZ oob (cuts p) (mid - 1) ;;
    if (c0 <? t)%dbl then Ok (Return (mid - 1)%Z) else Ok (Continue (low, (mid - 1)%Z))
  else Ok (Return mid).

Definition segN (p : Piecewise) (t : Qc) (low high : Z) : outcome Z :=
  let high := if (high =? -1)%Z then Z.of_nat (size p) else high in
  c0 <- vget oob (cuts p) 0 ;;
  if (t <? c0)%dbl then Ok 0%Z else
  cn <- vget oob (cuts p) (size p) ;;
  if (t >=? cn)%dbl then Ok (usub1 (size p)) else
  r <- while (Datatypes.S (Z.to_nat (high - low))) segN_cond (segN_body p t) (low, high) ;;
  match r with
  | Return i => Ok i
  | Continue (low', _) => Ok low'
  end.

Definition segT (p : Piecewise) (t : Qc) (i : Z) : outcome Qc :=
  i <- (if (i =? -1)%Z then segN p t 0 (-1) else Ok i) ;;
  ci <- vgetZ oob (cuts p) i ;;
  ci1 <- vgetZ oob (cuts p) (i + 1) ;;
  Ok ((t - ci) / (ci1 - ci))%Qc.

Definition sget (v : list T) (i : Z) : outcome T := vgetZ None v i.

Definition valueAt (p : Piecewise) (t : Qc) : outcome Qc :=
  n <- segN p t 0 (-1) ;;
  s <- sget (segs p) n ;;
  u <- segT p t n ;;
  Ok (eval s u).

Definition mapToDomain (p : Piecewise) (t : Qc) (i : nat) : outcome Qc :=
  ci <- vget oob (cuts p) i ;;
  ci1 <- vget oob (cuts p) (i + 1) ;;
  Ok ((1 - t) * ci + t * ci1)%Qc.

(** [for(i = 0; i <= size(); i++) cuts[i] = f(cuts[i])] *)
Definition map_cuts (f : Qc -> Qc) (p : Piecewise) : outcome Piecewise :=
  for_loop 0 (Datatypes.S (size p))
    (fun i q =>
       c <- vget oob (cuts q) i ;;
       cs <- vset (cuts q) i (f c) ;;
       Ok (mkPiecewise cs (segs q)))
    p.

Definition offsetDomain (p : Piecewise) (o : Qc) : outcome Piecewise :=
  if (o =? 0)%dbl then Ok p else map_cuts (fun c => c + o)%Qc p.

Definition scaleDomain (p : Piecewise) (s : Qc) : outcome Piecewise :=
  assert (s >? 0)%dbl ;;;
  if (s =? 0)%dbl then Ok pw_empty
  else map_cuts (fun c => c * s)%Qc p.

Definition domain (p : Piecewise) : outcome Interval :=
  f <- vfront oob (cuts p) ;;
  b <- vback oob (cuts p) ;;
  Ok (Interval_of f b).

Definition setDomain (p : Piecewise) (dom : Interval) : outcome Piecewise :=
  if empty p then Ok p else
  if isEmpty dom then Ok pw_empty else
  cf <- vfront oob (cuts p) ;;
  cb <- vback oob (cuts p) ;;
  let o := (imin dom - cf)%Qc in
  let s := (extent dom / (cb - cf))%Qc in
  map_cuts (fun c => (c - cf) * s + o)%Qc p.

Definition concat (p other : Piecewise) : outcome Piecewise :=
  if empty other then Ok p else
  if empty p then Ok (mkPiecewise (cuts other) (segs other)) else
  let p1 := mkPiecewise (cuts p) (segs p ++ segs other) in
  cb <- vback oob (cuts p) ;;
  o0 <- vfront oob (cuts other) ;;
  let t := (cb - o0)%Qc in
  for_loop 0 (size other)
    (fun i q => c <- vget oob (cuts other) (i + 1) ;; push_cut q (c + t)%Qc)
    p1.

Definition continuousConcat (p other : Piecewise) : outcome Piecewise :=
  if empty other then Ok p else
  sb <- vback None (segs p) ;;
  sf <- vfront None (segs other) ;;
  let y := (at1 sb - at0 sf)%Qc in
  if empty p then
    q <- for_loop 0 (size other)
           (fun i q => s <- sget (segs other) (Z.of_nat i) ;;
                       Ok (push_seg q (seg_offset s y)))
           p ;;
    Ok (mkPiecewise (cuts other) (segs q))
  else
    cb <- vback oob (cuts p) ;;
    o0 <- vfront oob (cuts other) ;;
    let t := (cb - o0)%Qc in
    for_loop 0 (size other)
      (fun i q => s <- sget (segs other) (Z.of_nat i) ;;
                  c <- vget oob (cuts other) (i + 1) ;;
                  push q (seg_offset s y) (c + t)%Qc)
      p.

(** [invariants()]: segs between cuts, cuts in order. *)
Fixpoint cuts_in_order (n i : nat) (cs : list Qc) : outcome bool :=
  match n with
  | O => Ok true
  | Datatypes.S n' =>
      a <- vget oob cs i ;;
      b <- vget oob cs (i + 1) ;;
      if (a >=? b)%dbl then Ok false else cuts_in_order n' (Datatypes.S i) cs
  end.

Definition invariants (p : Piecewise) : outcome bool :=
  if negb ((length (segs p) + 1 =? length (cuts p))%nat
           || (empty p && match cuts p with [] => true | _ => false end))
  then Ok false
  else cuts_in_order (length (segs p)) 0 (cuts p).


(* ================================================================ *)
(** ** Partition and portion *)
(* ================================================================ *)

(** [elem_portion(a, i, from, to)] *)
Definition elem_portion (a : Piecewise) (i : Z) (from to : Qc) : outcome T :=
  assert (i <? Z.of_nat (size a))%Z ;;;
  ci1 <- vgetZ oob (cuts a) (i + 1) ;;
  ci <- vgetZ oob (cuts a) i ;;
  let rwidth := (1 / (ci1 - ci))%Qc in
  s <- sget (segs a) i ;;
  Ok (seg_portion s ((from - ci) * rwidth)%Qc ((to - ci) * rwidth)%Qc).

(** First loop of [partition]: the cuts of [c] that lie before the
    domain.  The loop test reads [c[ci]] and only then compares [ci]
    with [c.size()]. *)
Definition before_cond (pw : Piecewise) (c : list Qc) (st : Piecewise * nat)
    : outcome bool :=
  let '(_, ci) := st in
  x <- vget oob c ci ;;
  f <- vfront oob (cuts pw) ;;
  Ok ((x <? f)%dbl && (ci <? length c)%nat).

Definition before_body (pw : Piecewise) (c : list Qc) (st : Piecewise * nat)
    : outcome (step (Piecewise * nat) Empty_set) :=
  let '(ret, ci) := st in
  isLast <- (if (Z.of_nat ci =? usub1 (length c))%Z then Ok true
             else y <- vget oob c (ci + 1) ;;
                  f <- vfront oob (cuts pw) ;;
                  Ok (y >=? f)%dbl) ;;
  x <- vget oob c ci ;;
  ret <- push_cut ret x ;;
  to <- (if isLast : bool then vfront oob (cuts pw) else vget oob c (ci + 1)) ;;
  s <- elem_portion pw 0 x to ;;
  Ok (Continue (push_seg ret s, ci + 1)%nat).

(** Second loop: the cuts within the domain.  The state is
    [(ret, prev, si, ci)]; the loop may return [ret] from its body. *)
Definition within_state : Type := Piecewise * Qc * nat * nat.

Definition within_cond (pw : Piecewise) (c : list Qc) (st : within_state)
    : outcome bool :=
  let '(_, _, si, ci) := st in
  Ok ((si <? size pw)%nat && (ci <=? length c)%nat).

Definition within_body (pw : Piecewise) (c : list Qc) (st : within_state)
    : outcome (step within_state Piecewise) :=
  let '(ret, prev, si, ci) := st in
  exhausted <- (if (ci =? length c)%nat
                then csi <- vget oob (cuts pw) si ;; Ok (prev <=? csi)%dbl
                else Ok false) ;;
  if exhausted : bool then
    (* cuts exhausted, straight copy the rest *)
    Ok (Return (mkPiecewise (cuts ret ++ skipn (si + 1) (cuts pw))
                            (segs ret ++ skipn si (segs pw))))
  else
    finalize <- (if (ci =? length c)%nat then Ok true
                 else x <- vget oob c ci ;;
                      c1 <- vget oob (cuts pw) (si + 1) ;;
                      Ok (x >=? c1)%dbl) ;;
    if finalize : bool then
      (* no more cuts within this segment, finalize *)
      csi <- vget oob (cuts pw) si ;;
      ret <- (if (prev >? csi)%dbl then
                s <- sget (segs pw) (Z.of_nat si) ;;
                u <- segT pw prev (Z.of_nat si) ;;
                Ok (push_seg ret (seg_portion s u 1%Qc))
              else
                s <- sget (segs pw) (Z.of_nat si) ;;
                Ok (push_seg ret s)) ;;
      c1 <- vget oob (cuts pw) (si + 1) ;;
      ret <- push_cut ret c1 ;;
      Ok (Continue (ret, c1, si + 1, ci)%nat)
    else
      x <- vget oob c ci ;;
      csi <- vget oob (cuts pw) si ;;
      if (x =? csi)%dbl then
        (* coincident *)
        Ok (Continue (ret, prev, si, ci + 1)%nat)
      else
        (* plain old subdivision *)
        s <- elem_portion pw (Z.of_nat si) prev x ;;
        ret <- push ret s x ;;
        Ok (Continue (ret, x, si, ci + 1)%nat).

(** Third loop: the cuts after the domain extend the last segment. *)
Definition after_cond (c : list Qc) (st : Piecewise * Qc * nat) : outcome bool :=
  let '(_, _, ci) := st in Ok (ci <? length c)%nat.

Definition after_body (pw : Piecewise) (c : list Qc) (st : Piecewise * Qc * nat)
    : outcome (step (Piecewise * Qc * nat) Empty_set) :=
  let '(ret, prev, ci) := st in
  x <- vget oob c ci ;;
  if (x >? prev)%dbl then
    s <- elem_portion pw (usub1 (size pw)) prev x ;;
    ret <- push ret s x ;;
    Ok (Continue (ret, x, ci + 1)%nat)
  else Ok (Continue (ret, prev, ci + 1)%nat).

(** The three loops of [partition], for a non-empty [pw] and [c]. *)
Definition partition_loops (pw : Piecewise) (c : list Qc) : outcome Piecewise :=
  r1 <- while (S (length c)) (before_cond pw c) (before_body pw c)
              (pw_empty, 0%nat) ;;
  match r1 with
  | Return e => match e with end
  | Continue (ret, ci) =>
    c0 <- vget oob (cuts pw) 0 ;;
    ret <- push_cut ret c0 ;;
    r2 <- while (S (size pw + length c)) (within_cond pw c) (within_body pw c)
                (ret, c0, 0%nat, ci) ;;
    match r2 with
    | Return r => Ok r
    | Continue (ret, prev, _, ci) =>
      r3 <- while (S (length c)) (after_cond c) (after_body pw c)
                  (ret, prev, ci) ;;
      match r3 with
      | Return e => match e with end
      | Continue (ret, _, _) => Ok ret
      end
    end
  end.

Definition partition (pw : Piecewise) (c : list Qc) : outcome Piecewise :=
  match c with
  | [] => Ok pw
  | _ =>
    if empty pw then
      for_loop 0 (length c - 1) (fun _ q => Ok (push_seg q seg_default))
               (mkPiecewise c [])
    else partition_loops pw c
  end.

(** [portion(pw, from, to)], once [from] and [to] are in order. *)
Definition portion_ordered (pw : Piecewise) (from to : Qc) : outcome Piecewise :=
  i <- segN pw from 0 (-1) ;;
  ret <- push_cut pw_empty from ;;
  same <- (if (i =? usub1 (size pw))%Z then Ok true
           else c1 <- vgetZ oob (cuts pw) (i + 1) ;; Ok (to <? c1)%dbl) ;;
  if same : bool then
    (* to/from inhabit the same segment *)
    s <- elem_portion pw i from to ;;
    push ret s to
  else
    s <- sget (segs pw) i ;;
    u <- segT pw from i ;;
    let ret := push_seg ret (seg_portion s u 1%Qc) in
    let i := (i + 1)%Z in
    fi <- segN pw to i (-1) ;;
    let ret := mkPiecewise
                 (cuts ret ++ slice (cuts pw) (Z.to_nat i) (Z.to_nat (fi + 1)))
                 (segs ret ++ slice (segs pw) (Z.to_nat i) (Z.to_nat fi)) in
    sf <- sget (segs pw) fi ;;
    uf <- segT pw to fi ;;
    let ret := push_seg ret (seg_portion sf 0%Qc uf) in
    b <- vback oob (cuts ret) ;;
    ret <- (if negb (to =? b)%dbl then push_cut ret to else Ok ret) ;;
    invariants ret ;;;      (* the result of the self-check is discarded *)
    Ok ret.

(** [portion(pw, from, to)] *)
Definition portion (pw : Piecewise) (from to : Qc) : outcome Piecewise :=
  if empty pw || (from =? to)%dbl then Ok pw_empty else
  let temp := from in
  let from := Qcmin from to in
  let to := Qcmax temp to in
  portion_ordered pw from to.

Definition remove_short_cuts (f : Piecewise) (tol : Qc) : outcome Piecewise :=
  c0 <- vget oob (cuts f) 0 ;;
  ret <- push_cut pw_empty c0 ;;
  for_loop 0 (size f)
    (fun i ret =>
       c1 <- vget oob (cuts f) (i + 1) ;;
       ci <- vget oob (cuts f) i ;;
       if (c1 - ci >=? tol)%dbl then
         s <- sget (segs f) (Z.of_nat i) ;;
         push ret s c1
       else Ok ret)
    ret.

Definition remove_short_cuts_extending (f : Piecewise) (tol : Qc)
    : outcome Piecewise :=
  c0 <- vget oob (cuts f) 0 ;;
  ret <- push_cut pw_empty c0 ;;
  r <- for_loop 0 (size f)
    (fun i (st : Piecewise * Qc) =>
       let '(ret, last) := st in
       c1 <- vget oob (cuts f) (i + 1) ;;
       ci <- vget oob (cuts f) i ;;
       if (c1 - ci >=? tol)%dbl then
         s <- elem_portion f (Z.of_nat i) last c1 ;;
         ret <- push ret s c1 ;;
         Ok (ret, c1)
       else Ok (ret, last))
    (ret, c0) ;;
  Ok (fst r).

(** [roots(pw)]: the roots of each segment, mapped to global time. *)
Definition roots (pw : Piecewise) : outcome (list Qc) :=
  for_loop 0 (size pw)
    (fun i ret =>
       s <- sget (segs pw) (Z.of_nat i) ;;
       match seg_roots s with
       | [] => Ok ret
       | sr =>
           c1 <- vget oob (cuts pw) (i + 1) ;;
           ci <- vget oob (cuts pw) i ;;
           Ok (ret ++ map (fun r => r * (c1 - ci) + ci)%Qc sr)
       end)
    [].

(* ================================================================ *)
(** ** Algebra operators *)
(* ================================================================ *)

(** [for(i = 0; i < a.size(); i++) ret.push_seg(f(a[i]))] *)
Definition push_segs_of (f : T -> T) (a : Piecewise) (ret : Piecewise)
    : outcome Piecewise :=
  for_loop 0 (size a)
    (fun i r => s <- sget (segs a) (Z.of_nat i) ;; Ok (push_seg r (f s)))
    ret.

(** [for(i = 0; i < a.size(); i++) a[i] = f(a[i])] *)
Definition update_segs (f : T -> T) (a : Piecewise) : outcome Piecewise :=
  for_loop 0 (size a)
    (fun i r => s <- sget (segs r) (Z.of_nat i) ;;
                ss <- vset (segs r) i (f s) ;;
                Ok (mkPiecewise (cuts r) ss))
    a.

(** [a + b], [a - b] for an output value [b] *)
Definition add_value (a : Piecewise) (b : Qc) : outcome Piecewise :=
  push_segs_of (fun s => seg_offset s b) a (mkPiecewise (cuts a) []).
Definition sub_value (a : Piecewise) (b : Qc) : outcome Piecewise :=
  push_segs_of (fun s => seg_offset s (- b)%Qc) a (mkPiecewise (cuts a) []).

(** [a += b], [a -= b]: an empty [a] becomes the constant [b] on [0,1] *)
Definition add_value_assign (a : Piecewise) (b : Qc) : outcome Piecewise :=
  if empty a then a1 <- push_cut a 0%Qc ;; push a1 (seg_const b) 1%Qc
  else update_segs (fun s => seg_offset s b) a.
Definition sub_value_assign (a : Piecewise) (b : Qc) : outcome Piecewise :=
  if empty a then a1 <- push_cut a 0%Qc ;; push a1 (seg_const b) 1%Qc
  else update_segs (fun s => seg_offset s (- b)%Qc) a.

(** [- a], [a * b], [a / b] for a double [b] *)
Definition neg (a : Piecewise) : outcome Piecewise :=
  push_segs_of seg_neg a (mkPiecewise (cuts a) []).
Definition scale (a : Piecewise) (b : Qc) : outcome Piecewise :=
  if empty a then Ok pw_empty
  else push_segs_of (fun s => seg_scale s b) a (mkPiecewise (cuts a) []).
Definition divide_by (a : Piecewise) (b : Qc) : outcome Piecewise :=
  if empty a then Ok pw_empty
  else push_segs_of (fun s => seg_div s b) a (mkPiecewise (cuts a) []).

(** The binary operators: partition each operand by the other's cuts,
    then combine segment by segment. *)
Definition pointwise (op : T -> T -> T) (a b : Piecewise) : outcome Piecewise :=
  pa <- partition a (cuts b) ;;
  pb <- partition b (cuts a) ;;
  assert (size pa =? size pb)%nat ;;;
  for_loop 0 (size pa)
    (fun i r => x <- sget (segs pa) (Z.of_nat i) ;;
                y <- sget (segs pb) (Z.of_nat i) ;;
                Ok (push_seg r (op x y)))
    (mkPiecewise (cuts pa) []).

Definition add (a b : Piecewise) : outcome Piecewise := pointwise seg_add a b.
Definition sub (a b : Piecewise) : outcome Piecewise := pointwise seg_sub a b.
Definition mul (a b : Piecewise) : outcome Piecewise := pointwise seg_mul a b.

(* ================================================================ *)
(** ** Calculus *)
(* ================================================================ *)

Definition integral (a : Piecewise) : outcome Piecewise :=
  let result := mkPiecewise (cuts a) (repeat seg_default (length (segs a))) in
  s0 <- sget (segs a) 0 ;;
  r <- for_loop 0 (length (segs a))
    (fun i (st : list T * Qc) =>
       let '(rs, c) := st in
       s <- sget (segs a) (Z.of_nat i) ;;
       c1 <- vget oob (cuts a) (i + 1) ;;
       ci <- vget oob (cuts a) i ;;
       rs <- vset rs i (seg_scale (seg_integral s) (c1 - ci)%Qc) ;;
       ri <- sget rs (Z.of_nat i) ;;
       rs <- vset rs i (seg_offset ri (c - at0 ri)%Qc) ;;
       ri <- sget rs (Z.of_nat i) ;;
       Ok (rs, at1 ri))
    (segs result, at0 s0) ;;
  Ok (mkPiecewise (cuts result) (fst r)).

Definition derivative (a : Piecewise) : outcome Piecewise :=
  let result := mkPiecewise (cuts a) (repeat seg_default (length (segs a))) in
  rs <- for_loop 0 (length (segs a))
    (fun i rs =>
       s <- sget (segs a) (Z.of_nat i) ;;
       c1 <- vget oob (cuts a) (i + 1) ;;
       ci <- vget oob (cuts a) i ;;
       vset rs i (seg_div (seg_derivative s) (c1 - ci)%Qc))
    (segs result) ;;
  Ok (mkPiecewise (cuts result) rs).

(* ================================================================ *)
(** ** Composition with an elementary function *)
(* ================================================================ *)

Section Compose.
(** The elementary function type ([SBasis]) and the pieces of
    [compose] that live outside piecewise.h. *)
Variable SBasis : Type.
Variable isZero : SBasis -> bool.
Variable sb_bounds_fast : SBasis -> Interval.
Variable Linear : Qc -> Qc -> SBasis.
Variable sb_compose : SBasis -> SBasis -> SBasis.         (* compose(SBasis, SBasis) *)
Variable seg_compose : T -> SBasis -> T.                  (* compose(T, SBasis) *)
(** [compose_pullback]: a [std::map<double,unsigned>], given in the
    order its iterator visits it (by increasing time). *)
Variable compose_pullback : list Qc -> SBasis -> list (Qc * Z).
Variable compose_findSegIdx : Qc * Z -> Qc * Z -> list Qc -> SBasis -> Z.

(** [int(a - b)] for [unsigned] [a], [b]: the difference wraps, and
    is then read as a signed 32-bit integer. *)
Definition int_of_unsigned_diff (a b : Z) : Z :=
  let d := ((a - b) mod 4294967296)%Z in
  if (d <? 2147483648)%Z then d else (d - 4294967296)%Z.

(** One segment of [f] composed with [g], remapped to local time. *)
Definition compose_with_seg (f : Piecewise) (idx : Z) (g : SBasis) : outcome T :=
  t0 <- vgetZ oob (cuts f) idx ;;
  t1 <- vgetZ oob (cuts f) (idx + 1) ;;
  let width := (t1 - t0)%Qc in
  s <- sget (segs f) idx ;;
  Ok (seg_compose s (sb_compose (Linear (- t0 / width) ((1 - t0) / width))%Qc g)).

(** The loop over the pullback: [cut] is the entry under the first
    iterator, [rest] what the second iterator has yet to visit. *)
Fixpoint compose_pieces (f : Piecewise) (g : SBasis) (levels : list Qc)
    (result : Piecewise) (cut : Qc * Z) (rest : list (Qc * Z))
    : outcome Piecewise :=
  match rest with
  | [] => Ok result
  | next :: rest' =>
      assert (Z.abs (int_of_unsigned_diff (snd cut) (snd next)) <? 1)%Z ;;;
      let idx := compose_findSegIdx cut next levels g in
      let t0 := fst cut in
      let t1 := fst next in
      let sub_g := sb_compose g (Linear t0 t1) in
      s <- compose_with_seg f idx sub_g ;;
      result <- push result s t1 ;;
      compose_pieces f g levels result next rest'
  end.

Definition compose (f : Piecewise) (g : SBasis) : outcome Piecewise :=
  if empty f then Ok pw_empty else
  if isZero g then v <- valueAt f 0%Qc ;; of_value v else
  if (size f =? 1)%nat then s <- compose_with_seg f 0 g ;; of_seg s else
  let bs := sb_bounds_fast g in
  cf <- vfront oob (cuts f) ;;
  cb <- vback oob (cuts f) ;;
  if (cf >? imax bs)%dbl || (imin bs >? cb)%dbl then
    c1 <- vget oob (cuts f) 1 ;;
    let idx := if (imax bs <? c1)%dbl then 0%Z
               else (Z.of_nat (length (cuts f)) - 2)%Z in
    s <- compose_with_seg f idx g ;;
    of_seg s
  else
    (* we can forget first and last cuts *)
    let levels := slice (cuts f) 1 (length (cuts f) - 1) in
    let cuts_pb := compose_pullback levels g in
    let result := mkPiecewise [0%Qc] [] in
    match cuts_pb with
    | [] => Fault OutOfRange       (* [next++] past the end of an empty map *)
    | cut :: rest => compose_pieces f g levels result cut rest
    end.
End Compose.

End Container.

Arguments Piecewise T : clear implicits.
Arguments pw_empty {T}.

(* ================================================================== *)
(** * Composition with a piecewise elementary function *)
(* ================================================================== *)

Section ComposePiecewise.
Context {T : Type} {F : Fragment T}.
Variable oob : option Qc.
Variable SBasis : Type.
Variable isZero : SBasis -> bool.
Variable sb_bounds_fast : SBasis -> Interval.
Variable Linear : Qc -> Qc -> SBasis.
Variable sb_compose : SBasis -> SBasis -> SBasis.
Variable seg_compose : T -> SBasis -> T.
Variable compose_pullback : list Qc -> SBasis -> list (Qc * Z).
Variable compose_findSegIdx : Qc * Z -> Qc * Z -> list Qc -> SBasis -> Z.

(** [compose(f, g)] for [g] a [Piecewise<SBasis>]: compose [f] with each
    segment of [g], lay the result over that segment's interval, and
    concatenate. *)
Definition compose_pw (f : Piecewise T) (g : Piecewise SBasis) : outcome (Piecewise T) :=
  for_loop 0 (length (segs g))
    (fun i result =>
       gi <- vgetZ None (segs g) (Z.of_nat i) ;;
       fgi <- compose oob isZero sb_bounds_fast Linear sb_compose seg_compose
                      compose_pullback compose_findSegIdx f gi ;;
       ci <- vget oob (cuts g) i ;;
       ci1 <- vget oob (cuts g) (i + 1) ;;
       fgi <- setDomain oob fgi (Interval_of ci ci1) ;;
       concat oob result fgi)
    pw_empty.
End ComposePiecewise.

(* ================================================================== *)
(** * Scaling in place *)
(* ================================================================== *)

Section ScaleAssign.
Context {T : Type} {F : Fragment T}.

(** [a *= b], [a /= b] for a double [b]: what the operator returns. *)
Definition scale_assign (a : Piecewise T) (b : Qc) : outcome (Piecewise T) :=
  if empty a then Ok pw_empty
  else update_segs (fun s => seg_scale s b) a.
Definition divide_assign (a : Piecewise T) (b : Qc) : outcome (Piecewise T) :=
  if empty a then Ok pw_empty
  else update_segs (fun s => seg_div s b) a.
End ScaleAssign.

(* ================================================================== *)
(** * Bounds *)
(* ================================================================== *)

(** The bound queries of the fragment concept. *)
Class FragmentBounds (T : Type) : Type := {
  seg_bounds_fast : T -> Interval;                 (* bounds_fast(s) *)
  seg_bounds_exact : T -> Interval;                (* bounds_exact(s) *)
  seg_bounds_local : T -> Interval -> Interval     (* bounds_local(s, i) *)
}.

Section Bounds.
Context {T : Type} {F : Fragment T} {B : FragmentBounds T}.
Variable oob : option Qc.

(** [Interval ret(b(f[0])); for(i = 1; i < f.size(); i++) ret.unionWith(b(f[i]))] *)
Definition bounds_union (b : T -> Interval) (f : Piecewise T) : outcome Interval :=
  if empty f then Ok (Interval_point 0%Qc) else
  s0 <- sget (segs f) 0 ;;
  for_loop 1 (size f - 1)
    (fun i ret => s <- sget (segs f) (Z.of_nat i) ;; Ok (unionWith ret (b s)))
    (b s0).

Definition bounds_fast (f : Piecewise T) : outcome Interval :=
  bounds_union seg_bounds_fast f.

Definition bounds_exact (f : Piecewise T) : outcome Interval :=
  bounds_union seg_bounds_exact f.

Definition bounds_local (f : Piecewise T) (m : Interval) : outcome Interval :=
  if empty f then Ok (Interval_point 0%Qc) else
  if isEmpty m then v <- valueAt oob f (imin m) ;; Ok (Interval_point v) else
  fi <- segN oob f (imin m) 0 (-1) ;;
  ti <- segN oob f (imax m) 0 (-1) ;;
  ft <- segT oob f (imin m) fi ;;
  tt <- segT oob f (imax m) ti ;;
  if (fi =? ti)%Z then
    s <- sget (segs f) fi ;;
    Ok (seg_bounds_local s (Interval_of ft tt))
  else
    s <- sget (segs f) fi ;;
    let ret := seg_bounds_local s (Interval_of ft 1%Qc) in
    ret <- for_loop (Z.to_nat (fi + 1)) (Z.to_nat ti - Z.to_nat (fi + 1))
             (fun i ret => s <- sget (segs f) (Z.of_nat i) ;;
                           Ok (unionWith ret (seg_bounds_exact s)))
             ret ;;
    if negb (tt =? 0)%dbl then
      s <- sget (segs f) ti ;;
      Ok (unionWith ret (seg_bounds_local s (Interval_of 0%Qc tt)))
    else Ok ret.
End Bounds.

(* ================================================================== *)
(** * A concrete fragment: polynomials *)
(* ================================================================== *)

(** Polynomials in the local parameter, as coefficient lists (constant
    term first).  They instantiate the fragment concept, so that the
    operations of the container can be run on concrete functions. *)
Module Poly.
Definition poly : Type := list Qc.

Fixpoint peval (p : poly) (u : Qc) : Qc :=
  match p with
  | [] => 0%Qc
  | a :: p' => (a + u * peval p' u)%Qc
  end.

Fixpoint padd (p q : poly) : poly :=
  match p, q with
  | [], _ => q
  | _, [] => p
  | a :: p', b :: q' => (a + b)%Qc :: padd p' q'
  end.

Definition pscale (k : Qc) (p : poly) : poly := map (fun a => a * k)%Qc p.
Definition pdiv (k : Qc) (p : poly) : poly := map (fun a => a / k)%Qc p.
Definition pneg (p : poly) : poly := map Qcopp p.

Fixpoint pmul (p q : poly) : poly :=
  match p with
  | [] => []
  | a :: p' => padd (pscale a q) (0%Qc :: pmul p' q)
  end.

(** [p] after the affine map [u |-> a + u * d]. *)
Fixpoint paffine (p : poly) (a d : Qc) : poly :=
  match p with
  | [] => []
  | c :: p' => padd [c] (pmul [a; d] (paffine p' a d))
  end.

Definition Qc_of_nat (n : nat) : Qc := Q2Qc (inject_Z (Z.of_nat n)).

Fixpoint pderiv_from (n : nat) (p : poly) : poly :=
  match p with
  | [] => []
  | a :: p' => (Qc_of_nat n * a)%Qc :: pderiv_from (S n) p'
  end.
Definition pderiv (p : poly) : poly :=
  match p with [] => [] | _ :: p' => pderiv_from 1 p' end.

Fixpoint pinteg_from (n : nat) (p : poly) : poly :=
  match p with
  | [] => []
  | a :: p' => (a / Qc_of_nat n)%Qc :: pinteg_from (S n) p'
  end.
Definition pinteg (p : poly) : poly := 0%Qc :: pinteg_from 1 p.

(** Roots in [0,1]; only constant and linear polynomials are solved. *)
Definition proots (p : poly) : list Qc :=
  match p with
  | [a; b] =>
      if (b =? 0)%dbl then []
      else let r := (- a / b)%Qc in
           if (0 <=? r)%dbl && (r <=? 1)%dbl then [r] else []
  | _ => []
  end.

#[global] Instance poly_fragment : Fragment poly := {|
  eval := peval;
  at0 := fun p => peval p 0%Qc;
  at1 := fun p => peval p 1%Qc;
  seg_portion := fun p a b => paffine p a (b - a)%Qc;
  seg_const := fun v => [v];
  seg_default := [];
  seg_offset := fun p k => padd p [k];
  seg_scale := fun p k => pscale k p;
  seg_div := fun p k => pdiv k p;
  seg_neg := pneg;
  seg_add := padd;
  seg_sub := fun p q => padd p (pneg q);
  seg_mul := pmul;
  seg_integral := pinteg;
  seg_derivative := pderiv;
  seg_roots := proots
|}.
End Poly.

(** Bounds of a polynomial over [0, 1], by Horner's scheme on
    intervals: for [u] in [0, 1] and [y] in [lo, hi], the product
    [u * y] lies in [min(0, lo), max(0, hi)].  The local bounds are the
    bounds of the polynomial after the affine map onto the interval. *)
Module PolyBounds.
Import Poly.

Fixpoint pbounds (p : poly) : Interval :=
  match p with
  | [] => Interval_point 0%Qc
  | a :: p' =>
      let b := pbounds p' in
      mkInterval (a + Qcmin 0%Qc (imin b))%Qc (a + Qcmax 0%Qc (imax b))%Qc
  end.

#[global] Instance poly_bounds : FragmentBounds poly := {|
  seg_bounds_fast := pbounds;
  seg_bounds_exact := pbounds;
  seg_bounds_local := fun p i => pbounds (paffine p (imin i) (imax i - imin i)%Qc)
|}.
End PolyBounds.

(** Numerals for examples. *)
Definition q (n : Z) (d : positive) : Qc := Q2Qc (n # d).

(** Two functions with disjoint domains: [b] lies wholly before [a]. *)
Definition ex_a : Piecewise Poly.poly := mkPiecewise [q 0 1; q 1 1] [[q 1 1; q 2 1]].
Definition ex_b : Piecewise Poly.poly :=
  mkPiecewise [q (-2) 1; q (-3) 2; q (-1) 1] [[q 0 1; q 1 1]; [q 1 1]].

(** Two functions over [0, 2] with different interior cuts. *)
Definition ex_f : Piecewise Poly.poly :=
  mkPiecewise [q 0 1; q 1 1; q 2 1] [[q 1 1; q 2 1]; [q 3 1; q 0 1; q 1 1]].
Definition ex_g : Piecewise Poly.poly :=
  mkPiecewise [q 0 1; q 1 2; q 2 1] [[q 0 1; q 1 1]; [q 1 1; q 1 1]].

(** A function over [0, 3] that crosses zero at time 1. *)
Definition ex_r : Piecewise Poly.poly :=
  mkPiecewise [q 0 1; q 2 1; q 3 1] [[q (-1) 1; q 2 1]; [q 1 1]].

Unset Implicit Arguments.

(* ================================================================== *)
(** * Reasoning about doubles *)
(* ================================================================== *)

Lemma Qc_eq_Qeq (a b : Qc) : a = b -> (this a == this b)%Q.
Proof. intros ->; reflexivity. Qed.

Lemma Qc_neq_Qeq (a b : Qc) : a <> b -> ~ (this a == this b)%Q.
Proof. intros H E; apply H, Qc_is_canon, E. Qed.

Lemma this_Q2Qc (x : Q) : (this (Q2Qc x) == x)%Q.
Proof. apply Qred_correct. Qed.

(** Turn a goal on [Qc] into one on [Q], where [lra] and [nra] work. *)
Ltac qc2q :=
  repeat match goal with
  | |- @eq Qc _ _ => apply Qc_is_canon
  | |- ~ (@eq Qc _ _) => intro
  | H : @eq Qc ?a ?b |- _ => apply Qc_eq_Qeq in H
  | H : ~ (@eq Qc ?a ?b) |- _ => apply Qc_neq_Qeq in H
  end;
  unfold Qclt, Qcle, Qcminus, Qcdiv, Qcplus, Qcmult, Qcopp, Qcinv in *;
  repeat match goal with
  | |- context [this (Q2Qc ?x)] => rewrite (this_Q2Qc x)
  | H : context [this (Q2Qc ?x)] |- _ => rewrite (this_Q2Qc x) in H
  end.

Ltac qlra := qc2q; lra.

Lemma Qcltb_lt (x y : Qc) : (x <? y)%dbl = true <-> (x < y)%Qc.
Proof.
  unfold Qcltb. rewrite Qclt_alt. destruct (x ?= y)%Qc; split; congruence.
Qed.

Lemma Qcltb_ge (x y : Qc) : (x <? y)%dbl = false <-> (y <= x)%Qc.
Proof.
  unfold Qcltb. rewrite (Qcge_alt x y).
  destruct (x ?= y)%Qc; split; congruence.
Qed.

Lemma Qcleb_le (x y : Qc) : (x <=? y)%dbl = true <-> (x <= y)%Qc.
Proof.
  unfold Qcleb. rewrite Qcle_alt. destruct (x ?= y)%Qc; split; congruence.
Qed.

Lemma Qcleb_gt (x y : Qc) : (x <=? y)%dbl = false <-> (y < x)%Qc.
Proof.
  unfold Qcleb. rewrite (Qcgt_alt x y).
  destruct (x ?= y)%Qc; split; congruence.
Qed.

Lemma Qc_eq_bool_eq (x y : Qc) : (x =? y)%dbl = true <-> x = y.
Proof.
  split; [apply Qc_eq_bool_correct|].
  intros ->. unfold Qc_eq_bool. destruct (Qc_eq_dec y y); congruence.
Qed.

Lemma Qc_eq_bool_neq (x y : Qc) : (x =? y)%dbl = false <-> x <> y.
Proof.
  unfold Qc_eq_bool. destruct (Qc_eq_dec x y); split; congruence.
Qed.

(** Case analysis on a comparison of doubles, keeping the fact. *)
Ltac dbl_case b :=
  let E := fresh "E" in
  destruct b eqn:E;
  [ first [ apply Qcltb_lt in E | apply Qcleb_le in E | apply Qc_eq_bool_eq in E ]
  | first [ apply Qcltb_ge in E | apply Qcleb_gt in E | apply Qc_eq_bool_neq in E ] ].

(* ================================================================== *)
(** * Reasoning about vectors and loops *)
(* ================================================================== *)

Notation "v .[ i ]" := (nth i v 0%Qc) (at level 1, left associativity, format "v .[ i ]").

Section VectorFacts.
Context {A : Type}.
Implicit Types (v w : list A) (oob : option A).

Lemma vget_in oob v i d : (i < length v)%nat -> vget oob v i = Ok (nth i v d).
Proof.
  intros H. unfold vget. now rewrite (nth_error_nth' v d H).
Qed.

Lemma vget_trap v i : (length v <= i)%nat -> vget None v i = Fault OutOfRange.
Proof.
  intros H. unfold vget. apply nth_error_None in H. now rewrite H.
Qed.

Lemma vget_junk x v i : (length v <= i)%nat -> vget (Some x) v i = Ok x.
Proof.
  intros H. unfold vget. apply nth_error_None in H. now rewrite H.
Qed.

Lemma vgetZ_in oob v i d :
  (i < length v)%nat -> vgetZ oob v (Z.of_nat i) = Ok (nth i v d).
Proof.
  intros H. unfold vgetZ.
  destruct (Z.ltb_spec (Z.of_nat i) 0); [lia|].
  destruct (Z.leb_spec (Z.of_nat (length v)) (Z.of_nat i)); [lia|].
  cbn [orb]. rewrite Nat2Z.id. now apply vget_in.
Qed.

Lemma vgetZ_in' oob v z d :
  (0 <= z < Z.of_nat (length v))%Z -> vgetZ oob v z = Ok (nth (Z.to_nat z) v d).
Proof.
  intros H. rewrite <- (Z2Nat.id z) at 1 by lia. apply vgetZ_in. lia.
Qed.

Lemma vback_snoc oob v x : vback oob (v ++ [x]) = Ok x.
Proof.
  unfold vback. destruct (v ++ [x]) eqn:E.
  - destruct v; discriminate.
  - rewrite <- E. rewrite (@vget_in oob _ _ x).
    + rewrite length_app, Nat.add_sub. cbn [length].
      now rewrite nth_middle.
    + rewrite length_app. cbn. lia.
Qed.

Lemma vback_last oob v d : v <> [] -> vback oob v = Ok (last v d).
Proof.
  intros H. destruct (exists_last H) as (v' & x & ->).
  now rewrite vback_snoc, last_last.
Qed.

Lemma firstn_succ v i d :
  (i < length v)%nat -> firstn (S i) v = firstn i v ++ [nth i v d].
Proof.
  revert i; induction v as [|y v IH]; intros [|i] H; cbn in *; try lia; auto.
  rewrite <- IH by lia. reflexivity.
Qed.

Lemma skipn_cons v i d :
  (i < length v)%nat -> skipn i v = nth i v d :: skipn (S i) v.
Proof.
  revert i; induction v as [|y v IH]; intros [|i] H; cbn in *; try lia; auto.
  apply IH. lia.
Qed.

Lemma vset_in v i x :
  (i < length v)%nat -> vset v i x = Ok (firstn i v ++ x :: skipn (S i) v).
Proof.
  revert i; induction v as [|y v IH]; intros [|i] H; cbn in *; try lia; auto.
  rewrite IH by lia. reflexivity.
Qed.
End VectorFacts.

Lemma usub1_pos k : (0 < k)%nat -> usub1 k = Z.of_nat (k - 1).
Proof. destruct k; [lia|]. intros _. cbn [usub1]. f_equal. lia. Qed.

(** The rule for [while]: an invariant [Inv] kept by the body, a
    postcondition [Post] for the early returns, and a measure [m] that
    the body decreases.  With more fuel than the measure, the loop ends. *)
Lemma while_rule {S R : Type} (Inv : S -> Prop) (Post : R -> Prop) (m : S -> nat)
    (cond : S -> outcome bool) (body : S -> outcome (step S R)) :
  (forall s, Inv s ->
     exists b, cond s = Ok b /\
       (b = true ->
        exists r, body s = Ok r /\
          match r with
          | Continue s' => Inv s' /\ (m s' < m s)%nat
          | Return r' => Post r'
          end)) ->
  forall fuel s, Inv s -> (m s < fuel)%nat ->
    exists r, while fuel cond body s = Ok r /\
      match r with
      | Continue s' => Inv s' /\ cond s' = Ok false
      | Return r' => Post r'
      end.
Proof.
  intros Hstep fuel. induction fuel as [|fuel IH]; intros s HI Hm; [lia|].
  destruct (Hstep s HI) as (b & Hc & Hb). cbn [while]. rewrite Hc. cbn [bind].
  destruct b.
  - destruct (Hb eq_refl) as (r & Hr & Hpost). rewrite Hr. cbn [bind].
    destruct r as [s'|r'].
    + destruct Hpost as [HI' Hm']. apply IH; [assumption|lia].
    + eexists; split; [reflexivity|assumption].
  - eexists; split; [reflexivity|]. split; assumption.
Qed.

(** A loop whose test faults: as long as the invariant holds the test
    either faults with [e] or lets the body run, and the body decreases
    the measure; so the loop ends in the fault [e]. *)
Lemma while_fault_rule {S R : Type} (Inv : S -> Prop) (m : S -> nat) (e : fault)
    (cond : S -> outcome bool) (body : S -> outcome (step S R)) :
  (forall s, Inv s ->
     cond s = Fault e \/
     (cond s = Ok true /\
      exists s', body s = Ok (Continue s') /\ Inv s' /\ (m s' < m s)%nat)) ->
  forall fuel s, Inv s -> (m s < fuel)%nat -> while fuel cond body s = Fault e.
Proof.
  intros Hstep fuel. induction fuel as [|fuel IH]; intros s HI Hm; [lia|].
  cbn [while]. destruct (Hstep s HI) as [->|(-> & s' & -> & HI' & Hm')]; [reflexivity|].
  cbn [bind]. apply IH; [assumption|lia].
Qed.

(** The rule for [for]: [Inv i] holds before the iteration with index [i]. *)
Lemma for_rule {S : Type} (Inv : nat -> S -> Prop) (body : nat -> S -> outcome S) :
  forall n lo s,
    Inv lo s ->
    (forall i s, (lo <= i < lo + n)%nat -> Inv i s ->
       exists s', body i s = Ok s' /\ Inv (Datatypes.S i) s') ->
    exists s', for_loop lo n body s = Ok s' /\ Inv (lo + n)%nat s'.
Proof.
  induction n as [|n IH]; intros lo s HI Hstep; cbn [for_loop].
  - exists s. rewrite Nat.add_0_r. auto.
  - destruct (Hstep lo s) as (s1 & Hb & HI1); [lia|assumption|].
    rewrite Hb. cbn [bind].
    destruct (IH (Datatypes.S lo) s1 HI1) as (s2 & Hf & HI2).
    + intros i s' Hi. apply Hstep. lia.
    + exists s2. split; [assumption|]. now rewrite <- Nat.add_succ_comm.
Qed.

(* ================================================================== *)
(** * Well-formed containers *)
(* ================================================================== *)

(** Cuts in strictly increasing order. *)
Definition increasing (l : list Qc) : Prop :=
  forall i, (S i < length l)%nat -> (l.[i] < l.[S i])%Qc.

Lemma increasing_lt l i j :
  increasing l -> (i < j < length l)%nat -> (l.[i] < l.[j])%Qc.
Proof.
  intros Hl [Hij Hj]. induction j as [|j IH]; [lia|].
  destruct (Nat.eq_dec i j) as [->|Hne].
  - now apply Hl.
  - apply Qclt_trans with (l.[j]); [apply IH; lia | now apply Hl].
Qed.

Lemma increasing_le l i j :
  increasing l -> (i <= j < length l)%nat -> (l.[i] <= l.[j])%Qc.
Proof.
  intros Hl [Hij Hj]. destruct (Nat.eq_dec i j) as [->|Hne].
  - apply Qcle_refl.
  - apply Qclt_le_weak, increasing_lt; [assumption|lia].
Qed.

Lemma increasing_inj l i j :
  increasing l -> (i < length l)%nat -> (j < length l)%nat -> l.[i] = l.[j] -> i = j.
Proof.
  intros Hl Hi Hj E.
  destruct (Nat.lt_trichotomy i j) as [H|[H|H]]; [|assumption|].
  - assert (l.[i] < l.[j])%Qc by (apply increasing_lt; [assumption|lia]). qlra.
  - assert (l.[j] < l.[i])%Qc by (apply increasing_lt; [assumption|lia]). qlra.
Qed.

Lemma increasing_nil : increasing [].
Proof. intros i H; cbn in H; lia. Qed.

Lemma increasing_one x : increasing [x].
Proof. intros i H; cbn in H; lia. Qed.

Lemma increasing_snoc l x :
  increasing l -> (forall d, l <> [] -> (last l d < x)%Qc) -> increasing (l ++ [x]).
Proof.
  intros Hl Hx i Hi. rewrite length_app in Hi; cbn in Hi.
  destruct (Nat.eq_dec (S i) (length l)) as [E|E].
  - rewrite E, nth_middle.
    rewrite app_nth1 by lia.
    assert (Hne : l <> []) by (destruct l; [cbn in E; lia | discriminate]).
    specialize (Hx 0%Qc Hne).
    destruct (exists_last Hne) as (l' & y & ->).
    rewrite last_last in Hx. rewrite length_app in E; cbn in E.
    assert (i = length l') as -> by lia. now rewrite nth_middle.
  - rewrite !app_nth1 by lia. apply Hl. lia.
Qed.

Lemma increasing_app_inv l1 l2 : increasing (l1 ++ l2) -> increasing l1.
Proof.
  intros H i Hi. specialize (H i). rewrite length_app in H.
  rewrite !app_nth1 in H by lia. apply H. lia.
Qed.

Lemma increasing_map (f : Qc -> Qc) l :
  (forall x y, (x < y)%Qc -> (f x < f y)%Qc) -> increasing l -> increasing (map f l).
Proof.
  intros Hf Hl i Hi. rewrite length_map in Hi.
  rewrite !(nth_indep _ 0%Qc (f 0%Qc)) by (rewrite length_map; lia).
  rewrite !map_nth. apply Hf, Hl, Hi.
Qed.

Section ContainerFacts.
Context {T : Type} {F : Fragment T}.
Variable oob : option Qc.
Implicit Types (p : Piecewise T).

(** The two invariants of the container, as a proposition. *)
Definition well_formed p : Prop :=
  (length (cuts p) = S (length (segs p)) \/ (segs p = [] /\ cuts p = []))
  /\ increasing (cuts p).

Lemma cuts_in_order_true n : forall i cs,
  (i + n < length cs)%nat ->
  (forall k, (i <= k < i + n)%nat -> (cs.[k] < cs.[S k])%Qc) ->
  cuts_in_order oob n i cs = Ok true.
Proof.
  induction n as [|n IH]; intros i cs Hlen H; cbn [cuts_in_order]; [reflexivity|].
  rewrite (@vget_in _ oob cs i 0%Qc) by lia.
  rewrite (@vget_in _ oob cs (i + 1) 0%Qc) by lia. cbn [bind].
  rewrite Nat.add_1_r.
  assert (Hi : (cs.[i] < cs.[S i])%Qc) by (apply H; lia).
  dbl_case (cs.[S i] <=? cs.[i])%dbl; [qlra|].
  apply IH; [lia|]. intros k Hk. apply H. lia.
Qed.

Lemma cuts_in_order_inv n : forall i cs,
  (i + n < length cs)%nat ->
  cuts_in_order oob n i cs = Ok true ->
  forall k, (i <= k < i + n)%nat -> (cs.[k] < cs.[S k])%Qc.
Proof.
  induction n as [|n IH]; intros i cs Hlen H k Hk; [lia|].
  cbn [cuts_in_order] in H.
  rewrite (@vget_in _ oob cs i 0%Qc) in H by lia.
  rewrite (@vget_in _ oob cs (i + 1) 0%Qc) in H by lia. cbn [bind] in H.
  rewrite Nat.add_1_r in H.
  revert H. dbl_case (cs.[S i] <=? cs.[i])%dbl; [discriminate|]. intros H.
  destruct (Nat.eq_dec k i) as [->|Hne]; [assumption|].
  apply (IH (S i) cs); [lia|assumption|lia].
Qed.

(** [invariants()] decides [well_formed], whatever [oob] is: it reads
    the cuts only after it has checked how many there are. *)
Lemma invariants_true p : invariants oob p = Ok true <-> well_formed p.
Proof.
  unfold invariants, well_formed, empty.
  destruct p as [cs ss]; cbn [cuts segs].
  destruct (Nat.eqb_spec (length ss + 1) (length cs)) as [E|E]; cbn [orb negb].
  - split.
    + intros H. split; [left; lia|].
      intros i Hi. apply (cuts_in_order_inv (length ss) 0 cs); [lia|assumption|lia].
    + intros [_ H]. apply cuts_in_order_true; [lia|].
      intros k Hk. apply H. lia.
  - destruct ss as [|s ss]; cbn [andb].
    + destruct cs as [|c cs]; cbn [negb].
      * split; [|reflexivity]. intros _. split; [right; auto|apply increasing_nil].
      * split; [discriminate|]. intros [[H|[_ H]] _]; [cbn in *; lia|discriminate].
    + cbn [negb]. split; [discriminate|].
      intros [[H|[H _]] _]; [cbn in *; lia|discriminate].
Qed.

Lemma push_cut_ok p c :
  (forall d, cuts p <> [] -> (last (cuts p) d < c)%Qc) ->
  push_cut oob p c = Ok (mkPiecewise (cuts p ++ [c]) (segs p)).
Proof.
  intros H. unfold push_cut. destruct (cuts p) as [|x l] eqn:E; cbn [bind assert].
  - reflexivity.
  - rewrite <- E in *. rewrite (@vback_last _ oob _ 0%Qc) by (rewrite E; discriminate).
    cbn [bind]. specialize (H 0%Qc). rewrite E in H at 1.
    specialize (H ltac:(discriminate)). apply Qcltb_lt in H. rewrite H.
    reflexivity.
Qed.

Lemma push_cut_inv p c r :
  push_cut oob p c = Ok r ->
  r = mkPiecewise (cuts p ++ [c]) (segs p).
Proof.
  unfold push_cut. destruct (cuts p) as [|x l]; cbn [bind assert].
  - now intros [= <-].
  - destruct (vback oob (x :: l)) as [b|e]; cbn [bind]; [|discriminate].
    destruct (b <? c)%dbl; cbn [bind assert]; [|discriminate]. now intros [= <-].
Qed.

Lemma push_ok p s c :
  length (cuts p) = S (length (segs p)) ->
  (forall d, (last (cuts p) d < c)%Qc) ->
  push oob p s c = Ok (mkPiecewise (cuts p ++ [c]) (segs p ++ [s])).
Proof.
  intros Hlen H. unfold push. rewrite Hlen, Nat.eqb_refl. cbn [assert bind].
  rewrite push_cut_ok; [reflexivity|]. intros d _. apply H.
Qed.
End ContainerFacts.

(* ================================================================== *)
(** * Domain transforms *)
(* ================================================================== *)

Section DomainTransforms.
Context {T : Type} {F : Fragment T}.
Variable oob : option Qc.
Implicit Types (p : Piecewise T).

Lemma map_cuts_ok (f : Qc -> Qc) p :
  length (cuts p) = S (size p) ->
  map_cuts oob f p = Ok (mkPiecewise (map f (cuts p)) (segs p)).
Proof.
  intros Hlen. unfold map_cuts.
  destruct (for_rule
    (fun i (r : Piecewise T) =>
       segs r = segs p /\ cuts r = map f (firstn i (cuts p)) ++ skipn i (cuts p))
    (fun i r => c <- vget oob (cuts r) i ;;
                cs <- vset (cuts r) i (f c) ;;
                Ok (mkPiecewise cs (segs r)))
    (S (size p)) 0 p) as (r & Hr & Hs & Hc).
  - split; reflexivity.
  - intros i r Hi [Hs Hc].
    assert (Hl : length (cuts r) = length (cuts p)).
    { rewrite Hc, length_app, length_map, <- length_app, firstn_skipn. reflexivity. }
    rewrite (vget_in oob (cuts r) i 0%Qc) by lia. cbn [bind].
    rewrite vset_in by lia. cbn [bind].
    eexists; split; [reflexivity|]. cbn [cuts segs]. split; [assumption|].
    assert (Hf : length (map f (firstn i (cuts p))) = i).
    { rewrite length_map, length_firstn. lia. }
    rewrite Hc at 1 2 3.
    rewrite app_nth2 by lia. rewrite Hf, Nat.sub_diag.
    rewrite firstn_app, Hf, Nat.sub_diag, firstn_O, app_nil_r.
    rewrite firstn_all2 by lia.
    rewrite skipn_app, Hf.
    replace (S i - i)%nat with 1%nat by lia.
    rewrite (skipn_all2 (n := S i)) by (rewrite Hf; lia). cbn [app].
    rewrite (skipn_cons (cuts p) i 0%Qc) by lia. cbn [nth skipn].
    rewrite (firstn_succ (cuts p) i 0%Qc) by lia. rewrite map_app. cbn [map].
    rewrite <- app_assoc. reflexivity.
  - rewrite Hr. destruct r as [cs ss]; cbn [cuts segs] in *. subst ss. f_equal. f_equal.
    rewrite Hc. cbn [Nat.add]. rewrite <- Hlen.
    rewrite firstn_all, skipn_all. apply app_nil_r.
Qed.

(** [offsetDomain] shifts every cut. *)
Lemma offsetDomain_ok p o :
  length (cuts p) = S (size p) ->
  offsetDomain oob p o = Ok (mkPiecewise (map (fun c => c + o)%Qc (cuts p)) (segs p)).
Proof.
  intros Hlen. unfold offsetDomain. dbl_case (o =? 0)%dbl.
  - subst o. destruct p as [cs ss]. cbn [cuts segs]. f_equal. f_equal.
    rewrite <- (map_id cs) at 1. apply map_ext. intros a. ring.
  - now apply map_cuts_ok.
Qed.

(** [scaleDomain] by a positive factor multiplies every cut by it. *)
Lemma scaleDomain_pos p s :
  length (cuts p) = S (size p) -> (0 < s)%Qc ->
  scaleDomain oob p s = Ok (mkPiecewise (map (fun c => c * s)%Qc (cuts p)) (segs p)).
Proof.
  intros Hlen Hs. unfold scaleDomain.
  apply Qcltb_lt in Hs. rewrite Hs. cbn [assert bind].
  dbl_case (s =? 0)%dbl.
  - subst s. discriminate.
  - now apply map_cuts_ok.
Qed.

Lemma scaleDomain_pos_well_formed p s r :
  well_formed p -> empty p = false -> (0 < s)%Qc ->
  scaleDomain oob p s = Ok r -> well_formed r.
Proof.
  intros [[Hlen|[Hs _]] Hinc] Hne Hpos.
  2:{ unfold empty in Hne. rewrite Hs in Hne. discriminate. }
  rewrite scaleDomain_pos by assumption. intros [= <-].
  split; cbn [cuts segs].
  - left. now rewrite length_map.
  - apply increasing_map; [|assumption].
    intros x y Hxy. now apply Qcmult_lt_compat_r.
Qed.
End DomainTransforms.

(** C8 -- [scaleDomain(0)] does not collapse the function to the empty
    state: the assertion [s > 0] at the head of the function fails first,
    for every container, so the branch that clears it is never reached.
    (For a positive factor every cut is multiplied by it:
    [scaleDomain_pos].) *)
Theorem scaleDomain_zero_asserts :
  forall (T : Type) (F : Fragment T) (oob : option Qc) (p : Piecewise T),
    scaleDomain oob p 0%Qc = Fault AssertFail.
Proof. intros. reflexivity. Qed.

(* ================================================================== *)
(** * [portion] and the invariants *)
(* ================================================================== *)

(** C1 -- [portion] returns a container that breaks the invariants.
    Over the cuts [0, 1, 2], the portion from 1/2 to 1 ends on an
    interior cut: the result holds the two cuts [1/2, 1] and two
    segments, and [invariants()] is false on it. *)
Theorem portion_breaks_invariants :
  forall (T : Type) (F : Fragment T) (oob : option Qc) (s0 s1 : T),
    exists r,
      portion oob (mkPiecewise [q 0 1; q 1 1; q 2 1] [s0; s1]) (q 1 2) (q 1 1) = Ok r
      /\ length (cuts r) = 2%nat /\ length (segs r) = 2%nat
      /\ invariants oob r = Ok false.
Proof.
  intros. eexists. split; [vm_compute; reflexivity|].
  repeat split.
Qed.

(* ================================================================== *)
(** * The consistency check of [compose] *)
(* ================================================================== *)

Lemma int_of_unsigned_diff_small (a b : Z) :
  (0 <= a < 4294967296)%Z -> (0 <= b < 4294967296)%Z ->
  (Z.abs (int_of_unsigned_diff a b) <? 1)%Z = true <-> a = b.
Proof.
  intros Ha Hb. unfold int_of_unsigned_diff. rewrite Z.ltb_lt.
  destruct (Z.ltb_spec ((a - b) mod 4294967296) 2147483648) as [H|H];
    split; intros E; [| subst; rewrite Z.sub_diag; cbn; lia | | subst; rewrite Z.sub_diag in H; cbn in H; lia ].
  - destruct (Z_le_gt_dec b a).
    + rewrite Z.mod_small in E by lia. lia.
    + assert (Hm : ((a - b) mod 4294967296 = a - b + 4294967296)%Z).
      { symmetry. apply Z.mod_unique with (q := (-1)%Z); lia. }
      rewrite Hm in E. lia.
  - destruct (Z_le_gt_dec b a).
    + rewrite Z.mod_small in E by lia. rewrite Z.mod_small in H by lia. lia.
    + assert (Hm : ((a - b) mod 4294967296 = a - b + 4294967296)%Z).
      { symmetry. apply Z.mod_unique with (q := (-1)%Z); lia. }
      rewrite Hm in E. lia.
Qed.

Section ComposeFacts.
Context {T : Type} {F : Fragment T}.
Variable oob : option Qc.
Variable SBasis : Type.
Variable isZero : SBasis -> bool.
Variable sb_bounds_fast : SBasis -> Interval.
Variable Linear : Qc -> Qc -> SBasis.
Variable sb_compose : SBasis -> SBasis -> SBasis.
Variable seg_compose : T -> SBasis -> T.
Variable compose_pullback : list Qc -> SBasis -> list (Qc * Z).
Variable compose_findSegIdx : Qc * Z -> Qc * Z -> list Qc -> SBasis -> Z.

(** Every two time-adjacent entries carry the same tag. *)
Fixpoint tags_constant (cut : Qc * Z) (rest : list (Qc * Z)) : Prop :=
  match rest with
  | [] => True
  | next :: rest' => snd cut = snd next /\ tags_constant next rest'
  end.

Definition tag_in_range (e : Qc * Z) : Prop := (0 <= snd e < 4294967296)%Z.

(** The loop over the pullback gets to its end only when no two
    adjacent tags differ at all. *)
Lemma compose_pieces_tags f g levels rest : forall result cut r,
  tag_in_range cut -> Forall tag_in_range rest ->
  compose_pieces oob Linear sb_compose seg_compose compose_findSegIdx
                 f g levels result cut rest = Ok r ->
  tags_constant cut rest.
Proof.
  induction rest as [|next rest IH]; intros result cut r Hc Hr H; cbn; [exact I|].
  inversion Hr as [|? ? Hn Hr']; subst.
  cbn [compose_pieces] in H.
  destruct (Z.abs (int_of_unsigned_diff (snd cut) (snd next)) <? 1)%Z eqn:E;
    cbn [assert bind] in H; [|discriminate].
  apply int_of_unsigned_diff_small in E; [|assumption..].
  split; [assumption|].
  destruct (compose_with_seg _ _ _ _ _ _ _) as [s|]; cbn [bind] in H; [|discriminate].
  destruct (push _ _ _ _) as [result'|]; cbn [bind] in H; [|discriminate].
  eapply IH; eassumption.
Qed.

(** C2 -- [compose] fails on a step of exactly one segment.  Take [f]
    with three segments over the cuts [0, 1, 2, 3] and a [g] that is not
    zero and ranges over [0, 3], so that neither fast path applies.  If
    the first two entries of the pullback carry tags [k] and [k + 1]
    (a crossing into the next segment, as the check is meant to
    allow), the assertion [abs(int(k - (k+1))) < 1] fails and no result
    is produced. *)
Theorem compose_unit_step_asserts :
  forall (s0 s1 s2 : T) (g : SBasis) (t0 t1 : Qc) (k : Z) (rest : list (Qc * Z)),
    isZero g = false ->
    sb_bounds_fast g = mkInterval (q 0 1) (q 3 1) ->
    (0 <= k < 4294967295)%Z ->
    compose_pullback [q 1 1; q 2 1] g = (t0, k) :: (t1, (k + 1)%Z) :: rest ->
    compose oob isZero sb_bounds_fast Linear sb_compose seg_compose
            compose_pullback compose_findSegIdx
            (mkPiecewise [q 0 1; q 1 1; q 2 1; q 3 1] [s0; s1; s2]) g
    = Fault AssertFail.
Proof.
  intros s0 s1 s2 g t0 t1 k rest Hz Hb Hk Hp.
  unfold compose. cbn [empty segs size length Nat.eqb]. rewrite Hz.
  cbn [cuts]. unfold vfront, vback.
  rewrite (vget_in oob _ 0 0%Qc) by (cbn; lia).
  rewrite (vget_in oob _ (length _ - 1) 0%Qc) by (cbn; lia).
  cbn [bind length Nat.sub nth]. rewrite Hb. cbn [imax imin].
  replace ((q 0 1 >? q 3 1)%dbl) with false by reflexivity.
  replace ((q 0 1 >? q 3 1)%dbl || (q 0 1 >? q 3 1)%dbl) with false by reflexivity.
  replace (slice [q 0 1; q 1 1; q 2 1; q 3 1] 1 3) with [q 1 1; q 2 1] by reflexivity.
  rewrite Hp. cbn [compose_pieces snd].
  destruct (Z.abs (int_of_unsigned_diff k (k + 1)) <? 1)%Z eqn:E.
  - apply int_of_unsigned_diff_small in E; lia.
  - reflexivity.
Qed.
End ComposeFacts.

(** The hypotheses of [compose_unit_step_asserts] at the identity over
    [0, 3]: its pullback against the levels 1 and 2 starts in segment 0
    and enters segment 1 at time 1/3. *)
Lemma compose_unit_step_asserts_witness :
  compose (F := Poly.poly_fragment) None (fun _ : unit => false)
          (fun _ => mkInterval (q 0 1) (q 3 1))
          (fun _ _ => tt) (fun _ _ => tt) (fun s _ => s)
          (fun _ _ => [(q 0 1, 0%Z); (q 1 3, 1%Z); (q 2 3, 2%Z); (q 1 1, 2%Z)])
          (fun cut _ _ _ => snd cut)
          (mkPiecewise [q 0 1; q 1 1; q 2 1; q 3 1] [[q 0 1]; [q 1 1]; [q 2 1]]) tt
  = Fault AssertFail.
Proof.
  apply (compose_unit_step_asserts (F := Poly.poly_fragment) None unit
           (fun _ : unit => false) (fun _ => mkInterval (q 0 1) (q 3 1))
           (fun _ _ => tt) (fun _ _ => tt) (fun s _ => s)
           (fun _ _ => [(q 0 1, 0%Z); (q 1 3, 1%Z); (q 2 3, 2%Z); (q 1 1, 2%Z)])
           (fun cut _ _ _ => snd cut)
           [q 0 1] [q 1 1] [q 2 1] tt (q 0 1) (q 1 3) 0%Z
           [(q 2 3, 2%Z); (q 1 1, 2%Z)]).
  - reflexivity.
  - reflexivity.
  - lia.
  - reflexivity.
Defined.

(* ================================================================== *)
(** * Increasing lists are determined by their elements *)
(* ================================================================== *)

Lemma increasing_cons_inv x l : increasing (x :: l) -> increasing l.
Proof. intros H i Hi. apply (H (S i)). cbn. lia. Qed.

Lemma increasing_head_lt x l y : increasing (x :: l) -> In y l -> (x < y)%Qc.
Proof.
  intros H Hy. destruct (In_nth l y 0%Qc Hy) as (i & Hi & <-).
  apply (increasing_lt (x :: l) 0 (S i) H). cbn. lia.
Qed.

Lemma increasing_ext l1 : forall l2,
  increasing l1 -> increasing l2 ->
  (forall x, In x l1 <-> In x l2) -> l1 = l2.
Proof.
  induction l1 as [|a l1 IH]; intros [|b l2] H1 H2 E.
  - reflexivity.
  - exfalso. apply (proj2 (E b)). now left.
  - exfalso. apply (proj1 (E a)). now left.
  - assert (a = b) as ->.
    { destruct (proj1 (E a) (or_introl eq_refl)) as [Hab|Hab]; [now symmetry|].
      destruct (proj2 (E b) (or_introl eq_refl)) as [Hba|Hba]; [assumption|].
      pose proof (increasing_head_lt _ _ _ H2 Hab).
      pose proof (increasing_head_lt _ _ _ H1 Hba). qlra. }
    f_equal. apply IH; [eapply increasing_cons_inv; eassumption..|].
    intros x. split; intros Hx.
    + destruct (proj1 (E x) (or_intror Hx)) as [<-|]; [|assumption].
      pose proof (increasing_head_lt _ _ _ H1 Hx). qlra.
    + destruct (proj2 (E x) (or_intror Hx)) as [<-|]; [|assumption].
      pose proof (increasing_head_lt _ _ _ H2 Hx). qlra.
Qed.

Lemma increasing_app l1 l2 :
  increasing l1 -> increasing l2 ->
  (forall d, l1 <> [] -> l2 <> [] -> (last l1 d < hd d l2)%Qc) ->
  increasing (l1 ++ l2).
Proof.
  revert l1. induction l2 as [|x l2 IH]; intros l1 H1 H2 H.
  - now rewrite app_nil_r.
  - change (x :: l2) with ([x] ++ l2). rewrite app_assoc. apply IH.
    + apply increasing_snoc; [assumption|]. intros d Hne.
      apply (H d Hne). discriminate.
    + eapply increasing_cons_inv; eassumption.
    + intros d _ Hne. rewrite last_last.
      destruct l2 as [|y l2]; [congruence|]. cbn [hd].
      apply (H2 0%nat). cbn. lia.
Qed.

Lemma last_nth (l : list Qc) d : l <> [] -> last l d = nth (length l - 1) l d.
Proof.
  intros H. destruct (exists_last H) as (l' & x & ->).
  rewrite last_last, length_app. cbn [length].
  replace (length l' + 1 - 1)%nat with (length l') by lia. now rewrite nth_middle.
Qed.

Lemma last_firstn (l : list Qc) i d :
  (i < length l)%nat -> last (firstn (S i) l) d = nth i l d.
Proof.
  intros H. rewrite (firstn_succ l i d H). apply last_last.
Qed.

Lemma In_firstn_nth (l : list Qc) i x :
  (i <= length l)%nat ->
  In x (firstn i l) <-> exists k, (k < i)%nat /\ l.[k] = x.
Proof.
  intros Hi. split.
  - intros H. destruct (In_nth _ _ 0%Qc H) as (k & Hk & <-).
    rewrite length_firstn in Hk. exists k. split; [lia|].
    rewrite <- (firstn_skipn i l) at 1. rewrite app_nth1; [reflexivity|].
    rewrite length_firstn. lia.
  - intros (k & Hk & <-).
    rewrite <- (firstn_skipn i l) at 1. rewrite app_nth1 by (rewrite length_firstn; lia).
    apply nth_In. rewrite length_firstn. lia.
Qed.

(* ================================================================== *)
(** * What [partition] builds *)
(* ================================================================== *)

Section Pieces.
Context {T : Type} {F : Fragment T}.
Variable pw : Piecewise T.

Definition seg_at (i : nat) : T := nth i (segs pw) seg_default.
Definition rwidth (i : nat) : Qc := (1 / ((cuts pw).[S i] - (cuts pw).[i]))%Qc.

(** The segment that [partition] stores for the interval [lo, hi],
    by the place in the code that makes it. *)
Inductive Piece : Qc -> Qc -> T -> Prop :=
| piece_whole i :            (* plain copy *)
    (i < size pw)%nat ->
    Piece (cuts pw).[i] (cuts pw).[S i] (seg_at i)
| piece_tail i lo :          (* the rest of a segment that already has cuts *)
    (i < size pw)%nat ->
    ((cuts pw).[i] < lo)%Qc -> (lo < (cuts pw).[S i])%Qc ->
    Piece lo (cuts pw).[S i]
          (seg_portion (seg_at i)
             ((lo - (cuts pw).[i]) / ((cuts pw).[S i] - (cuts pw).[i]))%Qc 1%Qc)
| piece_before lo hi :       (* before the domain: the first segment, extended *)
    (lo < hi)%Qc -> (hi <= (cuts pw).[0])%Qc ->
    Piece lo hi
          (seg_portion (seg_at 0)
             ((lo - (cuts pw).[0]) * rwidth 0)%Qc ((hi - (cuts pw).[0]) * rwidth 0)%Qc)
| piece_inside i lo hi :     (* plain old subdivision *)
    (i < size pw)%nat ->
    ((cuts pw).[i] <= lo)%Qc -> (lo < hi)%Qc -> (hi < (cuts pw).[S i])%Qc ->
    Piece lo hi
          (seg_portion (seg_at i)
             ((lo - (cuts pw).[i]) * rwidth i)%Qc ((hi - (cuts pw).[i]) * rwidth i)%Qc)
| piece_after lo hi :        (* after the domain: the last segment, extended *)
    ((cuts pw).[size pw] <= lo)%Qc -> (lo < hi)%Qc ->
    Piece lo hi
          (seg_portion (seg_at (size pw - 1))
             ((lo - (cuts pw).[size pw - 1]) * rwidth (size pw - 1))%Qc
             ((hi - (cuts pw).[size pw - 1]) * rwidth (size pw - 1))%Qc).

(** Cuts [cs] with one segment between each two, each segment a piece. *)
Definition Pieces (cs : list Qc) (ss : list T) : Prop :=
  length cs = S (length ss) /\
  forall j, (j < length ss)%nat -> Piece cs.[j] cs.[S j] (nth j ss seg_default).

Lemma Pieces_snoc cs ss x s :
  Pieces cs ss -> Piece (last cs 0%Qc) x s -> Pieces (cs ++ [x]) (ss ++ [s]).
Proof.
  intros [Hlen Hp] Hx. split.
  - rewrite !length_app. cbn. lia.
  - intros j Hj. rewrite length_app in Hj. cbn in Hj.
    destruct (Nat.eq_dec j (length ss)) as [->|Hne].
    + rewrite nth_middle.
      replace (S (length ss)) with (length cs) by lia. rewrite nth_middle.
      rewrite app_nth1 by lia.
      rewrite last_nth in Hx by (destruct cs; [discriminate|discriminate]).
      replace (length cs - 1)%nat with (length ss) in Hx by lia. exact Hx.
    + rewrite !app_nth1 by lia. apply Hp. lia.
Qed.

Lemma Pieces_one x : Pieces [x] [].
Proof. split; [reflexivity|]. intros j Hj. cbn in Hj. lia. Qed.
End Pieces.

Section Access.
Context {T : Type} {F : Fragment T}.
Variable oob : option Qc.
Variable pw : Piecewise T.

Local Abbreviation P := (cuts pw).
Local Abbreviation n := (size pw).

Lemma sget_at i : (i < n)%nat -> sget (segs pw) (Z.of_nat i) = Ok (seg_at pw i).
Proof.
  intros Hi. unfold sget.
  now rewrite (vgetZ_in None (segs pw) i seg_default) by (unfold size in Hi; lia).
Qed.

Hypothesis Hlen : length P = S n.

Lemma elem_portion_at i from to :
  (i < n)%nat ->
  elem_portion oob pw (Z.of_nat i) from to
  = Ok (seg_portion (seg_at pw i) ((from - P.[i]) * rwidth pw i)%Qc
                                  ((to - P.[i]) * rwidth pw i)%Qc).
Proof.
  intros Hi. unfold elem_portion.
  destruct (Z.ltb_spec (Z.of_nat i) (Z.of_nat n)); [|lia]. cbn [assert bind].
  replace (Z.of_nat i + 1)%Z with (Z.of_nat (S i)) by lia.
  rewrite (vgetZ_in oob P (S i) 0%Qc) by lia.
  rewrite (vgetZ_in oob P i 0%Qc) by lia. cbn [bind].
  rewrite sget_at by assumption. reflexivity.
Qed.

Lemma segT_at t i :
  (i < n)%nat ->
  segT oob pw t (Z.of_nat i) = Ok ((t - P.[i]) / (P.[S i] - P.[i]))%Qc.
Proof.
  intros Hi. unfold segT.
  destruct (Z.eqb_spec (Z.of_nat i) (-1)); [lia|]. cbn [bind].
  rewrite (vgetZ_in oob P i 0%Qc) by lia.
  replace (Z.of_nat i + 1)%Z with (Z.of_nat (S i)) by lia.
  rewrite (vgetZ_in oob P (S i) 0%Qc) by lia. reflexivity.
Qed.
End Access.

Section PartitionFacts.
Context {T : Type} {F : Fragment T}.
Variable oob : option Qc.
Variable pw : Piecewise T.
Variable c : list Qc.

Local Abbreviation P := (cuts pw).
Local Abbreviation n := (size pw).
Local Abbreviation m := (length c).

Hypothesis Hlen : length P = S n.
Hypothesis Hn : (0 < n)%nat.
Hypothesis HP : increasing P.
Hypothesis Hc : increasing c.
Hypothesis Hm : (0 < m)%nat.

(** ** The cuts before the domain *)

(** The cut that ends the segment being built in the first loop. *)
Definition vnext (ci : nat) : Qc :=
  if (ci <? m)%nat && (c.[ci] <? P.[0])%dbl then c.[ci] else P.[0].

Definition before_inv (st : Piecewise T * nat) : Prop :=
  let '(ret, ci) := st in
  (ci <= m)%nat /\
  (forall k, (k < ci)%nat -> (c.[k] < P.[0])%Qc) /\
  cuts ret = firstn ci c /\
  Pieces pw (firstn ci c ++ [vnext ci]) (segs ret).

(** Within [c], the loop test reads [c[ci]] in range. *)
Lemma before_cond_in ret ci :
  (ci < m)%nat ->
  before_cond oob pw c (ret, ci) = Ok (c.[ci] <? P.[0])%dbl.
Proof.
  intros H. unfold before_cond, vfront.
  rewrite (vget_in oob c ci 0%Qc) by lia.
  rewrite (vget_in oob P 0 0%Qc) by lia. cbn [bind].
  apply Nat.ltb_lt in H. now rewrite H, andb_true_r.
Qed.

(** One round of the first loop. *)
Lemma before_body_ok ret ci :
  before_inv (ret, ci) -> (ci < m)%nat -> (c.[ci] < P.[0])%Qc ->
  exists ret',
    before_body oob pw c (ret, ci) = Ok (Continue (ret', S ci)) /\
    before_inv (ret', S ci).
Proof.
  intros (Hci & Hlt & Hcuts & Hpieces) Hb1 Hb2.
  unfold before_body, vfront. rewrite usub1_pos by assumption.
  rewrite (vget_in oob P 0 0%Qc) by lia.
  rewrite (vget_in oob c ci 0%Qc) by lia.
  assert (Hv : vnext ci = c.[ci]).
  { unfold vnext. apply Nat.ltb_lt in Hb1. apply Qcltb_lt in Hb2.
    now rewrite Hb1, Hb2. }
  rewrite Hv in Hpieces. rewrite <- (firstn_succ c ci 0%Qc) in Hpieces by assumption.
  assert (Hpush : push_cut oob ret c.[ci]
                  = Ok (mkPiecewise (firstn (S ci) c) (segs ret))).
  { rewrite push_cut_ok.
    - rewrite Hcuts. now rewrite (firstn_succ c ci 0%Qc).
    - intros d Hne. rewrite Hcuts in *. destruct ci as [|ci]; [now cbn in Hne|].
      rewrite last_firstn by lia. rewrite (nth_indep c d 0%Qc) by lia.
      apply Hc. lia. }
  rewrite Nat.add_1_r.
  (* the cut that ends the new segment *)
  assert (Hto : exists to,
             (c.[ci] < to)%Qc /\ (to <= P.[0])%Qc /\ to = vnext (S ci) /\
             (isLast <- (if (Z.of_nat ci =? Z.of_nat (m - 1))%Z then Ok true
                         else y <- vget oob c (S ci) ;;
                              f <- Ok P.[0] ;; Ok (y >=? f)%dbl) ;;
              to <- (if isLast : bool then Ok P.[0] else vget oob c (S ci)) ;;
              Ok to) = Ok to).
  { unfold vnext.
    destruct (Z.eqb_spec (Z.of_nat ci) (Z.of_nat (m - 1))) as [E|E].
    - exists P.[0]. destruct (Nat.ltb_spec (S ci) m); [lia|]. cbn [andb bind].
      repeat split; [assumption|apply Qcle_refl].
    - destruct (Nat.ltb_spec (S ci) m); [|lia]. cbn [andb].
      rewrite (vget_in oob c (S ci) 0%Qc) by lia. cbn [bind].
      dbl_case (P.[0] <=? c.[S ci])%dbl.
      + assert (Hn' : (c.[S ci] <? P.[0])%dbl = false) by now apply Qcltb_ge.
        rewrite Hn'. exists P.[0]. repeat split; [assumption|apply Qcle_refl].
      + assert (Hn' : (c.[S ci] <? P.[0])%dbl = true) by now apply Qcltb_lt.
        rewrite Hn'. exists c.[S ci]. repeat split.
        * apply Hc. lia.
        * now apply Qclt_le_weak. }
  destruct Hto as (to & Hlo & Hhi & Hvn & Hrun).
  exists (mkPiecewise (firstn (S ci) c)
            (segs ret ++
             [seg_portion (seg_at pw 0) ((c.[ci] - P.[0]) * rwidth pw 0)%Qc
                                        ((to - P.[0]) * rwidth pw 0)%Qc])).
  split.
  - destruct (if (Z.of_nat ci =? Z.of_nat (m - 1))%Z then Ok true
              else y <- vget oob c (S ci) ;; f <- Ok P.[0] ;; Ok (y >=? f)%dbl)
      as [isLast|e]; cbn [bind] in *; [|discriminate].
    rewrite Hpush. cbn [bind].
    destruct (if isLast then Ok P.[0] else vget oob c (S ci)) as [to'|e];
      cbn [bind] in *; [|discriminate].
    injection Hrun as ->.
    change 0%Z with (Z.of_nat 0).
    rewrite (elem_portion_at oob pw Hlen 0) by assumption. reflexivity.
  - unfold before_inv. cbn [cuts segs].
    split; [lia|]. split.
    { intros k Hk. destruct (Nat.eq_dec k ci) as [->|]; [assumption|apply Hlt; lia]. }
    split; [reflexivity|].
    rewrite <- Hvn. apply Pieces_snoc; [assumption|].
    rewrite last_firstn by assumption. now apply piece_before.
Qed.

Lemma before_inv_start : before_inv (pw_empty, 0%nat).
Proof.
  unfold before_inv. cbn [cuts segs firstn app].
  split; [lia|]. split; [intros k Hk; lia|]. split; [reflexivity|]. apply Pieces_one.
Qed.

(** Reading [c[c.size()]] goes through, or some cut of [c] is not
    before the domain. *)
Definition read_past_end_harmless : Prop :=
  oob <> None \/ exists k, (k < m)%nat /\ (P.[0] <= c.[k])%Qc.

Hypothesis Hsafe : read_past_end_harmless.

Lemma before_cond_ok ret ci :
  before_inv (ret, ci) ->
  before_cond oob pw c (ret, ci) = Ok ((ci <? m)%nat && (c.[ci] <? P.[0])%dbl).
Proof.
  intros (Hci & Hlt & _).
  destruct (Nat.ltb_spec ci m) as [H|H].
  - now rewrite before_cond_in.
  - unfold before_cond, vfront. rewrite (vget_in oob P 0 0%Qc) by lia.
    destruct Hsafe as [Ho|(k & Hk & Hge)].
    + destruct oob as [j|]; [|congruence].
      rewrite vget_junk by lia. cbn [bind].
      destruct (Nat.ltb_spec ci m); [lia|]. now rewrite andb_false_r.
    + specialize (Hlt k ltac:(lia)). qlra.
Qed.

Lemma before_loop :
  exists ret ci,
    while (S m) (before_cond oob pw c) (before_body oob pw c) (pw_empty, 0%nat)
    = Ok (Continue (ret, ci)) /\
    (ci <= m)%nat /\
    (forall k, (k < ci)%nat -> (c.[k] < P.[0])%Qc) /\
    ((ci < m)%nat -> (P.[0] <= c.[ci])%Qc) /\
    cuts ret = firstn ci c /\
    Pieces pw (firstn ci c ++ [P.[0]]) (segs ret).
Proof.
  destruct (while_rule before_inv (fun _ : Empty_set => False)
              (fun st => (m - snd st)%nat)
              (before_cond oob pw c) (before_body oob pw c)) with
    (fuel := S m) (s := (@pw_empty T, 0%nat)) as (r & Hr & Hpost).
  - (* the body keeps the invariant *)
    intros [ret ci] HI. rewrite (before_cond_ok _ _ HI).
    eexists; split; [reflexivity|]. intros Hb.
    apply andb_true_iff in Hb. destruct Hb as [Hb1 Hb2].
    apply Nat.ltb_lt in Hb1. apply Qcltb_lt in Hb2.
    destruct (before_body_ok ret ci HI Hb1 Hb2) as (ret' & -> & HI').
    eexists; split; [reflexivity|]. split; [assumption|cbn [snd]; lia].
  - apply before_inv_start.
  - cbn [snd]. lia.
  - destruct r as [[ret ci]|[]]. destruct Hpost as [HI Hcond].
    exists ret, ci. split; [assumption|].
    rewrite (before_cond_ok _ _ HI) in Hcond. injection Hcond as Hcond.
    destruct HI as (Hci & Hlt & Hcuts & Hpieces).
    assert (Hge : (ci < m)%nat -> (P.[0] <= c.[ci])%Qc).
    { intros H. apply Nat.ltb_lt in H. rewrite H in Hcond. cbn [andb] in Hcond.
      now apply Qcltb_ge. }
    repeat split; try assumption.
    + unfold vnext in Hpieces. rewrite Hcond in Hpieces. apply Hpieces.
    + unfold vnext in Hpieces. rewrite Hcond in Hpieces. apply Hpieces.
Qed.

(** ** The cuts within the domain *)

Definition within_inv (st : within_state (T := T)) : Prop :=
  let '(ret, prev, si, ci) := st in
  (si <= n)%nat /\ (ci <= m)%nat /\
  Pieces pw (cuts ret) (segs ret) /\
  increasing (cuts ret) /\
  last (cuts ret) 0%Qc = prev /\
  (P.[si] <= prev)%Qc /\
  ((si < n)%nat -> (prev < P.[S si])%Qc) /\
  ((ci < m)%nat -> (prev <= c.[ci])%Qc) /\
  ((ci < m)%nat -> prev = c.[ci] -> prev = P.[si]) /\
  (forall x, In x (cuts ret) <-> In x (firstn (S si) P) \/ In x (firstn ci c)).

(** What the finished partition satisfies. *)
Definition partitioned (r : Piecewise T) : Prop :=
  Pieces pw (cuts r) (segs r) /\
  increasing (cuts r) /\
  (forall x, In x (cuts r) <-> In x P \/ In x c).

(** "Cuts exhausted, straight copy the rest". *)
Lemma copy_rest k : forall si cs ss,
  (si + k = n)%nat ->
  Pieces pw cs ss -> increasing cs -> last cs 0%Qc = P.[si] ->
  Pieces pw (cs ++ skipn (S si) P) (ss ++ skipn si (segs pw)) /\
  increasing (cs ++ skipn (S si) P).
Proof.
  induction k as [|k IH]; intros si cs ss Hk Hp Hi Hl.
  - rewrite !skipn_all2 by (unfold size in *; lia). now rewrite !app_nil_r.
  - rewrite (skipn_cons P (S si) 0%Qc) by lia.
    rewrite (skipn_cons (segs pw) si seg_default) by (unfold size in *; lia).
    change (P.[S si] :: skipn (S (S si)) P) with ([P.[S si]] ++ skipn (S (S si)) P).
    change (nth si (segs pw) seg_default :: skipn (S si) (segs pw))
      with ([seg_at pw si] ++ skipn (S si) (segs pw)).
    rewrite !app_assoc. apply IH.
    + lia.
    + apply Pieces_snoc; [assumption|]. rewrite Hl. apply piece_whole. lia.
    + apply increasing_snoc; [assumption|]. intros d Hne.
      rewrite (last_nth cs d Hne), (nth_indep cs d 0%Qc), <- (last_nth cs 0%Qc Hne), Hl.
      * apply HP. lia.
      * destruct cs; [congruence|cbn; lia].
    + apply last_last.
Qed.

Lemma In_firstn_succ (l : list Qc) i x :
  (i < length l)%nat ->
  In x (firstn (S i) l) <-> In x (firstn i l) \/ x = l.[i].
Proof.
  intros H. rewrite (firstn_succ l i 0%Qc H), in_app_iff. cbn [In].
  intuition congruence.
Qed.

Lemma Pieces_last_in cs ss : Pieces pw cs ss -> In (last cs 0%Qc) cs.
Proof.
  intros [Hl _]. destruct cs as [|x cs]; [discriminate|].
  destruct (exists_last (l := x :: cs) ltac:(discriminate)) as (l' & y & ->).
  rewrite last_last. apply in_or_app. right. now left.
Qed.

Lemma last_lt_all cs ss x :
  Pieces pw cs ss -> (last cs 0%Qc < x)%Qc -> forall d, (last cs d < x)%Qc.
Proof.
  intros [Hl _] H d. destruct cs as [|y cs]; [discriminate|].
  rewrite (last_nth _ d), (nth_indep _ d 0%Qc), <- (last_nth _ 0%Qc);
    [assumption|discriminate|cbn; lia|discriminate].
Qed.

Definition within_measure (st : within_state (T := T)) : nat :=
  let '(_, _, si, ci) := st in ((n - si) + (m - ci))%nat.

Lemma within_step st :
  within_inv st ->
  exists b, within_cond pw c st = Ok b /\
    (b = true ->
     exists r, within_body oob pw c st = Ok r /\
       match r with
       | Continue s' =>
           within_inv s' /\ (within_measure s' < within_measure st)%nat
       | Return r' => partitioned r'
       end).
Proof.
  destruct st as [[[ret prev] si] ci].
  intros (Hsi & Hci & Hpieces & Hinc & Hlast & Hlo & Hhi & Hc1 & Hc2 & Hmem).
  unfold within_cond. eexists; split; [reflexivity|]. intros Hb.
  apply andb_true_iff in Hb. destruct Hb as [Hb1 _].
  apply Nat.ltb_lt in Hb1. specialize (Hhi Hb1).
  unfold within_body.
  rewrite (vget_in oob P si 0%Qc) by lia.
  rewrite (vget_in oob P (si + 1) 0%Qc) by lia.
  rewrite Nat.add_1_r. cbn [bind].
  destruct (Nat.eqb_spec ci m) as [Em|Em].
  - (* every cut of [c] is used up *)
    cbn [bind]. dbl_case (prev <=? P.[si])%dbl; cbn [bind].
    + (* straight copy *)
      assert (prev = P.[si]) as Hp by qlra.
      eexists; split; [reflexivity|]. cbn [cuts segs].
      destruct (copy_rest (n - si) si (cuts ret) (segs ret)) as [Hpc Hic];
        try assumption; [lia|congruence|].
      repeat split; try assumption; try apply Hpc.
      * intros Hx. apply in_app_iff in Hx. destruct Hx as [Hx|Hx].
        -- apply Hmem in Hx. destruct Hx as [Hx|Hx].
           ++ left. rewrite <- (firstn_skipn (S si) P). apply in_or_app. now left.
           ++ right. rewrite <- (firstn_skipn ci c). apply in_or_app. now left.
        -- left. rewrite <- (firstn_skipn (S si) P). apply in_or_app. now right.
      * intros [Hx|Hx].
        -- rewrite <- (firstn_skipn (S si) P) in Hx. apply in_app_iff in Hx.
           apply in_or_app. destruct Hx as [Hx|Hx]; [left|now right].
           apply Hmem. now left.
        -- apply in_or_app. left. apply Hmem. right. subst ci.
           now rewrite firstn_all.
    + (* the segment already has cuts: store its tail *)
      dbl_case (P.[si] <? prev)%dbl; [|qlra].
      rewrite (sget_at pw), (segT_at oob pw Hlen) by assumption. cbn [bind].
      rewrite push_cut_ok.
      2:{ cbn [cuts push_seg]. intros d _.
          apply (last_lt_all _ _ _ Hpieces). now rewrite Hlast. }
      cbn [bind push_seg cuts segs].
      eexists; split; [reflexivity|]. split; [|cbn [within_measure]; lia].
      unfold within_inv. cbn [cuts segs].
      split; [lia|]. split; [lia|]. split.
      { apply Pieces_snoc; [assumption|]. rewrite Hlast.
        now apply piece_tail. }
      split.
      { apply increasing_snoc; [assumption|]. intros d _.
        apply (last_lt_all _ _ _ Hpieces). now rewrite Hlast. }
      split; [apply last_last|]. split; [apply Qcle_refl|]. split.
      { intros H. apply HP. lia. }
      split; [lia|]. split; [lia|].
      intros x. rewrite in_app_iff, (In_firstn_succ P (S si)) by lia.
      rewrite Hmem. cbn [In]. intuition congruence.
  - (* a cut of [c] is left *)
    assert (Hcm : (ci < m)%nat) by lia.
    specialize (Hc1 Hcm). specialize (Hc2 Hcm).
    rewrite (vget_in oob c ci 0%Qc) by lia. cbn [bind].
    dbl_case (P.[S si] <=? c.[ci])%dbl; cbn [bind].
    + (* no more cuts within this segment, finalize *)
      assert (Hfin : exists s,
                 Piece pw prev P.[S si] s /\
                 (if (P.[si] <? prev)%dbl
                  then s0 <- sget (segs pw) (Z.of_nat si) ;;
                       u <- segT oob pw prev (Z.of_nat si) ;;
                       Ok (push_seg ret (seg_portion s0 u 1%Qc))
                  else s0 <- sget (segs pw) (Z.of_nat si) ;; Ok (push_seg ret s0))
                 = Ok (push_seg ret s)).
      { rewrite (sget_at pw), (segT_at oob pw Hlen) by assumption. cbn [bind].
        dbl_case (P.[si] <? prev)%dbl.
        - eexists; split; [|reflexivity]. now apply piece_tail.
        - eexists; split; [|reflexivity].
          assert (prev = P.[si]) as -> by qlra. now apply piece_whole. }
      destruct Hfin as (s & Hs & ->). cbn [bind].
      rewrite push_cut_ok.
      2:{ cbn [cuts push_seg]. intros d _.
          apply (last_lt_all _ _ _ Hpieces). now rewrite Hlast. }
      cbn [bind push_seg cuts segs].
      eexists; split; [reflexivity|]. split; [|cbn [within_measure]; lia].
      unfold within_inv. cbn [cuts segs].
      split; [lia|]. split; [lia|]. split.
      { apply Pieces_snoc; [assumption|]. now rewrite Hlast. }
      split.
      { apply increasing_snoc; [assumption|]. intros d _.
        apply (last_lt_all _ _ _ Hpieces). now rewrite Hlast. }
      split; [apply last_last|]. split; [apply Qcle_refl|]. split.
      { intros H. apply HP. lia. }
      split; [intros _; assumption|]. split; [reflexivity|].
      intros x. rewrite in_app_iff, (In_firstn_succ P (S si)) by lia.
      rewrite Hmem. cbn [In]. intuition congruence.
    + dbl_case (c.[ci] =? P.[si])%dbl.
      * (* coincident *)
        eexists; split; [reflexivity|]. split; [|cbn [within_measure]; lia].
        unfold within_inv.
        assert (Hp : prev = c.[ci]) by qlra.
        split; [lia|]. split; [lia|]. split; [assumption|].
        split; [assumption|]. split; [assumption|]. split; [assumption|].
        split; [intros _; assumption|].
        assert (Hnext : (S ci < m)%nat -> (prev < c.[S ci])%Qc).
        { intros H. rewrite Hp. apply Hc. lia. }
        rewrite Nat.add_1_r.
        split; [intros H; apply Qclt_le_weak; auto|].
        split; [intros H Hq; specialize (Hnext H); qlra|].
        intros x. rewrite (In_firstn_succ c ci) by lia. rewrite Hmem.
        split; [tauto|]. intros [H|[H| ->]]; [tauto..|].
        left. match goal with H : c.[ci] = P.[si] |- _ => rewrite H end.
        apply In_firstn_nth; [lia|]. exists si. split; [lia|reflexivity].
      * (* plain old subdivision *)
        assert (Hp : (prev < c.[ci])%Qc).
        { destruct (Qc_eq_dec prev c.[ci]) as [Hq|Hq]; [|qlra].
          specialize (Hc2 Hq). congruence. }
        rewrite (elem_portion_at oob pw Hlen) by assumption. cbn [bind].
        rewrite push_ok.
        2:{ apply Hpieces. }
        2:{ apply (last_lt_all _ _ _ Hpieces). now rewrite Hlast. }
        cbn [bind]. eexists; split; [reflexivity|]. split; [|cbn [within_measure]; lia].
        unfold within_inv. cbn [cuts segs]. rewrite Nat.add_1_r.
        split; [lia|]. split; [lia|]. split.
        { apply Pieces_snoc; [assumption|]. rewrite Hlast.
          now apply piece_inside. }
        split.
        { apply increasing_snoc; [assumption|]. intros d _.
          apply (last_lt_all _ _ _ Hpieces). now rewrite Hlast. }
        split; [apply last_last|]. split; [qlra|]. split; [intros _; assumption|].
        assert (Hnext : (S ci < m)%nat -> (c.[ci] < c.[S ci])%Qc).
        { intros H. apply Hc. lia. }
        split; [intros H; apply Qclt_le_weak; auto|].
        split; [intros H Hq; specialize (Hnext H); qlra|].
        intros x. rewrite in_app_iff, (In_firstn_succ c ci) by lia.
        rewrite Hmem. cbn [In]. intuition congruence.
Qed.

(** ** The cuts after the domain *)

Definition after_inv (st : Piecewise T * Qc * nat) : Prop :=
  let '(ret, prev, ci) := st in
  (ci <= m)%nat /\
  Pieces pw (cuts ret) (segs ret) /\
  increasing (cuts ret) /\
  last (cuts ret) 0%Qc = prev /\
  (P.[n] <= prev)%Qc /\
  ((ci < m)%nat -> (prev <= c.[ci])%Qc) /\
  (forall x, In x (cuts ret) <-> In x P \/ In x (firstn ci c)).

Definition after_measure (st : Piecewise T * Qc * nat) : nat :=
  let '(_, _, ci) := st in (m - ci)%nat.

Lemma after_step st :
  after_inv st ->
  exists b, after_cond c st = Ok b /\
    (b = true ->
     exists r, after_body oob pw c st = Ok r /\
       match r with
       | Continue s' => after_inv s' /\ (after_measure s' < after_measure st)%nat
       | Return r' => False
       end).
Proof.
  destruct st as [[ret prev] ci].
  intros (Hci & Hpieces & Hinc & Hlast & Hlo & Hc1 & Hmem).
  unfold after_cond. eexists; split; [reflexivity|]. intros Hb.
  apply Nat.ltb_lt in Hb. specialize (Hc1 Hb).
  unfold after_body. rewrite (vget_in oob c ci 0%Qc) by lia. cbn [bind].
  assert (Hnext : (S ci < m)%nat -> (c.[ci] < c.[S ci])%Qc).
  { intros H. apply Hc. lia. }
  rewrite Nat.add_1_r.
  dbl_case (prev <? c.[ci])%dbl.
  - rewrite usub1_pos by assumption.
    rewrite (elem_portion_at oob pw Hlen) by lia. cbn [bind].
    rewrite push_ok.
    2:{ apply Hpieces. }
    2:{ apply (last_lt_all _ _ _ Hpieces). now rewrite Hlast. }
    cbn [bind]. eexists; split; [reflexivity|].
    split; [|cbn [after_measure]; lia].
    unfold after_inv. cbn [cuts segs].
    split; [lia|]. split.
    { apply Pieces_snoc; [assumption|]. rewrite Hlast.
      exact (piece_after pw prev c.[ci] Hlo E). }
    split.
    { apply increasing_snoc; [assumption|]. intros d _.
      apply (last_lt_all _ _ _ Hpieces). now rewrite Hlast. }
    split; [apply last_last|]. split; [qlra|].
    split; [intros H; apply Qclt_le_weak; auto|].
    intros x. rewrite in_app_iff, (In_firstn_succ c ci) by lia.
    rewrite Hmem. cbn [In]. intuition congruence.
  - eexists; split; [reflexivity|].
    split; [|cbn [after_measure]; lia].
    assert (Hp : prev = c.[ci]) by qlra.
    unfold after_inv.
    split; [lia|]. split; [assumption|]. split; [assumption|].
    split; [assumption|]. split; [assumption|].
    split; [intros H; specialize (Hnext H); qlra|].
    intros x. rewrite (In_firstn_succ c ci) by lia. rewrite Hmem.
    split; [tauto|]. intros [H|[H| ->]]; [tauto..|].
    rewrite <- Hp, <- Hlast. apply Hmem. eapply Pieces_last_in; eassumption.
Qed.

(** ** The whole of [partition] *)

Theorem partition_spec :
  exists r, partition oob pw c = Ok r /\ partitioned r.
Proof.
  assert (He : empty pw = false).
  { unfold empty. unfold size in Hn. destruct (segs pw); [cbn in Hn; lia|reflexivity]. }
  assert (Hunfold : partition oob pw c = partition_loops oob pw c).
  { unfold partition. rewrite He. clear - Hm. destruct c; [cbn in Hm; lia|reflexivity]. }
  rewrite Hunfold. unfold partition_loops.
  destruct before_loop as (ret1 & ci1 & -> & Hci1 & Hlt1 & Hge1 & Hcuts1 & Hp1).
  cbn [bind]. rewrite (vget_in oob P 0 0%Qc) by lia. cbn [bind].
  rewrite push_cut_ok.
  2:{ intros d Hne. rewrite Hcuts1 in *. destruct ci1 as [|ci1]; [now cbn in Hne|].
      rewrite last_firstn by lia. rewrite (nth_indep c d 0%Qc) by lia.
      apply Hlt1. lia. }
  cbn [bind].
  assert (Hinc1 : increasing (cuts ret1 ++ [P.[0]])).
  { rewrite Hcuts1. apply increasing_snoc.
    - rewrite <- (firstn_skipn ci1 c) in Hc. eapply increasing_app_inv; eassumption.
    - intros d Hne. destruct ci1 as [|ci1]; [now cbn in Hne|].
      rewrite last_firstn by lia. rewrite (nth_indep c d 0%Qc) by lia.
      apply Hlt1. lia. }
  destruct (while_rule within_inv partitioned within_measure
              (within_cond pw c) (within_body oob pw c) within_step)
    with (fuel := S (n + m))
         (s := (mkPiecewise (cuts ret1 ++ [P.[0]]) (segs ret1), P.[0], 0%nat, ci1))
    as (r2 & -> & Hpost2).
  { unfold within_inv. cbn [cuts segs].
    split; [lia|]. split; [assumption|]. split; [now rewrite Hcuts1|].
    split; [assumption|]. split; [apply last_last|]. split; [apply Qcle_refl|].
    split; [intros _; apply HP; lia|]. split; [assumption|]. split; [reflexivity|].
    intros x. rewrite in_app_iff, Hcuts1.
    rewrite (firstn_succ P 0 0%Qc) by lia. cbn [firstn app In]. tauto. }
  { cbn [within_measure]. lia. }
  cbn [bind]. destruct r2 as [[[[ret2 prev2] si2] ci2]|r2].
  2:{ exists r2. split; [reflexivity|assumption]. }
  destruct Hpost2 as [HI2 Hcond2].
  destruct HI2 as (Hsi2 & Hci2 & Hpieces2 & Hinc2 & Hlast2 & Hlo2 & Hhi2 & Hc12 & Hc22 & Hmem2).
  unfold within_cond in Hcond2. injection Hcond2 as Hcond2.
  apply andb_false_iff in Hcond2.
  assert (si2 = n) as ->.
  { destruct Hcond2 as [H|H]; [apply Nat.ltb_ge in H|apply Nat.leb_gt in H]; lia. }
  destruct (while_rule after_inv (fun _ : Empty_set => False) after_measure
              (after_cond c) (after_body oob pw c) after_step)
    with (fuel := S m) (s := (ret2, prev2, ci2)) as (r3 & -> & Hpost3).
  { unfold after_inv. repeat split; try assumption; try apply Hpieces2.
    - intros Hx. apply Hmem2 in Hx. rewrite <- Hlen, firstn_all in Hx. exact Hx.
    - intros Hx. apply Hmem2. rewrite <- Hlen, firstn_all. exact Hx. }
  { cbn [after_measure]. lia. }
  cbn [bind]. destruct r3 as [[[ret3 prev3] ci3]|[]].
  destruct Hpost3 as [HI3 Hcond3].
  destruct HI3 as (Hci3 & Hpieces3 & Hinc3 & Hlast3 & Hlo3 & Hc13 & Hmem3).
  unfold after_cond in Hcond3. injection Hcond3 as Hcond3.
  apply Nat.ltb_ge in Hcond3. assert (ci3 = m) as -> by lia.
  exists ret3. split; [reflexivity|].
  split; [assumption|]. split; [assumption|].
  intros x. rewrite Hmem3, firstn_all. reflexivity.
Qed.
End PartitionFacts.

(* ================================================================== *)
(** * Properties of [partition] *)
(* ================================================================== *)

Section PartitionProperties.
Context {T : Type} {F : Fragment T}.
Implicit Types (a b f pw : Piecewise T).

Lemma nonempty_size pw : empty pw = false -> (0 < size pw)%nat.
Proof.
  unfold empty, size. destruct (segs pw); [discriminate|cbn; lia].
Qed.

Lemma well_formed_length pw :
  well_formed pw -> empty pw = false -> length (cuts pw) = S (size pw).
Proof.
  intros [[H|[H _]] _] He; [exact H|].
  unfold empty in He. now rewrite H in He.
Qed.

(** A well-formed container that has segments. *)
Definition proper (oob : option Qc) pw : Prop :=
  empty pw = false /\ invariants oob pw = Ok true.

Lemma proper_inv oob pw :
  proper oob pw ->
  length (cuts pw) = S (size pw) /\ (0 < size pw)%nat /\ increasing (cuts pw).
Proof.
  intros [He Hi]. apply invariants_true in Hi.
  split; [now apply well_formed_length|]. split; [now apply nonempty_size|apply Hi].
Qed.

Lemma increasing_index_le l i j :
  increasing l -> (i < length l)%nat -> (j < length l)%nat ->
  (l.[i] <= l.[j])%Qc -> (i <= j)%nat.
Proof.
  intros Hl Hi Hj H. destruct (Nat.le_gt_cases i j) as [|Hgt]; [assumption|].
  assert (l.[j] < l.[i])%Qc by (apply increasing_lt; [assumption|lia]). qlra.
Qed.

(** Between two neighbouring cuts of [pw] the only piece is the
    segment itself. *)
Lemma Piece_between_cuts pw j s :
  length (cuts pw) = S (size pw) -> increasing (cuts pw) -> (j < size pw)%nat ->
  Piece pw (cuts pw).[j] (cuts pw).[S j] s -> s = seg_at pw j.
Proof.
  intros Hlen HP Hj Hp.
  remember (cuts pw).[j] as lo eqn:Elo. remember (cuts pw).[S j] as hi eqn:Ehi.
  destruct Hp as [i Hi|i lo Hi H1 H2|lo hi H1 H2|i lo hi Hi H1 H2 H3|lo hi H1 H2].
  - apply increasing_inj in Elo; [now subst|assumption|lia..].
  - apply increasing_inj in Ehi; [|assumption|lia..].
    assert (i = j) by lia. subst. qlra.
  - subst. assert ((cuts pw).[0] < (cuts pw).[S j])%Qc
      by (apply increasing_lt; [assumption|lia]). qlra.
  - subst.
    assert (i <= j)%nat by (eapply increasing_index_le; try eassumption; lia).
    destruct (Nat.eq_dec i j) as [->|]; [qlra|].
    assert ((cuts pw).[S i] <= (cuts pw).[S j])%Qc
      by (apply increasing_le; [assumption|lia]). qlra.
  - subst. assert ((cuts pw).[j] < (cuts pw).[size pw])%Qc
      by (apply increasing_lt; [assumption|lia]). qlra.
Qed.

(** C5 -- refining a function by its own cuts is a no-op: for a
    non-empty [f] that satisfies the invariants, [partition(f, f.cuts)]
    returns [f] itself, with the same cuts and the same segments. *)
Theorem partition_own_cuts :
  forall (oob : option Qc) f,
    empty f = false -> invariants oob f = Ok true ->
    partition oob f (cuts f) = Ok f.
Proof.
  intros oob f He Hi.
  destruct (proper_inv oob f (conj He Hi)) as (Hlen & Hn & HP).
  destruct (partition_spec oob f (cuts f) Hlen Hn HP HP) as (r & -> & Hp & Hinc & Hmem).
  - lia.
  - right. exists 0%nat. split; [lia|apply Qcle_refl].
  - f_equal.
    assert (Hcuts : cuts r = cuts f).
    { apply increasing_ext; [assumption..|]. intros x. rewrite Hmem. tauto. }
    destruct Hp as [Hl Hpieces]. rewrite Hcuts in *.
    assert (Hsegs : segs r = segs f).
    { apply (nth_ext _ _ seg_default seg_default); [unfold size in Hlen; lia|].
      intros j Hj. apply Piece_between_cuts; try assumption.
      - unfold size in *. lia.
      - now apply Hpieces. }
    destruct r, f. cbn in *. congruence.
Qed.

(** The cuts of a partition are the cuts of the function and the extra
    cuts, in increasing order; so both orders of refinement agree. *)
Lemma partition_cuts_agree oob a b :
  proper oob a -> proper oob b ->
  read_past_end_harmless oob a (cuts b) ->
  read_past_end_harmless oob b (cuts a) ->
  exists pa pb,
    partition oob a (cuts b) = Ok pa /\ partition oob b (cuts a) = Ok pb /\
    cuts pa = cuts pb /\ partitioned a (cuts b) pa /\ partitioned b (cuts a) pb.
Proof.
  intros Ha Hb Hsa Hsb.
  destruct (proper_inv oob a Ha) as (Hla & Hna & HPa).
  destruct (proper_inv oob b Hb) as (Hlb & Hnb & HPb).
  destruct (partition_spec oob a (cuts b) Hla Hna HPa HPb) as (ra & Hra & Hpa);
    [lia|assumption|].
  destruct (partition_spec oob b (cuts a) Hlb Hnb HPb HPa) as (rb & Hrb & Hpb);
    [lia|assumption|].
  exists ra, rb. repeat split; try assumption; try apply Hpa; try apply Hpb.
  destruct Hpa as (_ & Hia & Hma). destruct Hpb as (_ & Hib & Hmb).
  apply increasing_ext; [assumption..|].
  intros x. rewrite Hma, Hmb. tauto.
Qed.

End PartitionProperties.

Section PartitionBounds.
Context {T : Type} {F : Fragment T}.

(** C10 -- [partition] reads [c[ci]] out of bounds.  For a non-empty
    [pw] that satisfies the invariants and non-empty increasing extra
    cuts [c] that all lie before the domain of [pw], the first loop
    consumes every cut of [c] and its test then reads [c[c.size()]],
    before comparing [ci] with [c.size()]: when such a read faults, the
    call ends in that fault. *)
Theorem partition_reads_past_end :
  forall (pw : Piecewise T) (c : list Qc),
    empty pw = false -> invariants None pw = Ok true ->
    c <> [] -> increasing c ->
    (forall x, In x c -> (x < (cuts pw).[0])%Qc) ->
    partition None pw c = Fault OutOfRange.
Proof.
  intros pw c He Hi Hne Hc Hall.
  destruct (proper_inv None pw (conj He Hi)) as (Hlen & Hn & HP).
  assert (Hm : (0 < length c)%nat) by (destruct c; [congruence|cbn; lia]).
  assert (Hunfold : partition None pw c = partition_loops None pw c).
  { unfold partition. rewrite He. destruct c; [congruence|reflexivity]. }
  rewrite Hunfold. unfold partition_loops.
  rewrite (while_fault_rule (before_inv pw c) (fun st => (length c - snd st)%nat)
             OutOfRange); [reflexivity| |now apply before_inv_start|cbn [snd]; lia].
  intros [ret ci] HI.
  assert (Hci : (ci <= length c)%nat) by apply HI.
  destruct (Nat.eq_dec ci (length c)) as [->|Hlt].
  - left. unfold before_cond. now rewrite vget_trap.
  - right. assert (Hin : (c.[ci] < (cuts pw).[0])%Qc) by (apply Hall, nth_In; lia).
    rewrite (before_cond_in None pw c Hlen Hn Hm) by lia.
    apply Qcltb_lt in Hin. rewrite Hin. apply Qcltb_lt in Hin.
    split; [reflexivity|].
    destruct (before_body_ok None pw c Hlen Hn Hc Hm ret ci HI) as (ret' & Hb & HI');
      [lia|assumption|].
    exists (ret', S ci). split; [assumption|]. split; [assumption|cbn [snd]; lia].
Qed.
End PartitionBounds.

Lemma partition_reads_past_end_witness :
  partition None ex_a [q (-1) 1] = Fault OutOfRange.
Proof.
  apply (partition_reads_past_end ex_a [q (-1) 1]).
  - reflexivity.
  - reflexivity.
  - discriminate.
  - apply increasing_one.
  - intros x [<-|[]]. apply Qcltb_lt. reflexivity.
Defined.

Lemma partition_own_cuts_witness :
  partition None ex_b (cuts ex_b) = Ok ex_b.
Proof.
  apply (partition_own_cuts None ex_b); reflexivity.
Defined.

(* ================================================================== *)
(** * Mutual refinement of functions with disjoint domains *)
(* ================================================================== *)

Section PartitionMutual.
Context {T : Type} {F : Fragment T}.
Implicit Types (a b pw : Piecewise T).

(** The first loop of [partition] when every extra cut lies before the
    domain: it consumes them all, and its test then reads [c[c.size()]]. *)
Lemma first_loop_runs_off pw (c : list Qc) :
  length (cuts pw) = S (size pw) -> (0 < size pw)%nat -> increasing (cuts pw) ->
  increasing c -> (0 < length c)%nat ->
  (forall x, In x c -> x < (cuts pw).[0]) ->
  partition_loops None pw c = Fault OutOfRange.
Proof.
  intros Hlen Hn HP Hc Hm Hall. unfold partition_loops.
  rewrite (while_fault_rule (before_inv pw c) (fun st => (length c - snd st)%nat)
             OutOfRange); [reflexivity| |now apply before_inv_start|cbn [snd]; lia].
  intros [ret ci] HI.
  assert (Hci : (ci <= length c)%nat) by apply HI.
  destruct (Nat.eq_dec ci (length c)) as [->|Hlt].
  - left. unfold before_cond. now rewrite vget_trap.
  - right. assert (Hin : c.[ci] < (cuts pw).[0]) by (apply Hall, nth_In; lia).
    rewrite (before_cond_in None pw c Hlen Hn Hm) by lia.
    apply Qcltb_lt in Hin. rewrite Hin. apply Qcltb_lt in Hin.
    split; [reflexivity|].
    destruct (before_body_ok None pw c Hlen Hn Hc Hm ret ci HI) as (ret' & Hb & HI');
      [lia|assumption|].
    exists (ret', S ci). split; [assumption|]. split; [assumption|cbn [snd]; lia].
Qed.

(** C4 -- mutual refinement does not yield identical cut sequences for
    every pair.  Take non-empty [a] and [b] that satisfy the
    invariants, with [b] wholly before [a]: the last cut of [b] is
    before the first cut of [a].  Then [partition(b, a.cuts)] returns,
    and its cuts are the cuts of both functions in increasing order;
    but in [partition(a, b.cuts)] the first loop consumes every cut of
    [b] and its test then reads [c[c.size()]] before it compares [ci]
    with [c.size()] (the defect of C10): the call ends in that
    out-of-range access and yields no cut sequence to compare.  (Where
    some cut of each function is not before the domain of the other,
    both calls return the same cuts: [partition_cuts_agree].) *)
Theorem partition_cuts_mutual_faults :
  forall a b,
    empty a = false -> invariants None a = Ok true ->
    empty b = false -> invariants None b = Ok true ->
    (cuts b).[size b] < (cuts a).[0] ->
    partition None a (cuts b) = Fault OutOfRange /\
    exists pb,
      partition None b (cuts a) = Ok pb /\
      increasing (cuts pb) /\
      (forall x, In x (cuts pb) <-> In x (cuts b) \/ In x (cuts a)).
Proof.
  intros a b Ea Ia Eb Ib Hbefore.
  destruct (proper_inv None a (conj Ea Ia)) as (Hla & Hna & HPa).
  destruct (proper_inv None b (conj Eb Ib)) as (Hlb & Hnb & HPb).
  split.
  - assert (Hunfold : partition None a (cuts b) = partition_loops None a (cuts b)).
    { unfold partition. rewrite Ea. destruct (cuts b); [discriminate|reflexivity]. }
    rewrite Hunfold. apply first_loop_runs_off; try assumption; [lia|].
    intros x Hx. destruct (In_nth (cuts b) x 0 Hx) as (k & Hk & <-).
    assert ((cuts b).[k] <= (cuts b).[size b]) by (apply increasing_le; [assumption|lia]).
    qlra.
  - destruct (partition_spec None b (cuts a) Hlb Hnb HPb HPa) as (pb & Hpb & Hp).
    + lia.
    + right. exists 0%nat. split; [lia|].
      assert ((cuts b).[0] <= (cuts b).[size b]) by (apply increasing_le; [assumption|lia]).
      qlra.
    + exists pb. split; [exact Hpb|]. destruct Hp as (_ & Hinc & Hmem).
      split; [exact Hinc|exact Hmem].
Qed.
End PartitionMutual.

Lemma partition_cuts_mutual_faults_witness :
  partition None ex_a (cuts ex_b) = Fault OutOfRange /\
  exists pb,
    partition None ex_b (cuts ex_a) = Ok pb /\
    increasing (cuts pb) /\
    (forall x, In x (cuts pb) <-> In x (cuts ex_b) \/ In x (cuts ex_a)).
Proof.
  apply (partition_cuts_mutual_faults ex_a ex_b); reflexivity.
Defined.

(* ================================================================== *)
(** * The binary search of [segN], and evaluation *)
(* ================================================================== *)

Section SegN.
Context {T : Type} {F : Fragment T}.
Variable oob : option Qc.
Variable pw : Piecewise T.

Local Abbreviation P := (cuts pw).
Local Abbreviation n := (size pw).

Hypothesis Hlen : length P = S n.
Hypothesis Hn : (0 < n)%nat.
Hypothesis HP : increasing P.

(** Segment [i] owns time [t]: [t] lies in [cuts[i], cuts[i+1]), or
    before the domain with [i] first, or after it with [i] last. *)
Definition owns (i : nat) (t : Qc) : Prop :=
  (i < n)%nat /\
  ((t < P.[0])%Qc /\ i = 0%nat \/
   (P.[n] <= t)%Qc /\ i = (n - 1)%nat \/
   (P.[i] <= t)%Qc /\ (t < P.[S i])%Qc).

Lemma owns_unique i j t : owns i t -> owns j t -> i = j.
Proof.
  intros [Hi Ho] [Hj Hq].
  assert (H0 : forall k, (k <= n)%nat -> (P.[0] <= P.[k])%Qc)
    by (intros; apply increasing_le; [assumption|lia]).
  assert (Hl : forall k, (k <= n)%nat -> (P.[k] <= P.[n])%Qc)
    by (intros; apply increasing_le; [assumption|lia]).
  destruct Ho as [[H1 ->]|[[H1 ->]|[H1 H2]]], Hq as [[H3 ->]|[[H3 ->]|[H3 H4]]];
    try reflexivity;
    try (pose proof (H0 n ltac:(lia)); qlra);
    try (pose proof (H0 j ltac:(lia)); qlra);
    try (pose proof (H0 i ltac:(lia)); qlra);
    try (pose proof (Hl (S j) ltac:(lia)); qlra);
    try (pose proof (Hl (S i) ltac:(lia)); qlra).
  destruct (Nat.lt_trichotomy i j) as [H|[H|H]]; [|assumption|].
  - assert (P.[S i] <= P.[j])%Qc by (apply increasing_le; [assumption|lia]). qlra.
  - assert (P.[S j] <= P.[i])%Qc by (apply increasing_le; [assumption|lia]). qlra.
Qed.

Definition segN_inv (t : Qc) (st : Z * Z) : Prop :=
  let '(low, high) := st in
  (0 <= low <= high)%Z /\ (high <= Z.of_nat n)%Z /\
  (P.[Z.to_nat low] <= t)%Qc /\ (t <= P.[Z.to_nat high])%Qc /\
  (high = Z.of_nat n -> (t < P.[n])%Qc).

Definition segN_post (t : Qc) (i : Z) : Prop :=
  (0 <= i < Z.of_nat n)%Z /\
  (P.[Z.to_nat i] <= t)%Qc /\ (t < P.[S (Z.to_nat i)])%Qc.

Lemma segN_step t st :
  segN_inv t st ->
  exists b, segN_cond st = Ok b /\
    (b = true ->
     exists r, segN_body oob pw t st = Ok r /\
       match r with
       | Continue s' =>
           segN_inv t s' /\
           (Z.to_nat (snd s' - fst s') < Z.to_nat (snd st - fst st))%nat
       | Return i => segN_post t i
       end).
Proof.
  destruct st as [low high]. intros (Hlow & Hhigh & Hl & Hh & Hend).
  unfold segN_cond. eexists; split; [reflexivity|]. intros Hb.
  apply Z.ltb_lt in Hb. unfold segN_body.
  rewrite Z.quot_div_nonneg by lia.
  set (mid := ((high + low) / 2)%Z).
  assert (Hmid : (low <= mid < high)%Z).
  { unfold mid. split; [apply Z.div_le_lower_bound; lia|apply Z.div_lt_upper_bound; lia]. }
  rewrite (vgetZ_in' oob P mid 0%Qc) by lia. cbn [bind].
  assert (Hmono : forall i j : Z, (0 <= i < j)%Z -> (j <= Z.of_nat n)%Z ->
                    (P.[Z.to_nat i] < P.[Z.to_nat j])%Qc).
  { intros i j Hij Hj. apply increasing_lt; [assumption|lia]. }
  dbl_case (P.[Z.to_nat mid] <? t)%dbl.
  - rewrite (vgetZ_in' oob P (mid + 1) 0%Qc) by lia. cbn [bind].
    dbl_case (t <? P.[Z.to_nat (mid + 1)])%dbl.
    + eexists; split; [reflexivity|]. unfold segN_post.
      replace (S (Z.to_nat mid)) with (Z.to_nat (mid + 1)) by lia.
      repeat split; try lia; try assumption. now apply Qclt_le_weak.
    + eexists; split; [reflexivity|]. split; [|cbn [fst snd]; lia].
      unfold segN_inv. repeat split; try lia; assumption.
  - dbl_case (t <? P.[Z.to_nat mid])%dbl.
    + assert (low < mid)%Z.
      { destruct (Z.eq_dec low mid) as [Elm|]; [rewrite Elm in Hl; qlra|lia]. }
      rewrite (vgetZ_in' oob P (mid - 1) 0%Qc) by lia. cbn [bind].
      dbl_case (P.[Z.to_nat (mid - 1)] <? t)%dbl.
      * eexists; split; [reflexivity|]. unfold segN_post.
        replace (S (Z.to_nat (mid - 1))) with (Z.to_nat mid) by lia.
        repeat split; try lia; try assumption. now apply Qclt_le_weak.
      * eexists; split; [reflexivity|]. split; [|cbn [fst snd]; lia].
        unfold segN_inv. repeat split; try lia; assumption.
    + eexists; split; [reflexivity|]. unfold segN_post.
      assert (t = P.[Z.to_nat mid]) as -> by qlra.
      replace (S (Z.to_nat mid)) with (Z.to_nat (mid + 1)) by lia.
      repeat split; try lia; [apply Qcle_refl|]. apply Hmono; lia.
Qed.

(** [segN(t, low)] finds the segment that owns [t], provided the search
    starts at or below it. *)
Lemma segN_owner t (low : nat) :
  (low < n)%nat -> (low = 0%nat \/ (P.[low] <= t)%Qc) ->
  exists i, segN oob pw t (Z.of_nat low) (-1) = Ok (Z.of_nat i) /\ owns i t /\
            ((P.[low] <= t)%Qc -> (low <= i)%nat).
Proof.
  intros Hlow Hstart. unfold segN. change (-1 =? -1)%Z with true. cbv iota.
  rewrite (vget_in oob P 0 0%Qc) by lia. cbn [bind].
  dbl_case (t <? P.[0])%dbl.
  { exists 0%nat. split; [reflexivity|]. split; [split; [lia|left; auto]|].
    intros H. assert (P.[0] <= P.[low])%Qc by (apply increasing_le; [assumption|lia]).
    qlra. }
  rewrite (vget_in oob P n 0%Qc) by lia. cbn [bind].
  dbl_case (P.[n] <=? t)%dbl.
  { exists (n - 1)%nat. rewrite usub1_pos by assumption.
    split; [reflexivity|]. split; [split; [lia|right; left; auto]|]. lia. }
  destruct (while_rule (segN_inv t) (segN_post t)
              (fun st => Z.to_nat (snd st - fst st))
              segN_cond (segN_body oob pw t) (segN_step t))
    with (fuel := S (Z.to_nat (Z.of_nat n - Z.of_nat low)))
         (s := (Z.of_nat low, Z.of_nat n)) as (r & -> & Hpost).
  { unfold segN_inv. rewrite !Nat2Z.id. repeat split; try lia.
    - destruct Hstart as [->|]; assumption.
    - now apply Qclt_le_weak.
    - intros _. assumption. }
  { cbn [fst snd]. lia. }
  cbn [bind]. destruct r as [[lo hi]|i].
  - destruct Hpost as [(Hlo & Hhi & Hl & Hh & Hend) Hc].
    unfold segN_cond in Hc. injection Hc as Hc. apply Z.ltb_ge in Hc.
    assert (hi = lo) as -> by lia.
    assert (Heq : t = P.[Z.to_nat lo]) by qlra.
    assert (Hlt : (lo < Z.of_nat n)%Z).
    { destruct (Z.eq_dec lo (Z.of_nat n)) as [Eln|]; [|lia].
      specialize (Hend Eln). rewrite Eln, Nat2Z.id in Heq. qlra. }
    exists (Z.to_nat lo). rewrite Z2Nat.id by lia. split; [reflexivity|].
    split.
    + split; [lia|]. right; right. split; [assumption|].
      rewrite Heq. apply HP. lia.
    + intros H. apply (increasing_index_le P); [assumption|lia..|]. now rewrite <- Heq.
  - destruct Hpost as (Hi & Hl & Hh).
    exists (Z.to_nat i). rewrite Z2Nat.id by lia. split; [reflexivity|].
    split; [split; [lia|right; right; auto]|].
    intros H. destruct (Nat.le_gt_cases low (Z.to_nat i)) as [|Hgt]; [assumption|].
    assert (P.[S (Z.to_nat i)] <= P.[low])%Qc by (apply increasing_le; [assumption|lia]).
    qlra.
Qed.

(** The local time of [t] in segment [i]. *)
Definition local (i : nat) (t : Qc) : Qc := ((t - P.[i]) / (P.[S i] - P.[i]))%Qc.

Lemma segT_local t i :
  (i < n)%nat -> segT oob pw t (Z.of_nat i) = Ok (local i t).
Proof. intros Hi. unfold local. now apply segT_at. Qed.

(** Evaluation: the owning segment at the local time. *)
Lemma valueAt_owner t i :
  owns i t -> valueAt oob pw t = Ok (eval (seg_at pw i) (local i t)).
Proof.
  intros Ho. unfold valueAt.
  destruct (segN_owner t 0 Hn (or_introl eq_refl)) as (j & Hj & Hoj & _).
  change (Z.of_nat 0) with 0%Z in Hj. rewrite Hj. cbn [bind].
  assert (j = i) as -> by (eapply owns_unique; eassumption).
  destruct Ho as [Hi _].
  unfold sget. rewrite (vgetZ_in None (segs pw) i seg_default) by (unfold size in Hi; lia).
  cbn [bind]. rewrite segT_local by assumption. reflexivity.
Qed.

Lemma owns_exists t : exists i, owns i t.
Proof.
  destruct (segN_owner t 0 Hn (or_introl eq_refl)) as (j & _ & Hoj & _). eauto.
Qed.
End SegN.

(* ================================================================== *)
(** * Refinements evaluate like the function they refine *)
(* ================================================================== *)

Section Refinement.
Context {T : Type} {F : Fragment T} {L : FragmentLaws T}.
Variable oob : option Qc.
Variable f : Piecewise T.

Local Abbreviation P := (cuts f).
Local Abbreviation n := (size f).

Hypothesis Hlen : length P = S n.
Hypothesis Hn : (0 < n)%nat.
Hypothesis HP : increasing P.

(** The segment [s], laid over [lo, hi], is some segment [i] of [f]
    seen through that window, and [i] owns every time of the window
    (its right end included when [closed]). *)
Definition Covers (lo hi : Qc) (s : T) (closed : bool) : Prop :=
  exists i,
    (forall u, eval s u = eval (seg_at f i) (local f i (lo + u * (hi - lo))%Qc)) /\
    (forall t, (lo <= t)%Qc -> (t < hi)%Qc \/ (closed = true /\ t = hi) -> owns f i t).

Lemma width_pos i : (i < n)%nat -> (0 < P.[S i] - P.[i])%Qc.
Proof. intros Hi. assert (P.[i] < P.[S i])%Qc by (apply HP; lia). qlra. Qed.

Lemma owns_inside i t :
  (i < n)%nat -> (P.[i] <= t)%Qc -> (t < P.[S i])%Qc -> owns f i t.
Proof. intros. split; [assumption|]. right; right. split; assumption. Qed.

Lemma owns_before t : (t < P.[0])%Qc -> owns f 0 t.
Proof. intros. split; [assumption|]. left. split; [assumption|reflexivity]. Qed.

Lemma owns_after t : (P.[n] <= t)%Qc -> owns f (n - 1) t.
Proof. intros. split; [lia|]. right; left. split; [assumption|reflexivity]. Qed.

Lemma owns_first t : (t < P.[1])%Qc -> owns f 0 t.
Proof.
  intros H. destruct (Qclt_le_dec t P.[0]); [now apply owns_before|].
  now apply owns_inside.
Qed.

Lemma owns_last t : (P.[n - 1] <= t)%Qc -> owns f (n - 1) t.
Proof.
  intros H. destruct (Qclt_le_dec t P.[n]); [|now apply owns_after].
  apply owns_inside; [lia|assumption|]. now replace (S (n - 1)) with n by lia.
Qed.

(** Every piece built by [partition] covers its interval. *)
Lemma Piece_covers lo hi s closed :
  Piece f lo hi s -> (closed = true -> (P.[n] <= hi)%Qc) -> Covers lo hi s closed.
Proof.
  intros Hp Hcl.
  destruct Hp as [i Hi|i lo Hi H1 H2|lo hi H1 H2|i lo hi Hi H1 H2 H3|lo hi H1 H2].
  - exists i. split.
    + intros u. f_equal. unfold local. pose proof (width_pos i Hi).
      field. qlra.
    + intros t Ht [Hlt|[Hc ->]]; [now apply owns_inside|].
      specialize (Hcl Hc).
      assert (S i = n).
      { apply Nat.le_antisymm; [lia|].
        apply (increasing_index_le P); [assumption|lia..|assumption]. }
      assert (Ei : i = (n - 1)%nat) by lia.
      rewrite Ei at 1. now apply owns_after.
  - exists i. split.
    + intros u. rewrite eval_portion. f_equal. unfold local.
      pose proof (width_pos i Hi). field. qlra.
    + intros t Ht [Hlt|[Hc ->]].
      * apply owns_inside; [assumption|qlra|assumption].
      * specialize (Hcl Hc).
        assert (S i = n).
        { apply Nat.le_antisymm; [lia|].
          apply (increasing_index_le P); [assumption|lia..|assumption]. }
        assert (Ei : i = (n - 1)%nat) by lia.
      rewrite Ei at 1. now apply owns_after.
  - exists 0%nat. split.
    + intros u. rewrite eval_portion. f_equal. unfold local, rwidth.
      pose proof (width_pos 0 Hn). field. qlra.
    + intros t Ht [Hlt|[Hc ->]].
      * apply owns_before. qlra.
      * specialize (Hcl Hc).
        assert (P.[0] < P.[n])%Qc by (apply increasing_lt; [assumption|lia]). qlra.
  - exists i. split.
    + intros u. rewrite eval_portion. f_equal. unfold local, rwidth.
      pose proof (width_pos i Hi). field. qlra.
    + intros t Ht [Hlt|[Hc ->]].
      * apply owns_inside; [assumption|qlra|qlra].
      * now apply owns_inside; [|qlra|].
  - exists (n - 1)%nat. split.
    + intros u. rewrite eval_portion. f_equal. unfold local, rwidth.
      pose proof (width_pos (n - 1) ltac:(lia)). field. qlra.
    + intros t Ht _. apply owns_after. qlra.
Qed.

(** A container [r] all of whose segments cover their intervals takes
    the values of [f] on the whole of its domain. *)
Lemma covered_valueAt (r : Piecewise T) t :
  length (cuts r) = S (size r) -> (0 < size r)%nat -> increasing (cuts r) ->
  (forall k, (k < size r)%nat ->
     Covers (cuts r).[k] (cuts r).[S k] (seg_at r k) (k =? size r - 1)%nat) ->
  ((cuts r).[0] <= t)%Qc -> (t <= (cuts r).[size r])%Qc ->
  exists v, valueAt oob r t = Ok v /\ valueAt oob f t = Ok v.
Proof.
  intros Hrl Hrn Hri Hcov Hlo Hhi.
  destruct (owns_exists oob r Hrl Hrn Hri t) as (k & Hk).
  rewrite (valueAt_owner oob r Hrl Hrn Hri t k Hk).
  destruct Hk as [Hkn Hk].
  destruct (Hcov k Hkn) as (i & Heq & Hown).
  assert (Hw : (0 < (cuts r).[S k] - (cuts r).[k])%Qc).
  { assert ((cuts r).[k] < (cuts r).[S k])%Qc by (apply Hri; lia). qlra. }
  eexists. split; [reflexivity|].
  assert (Hcase : ((cuts r).[k] <= t)%Qc /\
                  ((t < (cuts r).[S k])%Qc \/ (k =? size r - 1)%nat = true /\ t = (cuts r).[S k])).
  { destruct Hk as [[H1 ->]|[[H1 ->]|[H1 H2]]].
    - qlra.
    - assert (t = (cuts r).[size r]) by qlra. subst t.
      replace (S (size r - 1)) with (size r) by lia.
      split; [apply increasing_le; [assumption|lia]|].
      right. split; [apply Nat.eqb_refl|reflexivity].
    - auto. }
  destruct Hcase as [Hc1 Hc2].
  rewrite (valueAt_owner oob f Hlen Hn HP t i (Hown t Hc1 Hc2)).
  f_equal. rewrite Heq. f_equal. f_equal. unfold local. field. qlra.
Qed.
End Refinement.

(* ================================================================== *)
(** * The binary operators *)
(* ================================================================== *)

Lemma increasing_bounds l x :
  increasing l -> In x l -> (l.[0] <= x)%Qc /\ (x <= l.[length l - 1])%Qc.
Proof.
  intros Hl Hx. destruct (In_nth l x 0%Qc Hx) as (i & Hi & <-).
  split; apply increasing_le; try assumption; lia.
Qed.

Section Operators.
Context {T : Type} {F : Fragment T}.
Variable oob : option Qc.
Implicit Types (a b pa pb r : Piecewise T).

(** The loop of a binary operator pairs the segments off. *)
Lemma pointwise_loop (op : T -> T -> T) pa pb :
  size pa = size pb ->
  exists r,
    for_loop 0 (size pa)
      (fun i r => x <- sget (segs pa) (Z.of_nat i) ;;
                  y <- sget (segs pb) (Z.of_nat i) ;;
                  Ok (push_seg r (op x y)))
      (mkPiecewise (cuts pa) []) = Ok r /\
    cuts r = cuts pa /\ size r = size pa /\
    forall k, (k < size pa)%nat -> seg_at r k = op (seg_at pa k) (seg_at pb k).
Proof.
  intros Hsz.
  destruct (for_rule
    (fun i r => cuts r = cuts pa /\ size r = i /\
                forall k, (k < i)%nat -> seg_at r k = op (seg_at pa k) (seg_at pb k))
    (fun i r => x <- sget (segs pa) (Z.of_nat i) ;;
                y <- sget (segs pb) (Z.of_nat i) ;;
                Ok (push_seg r (op x y)))
    (size pa) 0 (mkPiecewise (cuts pa) [])) as (r & Hr & HI).
  - cbn. repeat split. intros k Hk. lia.
  - intros i r Hi (Hc & Hs & Hk). cbn [Nat.add] in Hi.
    unfold sget.
    rewrite (vgetZ_in None (segs pa) i seg_default) by (unfold size in *; lia).
    rewrite (vgetZ_in None (segs pb) i seg_default) by (unfold size in *; lia).
    cbn [bind]. eexists; split; [reflexivity|].
    unfold push_seg, push_back, size, seg_at in *. cbn [cuts segs].
    split; [assumption|]. split; [rewrite length_app; cbn; lia|].
    intros k Hk'. destruct (Nat.eq_dec k i) as [->|].
    + rewrite <- Hs at 1. now rewrite nth_middle.
    + rewrite app_nth1 by lia. apply Hk. lia.
  - exists r. cbn [Nat.add] in HI. tauto.
Qed.

(** A partition is a well-formed, non-empty container. *)
Lemma partitioned_proper pw c r :
  length (cuts pw) = S (size pw) -> (0 < size pw)%nat -> increasing (cuts pw) ->
  partitioned pw c r ->
  length (cuts r) = S (size r) /\ (0 < size r)%nat /\ increasing (cuts r) /\
  ((cuts r).[0] <= (cuts pw).[0])%Qc /\ ((cuts pw).[size pw] <= (cuts r).[size r])%Qc.
Proof.
  intros Hlen Hn HP ([Hl Hp] & Hinc & Hmem).
  assert (H0 : In (cuts pw).[0] (cuts r)) by (apply Hmem; left; apply nth_In; lia).
  assert (Hl' : In (cuts pw).[size pw] (cuts r)) by (apply Hmem; left; apply nth_In; lia).
  pose proof (increasing_bounds _ _ Hinc H0) as [B1 B2].
  pose proof (increasing_bounds _ _ Hinc Hl') as [B3 B4].
  rewrite Hl in B2, B4.
  replace (S (length (segs r)) - 1)%nat with (size r) in B2, B4 by (unfold size; lia).
  assert (Hlt : ((cuts pw).[0] < (cuts pw).[size pw])%Qc)
    by (apply increasing_lt; [assumption|lia]).
  repeat split; try assumption.
  destruct (Nat.eq_dec (size r) 0) as [E|]; [|lia]. exfalso.
  rewrite E in *. qlra.
Qed.
End Operators.

Section OperatorValues.
Context {T : Type} {F : Fragment T} {L : FragmentLaws T}.
Variable oob : option Qc.
Implicit Types (a b pa pb r : Piecewise T).

(** [t] lies in the domain that [domain()] reports. *)
Definition in_domain a (t : Qc) : Prop :=
  exists d, domain oob a = Ok d /\ (imin d <= t)%Qc /\ (t <= imax d)%Qc.

Lemma in_domain_cuts a t :
  length (cuts a) = S (size a) -> increasing (cuts a) ->
  in_domain a t -> ((cuts a).[0] <= t)%Qc /\ (t <= (cuts a).[size a])%Qc.
Proof.
  intros Hlen Hinc (d & Hd & H1 & H2). unfold domain, vfront in Hd.
  rewrite (vget_in oob (cuts a) 0 0%Qc) in Hd by lia.
  rewrite (vback_last oob (cuts a) 0%Qc) in Hd by (destruct (cuts a); [discriminate|discriminate]).
  cbn [bind] in Hd. rewrite last_nth in Hd by (destruct (cuts a); [discriminate|discriminate]).
  rewrite Hlen in Hd. cbn [Nat.sub] in Hd. rewrite Nat.sub_0_r in Hd.
  assert (Hle : ((cuts a).[0] <= (cuts a).[size a])%Qc)
    by (apply increasing_le; [assumption|lia]).
  unfold Interval_of in Hd. apply Qcleb_le in Hle. rewrite Hle in Hd.
  injection Hd as <-. cbn [imin imax] in *. auto.
Qed.

(** A partition takes the values of the function it refines. *)
Lemma partitioned_valueAt pw c r t :
  length (cuts pw) = S (size pw) -> (0 < size pw)%nat -> increasing (cuts pw) ->
  partitioned pw c r ->
  ((cuts r).[0] <= t)%Qc -> (t <= (cuts r).[size r])%Qc ->
  exists v, valueAt oob r t = Ok v /\ valueAt oob pw t = Ok v.
Proof.
  intros Hlen Hn HP Hpart Hlo Hhi.
  destruct (partitioned_proper pw c r Hlen Hn HP Hpart) as (Hrl & Hrn & Hri & _ & Hback).
  apply covered_valueAt; try assumption.
  intros k Hk. destruct Hpart as ([_ Hp] & _ & _).
  apply Piece_covers; try assumption.
  - apply Hp. exact Hk.
  - intros E. apply Nat.eqb_eq in E. subst k.
    now replace (S (size r - 1)) with (size r) by lia.
Qed.

(** The value of a binary operator at a time of both domains. *)
Lemma pointwise_value (op : T -> T -> T) (opv : Qc -> Qc -> Qc) a b t :
  (forall s1 s2 u, eval (op s1 s2) u = opv (eval s1 u) (eval s2 u)) ->
  proper oob a -> proper oob b -> in_domain a t -> in_domain b t ->
  exists pa pb r va vb,
    partition oob a (cuts b) = Ok pa /\ partition oob b (cuts a) = Ok pb /\
    cuts pa = cuts pb /\
    pointwise oob op a b = Ok r /\ cuts r = cuts pa /\
    valueAt oob a t = Ok va /\ valueAt oob b t = Ok vb /\
    valueAt oob r t = Ok (opv va vb).
Proof.
  intros Hop Ha Hb Hta Htb.
  destruct (proper_inv oob a Ha) as (Hla & Hna & HPa).
  destruct (proper_inv oob b Hb) as (Hlb & Hnb & HPb).
  apply in_domain_cuts in Hta; [|assumption..]. destruct Hta as [Hta1 Hta2].
  apply in_domain_cuts in Htb; [|assumption..]. destruct Htb as [Htb1 Htb2].
  destruct (partition_cuts_agree oob a b Ha Hb) as (pa & pb & Hpa & Hpb & Hcuts & Ppa & Ppb).
  { right. exists (size b). split; [lia|]. qlra. }
  { right. exists (size a). split; [lia|]. qlra. }
  destruct (partitioned_proper a (cuts b) pa Hla Hna HPa Ppa) as (Hl1 & Hn1 & Hi1 & Hf1 & Hb1).
  destruct (partitioned_proper b (cuts a) pb Hlb Hnb HPb Ppb) as (Hl2 & Hn2 & Hi2 & Hf2 & Hb2).
  assert (Hsz : size pa = size pb) by (rewrite Hcuts in Hl1; lia).
  destruct (pointwise_loop op pa pb Hsz) as (r & Hr & Hrc & Hrs & Hrk).
  destruct (partitioned_valueAt a (cuts b) pa t Hla Hna HPa Ppa) as (va & Hva1 & Hva2);
    [qlra..|].
  destruct (partitioned_valueAt b (cuts a) pb t Hlb Hnb HPb Ppb) as (vb & Hvb1 & Hvb2);
    [qlra..|].
  exists pa, pb, r, va, vb.
  repeat split; try assumption.
  - unfold pointwise. rewrite Hpa, Hpb. cbn [bind].
    rewrite Hsz, Nat.eqb_refl. cbn [assert bind]. rewrite <- Hsz. exact Hr.
  - (* the three containers share their cuts, hence the owner of [t] *)
    assert (Hlr : length (cuts r) = S (size r)) by (rewrite Hrc, Hrs; assumption).
    assert (Hir : increasing (cuts r)) by (rewrite Hrc; assumption).
    destruct (owns_exists oob r Hlr ltac:(lia) Hir t) as (k & Hk).
    assert (Hka : owns pa k t).
    { unfold owns in *. rewrite Hrc, Hrs in Hk. exact Hk. }
    assert (Hkb : owns pb k t).
    { unfold owns in *. rewrite <- Hcuts, <- Hsz. exact Hka. }
    rewrite (valueAt_owner oob r Hlr ltac:(lia) Hir t k Hk).
    rewrite (valueAt_owner oob pa Hl1 Hn1 Hi1 t k Hka) in Hva1.
    rewrite (valueAt_owner oob pb Hl2 Hn2 Hi2 t k Hkb) in Hvb1.
    injection Hva1 as <-. injection Hvb1 as <-.
    rewrite Hrk by apply Hka. rewrite Hop.
    unfold local. now rewrite Hrc, <- Hcuts.
Qed.

(** C3 -- the sum and the product are pointwise.  For non-empty [a]
    and [b] that satisfy the invariants and a time [t] of both domains:
    the two operands are first partitioned by each other's cuts, into
    containers with one and the same cut sequence, which is also that of
    the result; and [(a + b)(t) = a(t) + b(t)], [(a * b)(t) = a(t) * b(t)]. *)
Theorem add_mul_pointwise :
  forall a b (t : Qc),
    empty a = false -> invariants oob a = Ok true ->
    empty b = false -> invariants oob b = Ok true ->
    in_domain a t -> in_domain b t ->
    exists pa pb sum prod va vb,
      partition oob a (cuts b) = Ok pa /\ partition oob b (cuts a) = Ok pb /\
      cuts pa = cuts pb /\
      valueAt oob a t = Ok va /\ valueAt oob b t = Ok vb /\
      add oob a b = Ok sum /\ cuts sum = cuts pa /\
      valueAt oob sum t = Ok (va + vb)%Qc /\
      mul oob a b = Ok prod /\ cuts prod = cuts pa /\
      valueAt oob prod t = Ok (va * vb)%Qc.
Proof.
  intros a b t Ea Ia Eb Ib Hta Htb.
  destruct (pointwise_value seg_add Qcplus a b t eval_add (conj Ea Ia) (conj Eb Ib) Hta Htb)
    as (pa & pb & sum & va & vb & Hpa & Hpb & Hc & Hs & Hsc & Hva & Hvb & Hsv).
  destruct (pointwise_value seg_mul Qcmult a b t eval_mul (conj Ea Ia) (conj Eb Ib) Hta Htb)
    as (pa' & pb' & prod & va' & vb' & Hpa' & Hpb' & _ & Hp & Hpc & Hva' & Hvb' & Hpv).
  assert (pa' = pa) by congruence. assert (va' = va) by congruence.
  assert (vb' = vb) by congruence. subst.
  exists pa, pb, sum, prod, va, vb. unfold add, mul. repeat split; assumption.
Qed.
End OperatorValues.

(* ================================================================== *)
(** * Polynomials satisfy the laws *)
(* ================================================================== *)

Module PolyFacts.
Import Poly.

Lemma peval_padd p : forall q u, peval (padd p q) u = (peval p u + peval q u)%Qc.
Proof.
  induction p as [|a p IH]; intros [|b q] u; cbn [padd peval]; try ring.
  rewrite IH. ring.
Qed.

Lemma peval_map (g : Qc -> Qc) (h : Qc -> Qc) p u :
  h 0%Qc = 0%Qc -> (forall x y, h (x + u * y)%Qc = (g x + u * h y)%Qc) ->
  peval (map g p) u = h (peval p u).
Proof.
  intros H0 H. induction p as [|a p IH]; cbn [map peval]; [now rewrite H0|].
  now rewrite IH, H.
Qed.

Lemma peval_pscale k p u : peval (pscale k p) u = (peval p u * k)%Qc.
Proof.
  unfold pscale. apply (peval_map (fun a => a * k)%Qc (fun a => a * k)%Qc).
  - ring.
  - intros; ring.
Qed.

Lemma peval_pdiv k p u : peval (pdiv k p) u = (peval p u / k)%Qc.
Proof.
  unfold pdiv. apply (peval_map (fun a => a / k)%Qc (fun a => a / k)%Qc).
  - unfold Qcdiv. ring.
  - intros; unfold Qcdiv; ring.
Qed.

Lemma peval_pneg p u : peval (pneg p) u = (- peval p u)%Qc.
Proof.
  unfold pneg. apply (peval_map Qcopp Qcopp).
  - ring.
  - intros; ring.
Qed.

Lemma peval_pmul p : forall q u, peval (pmul p q) u = (peval p u * peval q u)%Qc.
Proof.
  induction p as [|a p IH]; intros q u; cbn [pmul peval]; [ring|].
  rewrite peval_padd, peval_pscale. cbn [peval]. rewrite IH. ring.
Qed.

Lemma peval_paffine p a d u : peval (paffine p a d) u = peval p (a + u * d)%Qc.
Proof.
  induction p as [|c p IH]; cbn [paffine peval]; [reflexivity|].
  rewrite peval_padd, peval_pmul, IH. cbn [peval]. ring.
Qed.

#[global] Instance poly_laws : FragmentLaws poly.
Proof.
  constructor; cbn [eval at0 at1 seg_portion seg_offset seg_scale seg_div seg_neg
                    seg_add seg_sub seg_mul poly_fragment]; intros.
  - reflexivity.
  - reflexivity.
  - apply peval_paffine.
  - rewrite peval_padd. cbn [peval]. ring.
  - apply peval_pscale.
  - apply peval_pdiv.
  - apply peval_pneg.
  - rewrite peval_padd, peval_pneg. ring.
  - apply peval_padd.
  - apply peval_pmul.
Qed.

Lemma Qc_of_nat_S_neq0 k : Qc_of_nat (S k) <> 0%Qc.
Proof.
  unfold Qc_of_nat. intros H. apply Q2Qc_eq_iff in H.
  unfold Qeq, inject_Z in H. cbn [Qnum Qden] in H. lia.
Qed.

Lemma pderiv_pinteg_from p : forall k, pderiv_from (S k) (pinteg_from (S k) p) = p.
Proof.
  induction p as [|a p IH]; intros k; cbn [pinteg_from pderiv_from]; [reflexivity|].
  rewrite IH. f_equal. field. apply Qc_of_nat_S_neq0.
Qed.

Lemma pderiv_from_pscale c p : forall k,
  pderiv_from k (pscale c p) = pscale c (pderiv_from k p).
Proof.
  induction p as [|a p IH]; intros k; cbn; [reflexivity|].
  unfold pscale in IH. rewrite IH. f_equal. ring.
Qed.

Lemma pinteg_from_pdiv c p : forall k,
  pinteg_from k (pdiv c p) = pdiv c (pinteg_from k p).
Proof.
  induction p as [|a p IH]; intros k; cbn; [reflexivity|].
  unfold pdiv in IH. rewrite IH. f_equal. unfold Qcdiv. ring.
Qed.

Lemma pinteg_pderiv_from p : forall k, pinteg_from (S k) (pderiv_from (S k) p) = p.
Proof.
  induction p as [|a p IH]; intros k; cbn [pinteg_from pderiv_from]; [reflexivity|].
  rewrite IH. f_equal. field. apply Qc_of_nat_S_neq0.
Qed.

#[global] Instance poly_calculus : CalculusLaws poly.
Proof.
  constructor; cbn [eval seg_integral seg_derivative seg_scale seg_offset seg_div
                    poly_fragment].
  - intros s u. unfold pinteg, pderiv. now rewrite pderiv_pinteg_from.
  - intros s k u. destruct s as [|a s]; cbn [pscale map pderiv peval]; [ring|].
    fold (pscale k s). now rewrite pderiv_from_pscale, peval_pscale.
  - intros s k u. destruct s as [|a [|b s]]; reflexivity.
  - intros s. destruct s as [|a s].
    + exists 0%Qc. intros u. cbn. ring.
    + exists (- a)%Qc. intros u. unfold pinteg, pderiv.
      rewrite pinteg_pderiv_from. cbn [peval]. ring.
  - intros s k u. unfold pinteg. rewrite pinteg_from_pdiv. cbn [peval].
    rewrite peval_pdiv. unfold Qcdiv. ring.
Qed.
End PolyFacts.

Lemma add_mul_pointwise_witness :
  exists pa pb sum prod va vb,
    partition None ex_f (cuts ex_g) = Ok pa /\ partition None ex_g (cuts ex_f) = Ok pb /\
    cuts pa = cuts pb /\
    valueAt None ex_f (q 3 4) = Ok va /\ valueAt None ex_g (q 3 4) = Ok vb /\
    add None ex_f ex_g = Ok sum /\ cuts sum = cuts pa /\
    valueAt None sum (q 3 4) = Ok (va + vb)%Qc /\
    mul None ex_f ex_g = Ok prod /\ cuts prod = cuts pa /\
    valueAt None prod (q 3 4) = Ok (va * vb)%Qc.
Proof.
  apply (add_mul_pointwise None ex_f ex_g (q 3 4)); try reflexivity.
  - eexists. split; [reflexivity|]. split; apply Qcleb_le; reflexivity.
  - eexists. split; [reflexivity|]. split; apply Qcleb_le; reflexivity.
Defined.

(* ================================================================== *)
(** * Calculus *)
(* ================================================================== *)

Section Calculus.
Context {T : Type} {F : Fragment T} {L : FragmentLaws T} {C : CalculusLaws T}.
Variable oob : option Qc.
Implicit Types (a : Piecewise T).

Definition width a (i : nat) : Qc := ((cuts a).[S i] - (cuts a).[i])%Qc.

Lemma nth_vset_same (l : list T) i x d :
  (i < length l)%nat -> nth i (firstn i l ++ x :: skipn (S i) l) d = x.
Proof.
  intros H. rewrite app_nth2 by (rewrite length_firstn; lia).
  rewrite length_firstn. replace (i - Nat.min i (length l))%nat with 0%nat by lia.
  reflexivity.
Qed.

Lemma nth_vset_other (l : list T) i k x d :
  (i < length l)%nat -> k <> i ->
  nth k (firstn i l ++ x :: skipn (S i) l) d = nth k l d.
Proof.
  revert i k. induction l as [|y l IH]; intros i k H Hk; [cbn in H; lia|].
  destruct i as [|i], k as [|k]; cbn in *; try congruence.
  apply IH; lia.
Qed.

Lemma length_vset (l : list T) i x :
  (i < length l)%nat -> length (firstn i l ++ x :: skipn (S i) l) = length l.
Proof.
  intros H. rewrite length_app, length_firstn. cbn [length]. rewrite length_skipn. lia.
Qed.

(** [derivative]: each segment's derivative, over the segment's width. *)
Lemma derivative_ok a :
  length (cuts a) = S (size a) ->
  exists d, derivative oob a = Ok d /\ cuts d = cuts a /\ size d = size a /\
    forall k, (k < size a)%nat ->
      seg_at d k = seg_div (seg_derivative (seg_at a k)) (width a k).
Proof.
  intros Hlen. unfold derivative. cbn [cuts segs]. fold (size a).
  destruct (for_rule
    (fun i (rs : list T) => length rs = size a /\
       forall k, (k < i)%nat ->
         nth k rs seg_default = seg_div (seg_derivative (seg_at a k)) (width a k))
    (fun i rs =>
       s <- sget (segs a) (Z.of_nat i) ;;
       c1 <- vget oob (cuts a) (i + 1) ;;
       ci <- vget oob (cuts a) i ;;
       vset rs i (seg_div (seg_derivative s) (c1 - ci)%Qc))
    (size a) 0 (repeat seg_default (size a))) as (rs & -> & Hl & Hk).
  - split; [apply repeat_length|]. intros k Hk. lia.
  - intros i rs Hi [Hl Hk]. cbn [Nat.add] in Hi.
    unfold sget. rewrite (vgetZ_in None (segs a) i seg_default) by (unfold size in *; lia).
    rewrite (vget_in oob (cuts a) (i + 1) 0%Qc) by lia.
    rewrite (vget_in oob (cuts a) i 0%Qc) by lia. cbn [bind].
    rewrite vset_in by lia. eexists; split; [reflexivity|].
    split; [rewrite length_vset; lia|].
    intros k Hk'. destruct (Nat.eq_dec k i) as [->|].
    + rewrite nth_vset_same by lia. unfold width, seg_at. now rewrite Nat.add_1_r.
    + rewrite nth_vset_other by lia. apply Hk. lia.
  - cbn [bind]. eexists; split; [reflexivity|]. cbn [cuts segs].
    split; [reflexivity|]. split; [exact Hl|]. exact Hk.
Qed.

(** [integral]: each segment is the scaled antiderivative plus a
    constant, it starts where the one before it ends, and the first one
    starts at the value of the first segment of [a] at 0. *)
Lemma integral_ok a :
  length (cuts a) = S (size a) -> (0 < size a)%nat ->
  exists r, integral oob a = Ok r /\ cuts r = cuts a /\ size r = size a /\
    (forall k, (k < size a)%nat ->
       exists K, seg_at r k
                 = seg_offset (seg_scale (seg_integral (seg_at a k)) (width a k)) K) /\
    at0 (seg_at r 0) = at0 (seg_at a 0) /\
    (forall k, (S k < size a)%nat -> at0 (seg_at r (S k)) = at1 (seg_at r k)).
Proof.
  intros Hlen Hn. unfold integral. cbn [cuts segs]. fold (size a).
  unfold sget at 1. change 0%Z with (Z.of_nat 0).
  rewrite (vgetZ_in None (segs a) 0 seg_default) by (unfold size in *; lia). cbn [bind].
  fold (seg_at a 0).
  destruct (for_rule
    (fun i (st : list T * Qc) =>
       let '(rs, c) := st in
       length rs = size a /\
       (forall k, (k < i)%nat ->
          exists K, nth k rs seg_default
                    = seg_offset (seg_scale (seg_integral (seg_at a k)) (width a k)) K) /\
       ((0 < i)%nat -> at0 (nth 0 rs seg_default) = at0 (seg_at a 0)) /\
       (forall k, (S k < i)%nat ->
          at0 (nth (S k) rs seg_default) = at1 (nth k rs seg_default)) /\
       c = match i with
           | O => at0 (seg_at a 0)
           | S j => at1 (nth j rs seg_default)
           end)
    (fun i (st : list T * Qc) =>
       let '(rs, c) := st in
       s <- sget (segs a) (Z.of_nat i) ;;
       c1 <- vget oob (cuts a) (i + 1) ;;
       ci <- vget oob (cuts a) i ;;
       rs <- vset rs i (seg_scale (seg_integral s) (c1 - ci)%Qc) ;;
       ri <- sget rs (Z.of_nat i) ;;
       rs <- vset rs i (seg_offset ri (c - at0 ri)%Qc) ;;
       ri <- sget rs (Z.of_nat i) ;;
       Ok (rs, at1 ri))
    (size a) 0 (repeat seg_default (size a), at0 (seg_at a 0)))
    as ([rs c] & -> & Hl & Hk & H0 & Hcont & _).
  - split; [apply repeat_length|]. repeat split; intros; lia.
  - intros i [rs c] Hi (Hl & Hk & H0 & Hcont & Hc). cbn [Nat.add] in Hi.
    unfold sget. rewrite (vgetZ_in None (segs a) i seg_default) by (unfold size in *; lia).
    rewrite (vget_in oob (cuts a) (i + 1) 0%Qc) by lia.
    rewrite (vget_in oob (cuts a) i 0%Qc) by lia. cbn [bind].
    rewrite vset_in by lia. cbn [bind].
    rewrite (vgetZ_in None _ i seg_default) by (rewrite length_vset; lia).
    rewrite nth_vset_same by lia. cbn [bind].
    rewrite vset_in by (rewrite length_vset; lia). cbn [bind].
    rewrite (vgetZ_in None _ i seg_default) by (rewrite !length_vset; rewrite ?length_vset; lia).
    cbn [bind]. eexists; split; [reflexivity|].
    set (ri := seg_scale _ _).
    set (rs1 := firstn i rs ++ ri :: skipn (S i) rs).
    assert (Hl1 : length rs1 = length rs) by (apply length_vset; lia).
    set (rs2 := firstn i rs1 ++ seg_offset ri (c - at0 ri)%Qc :: skipn (S i) rs1).
    assert (Hsame : nth i rs2 seg_default = seg_offset ri (c - at0 ri)%Qc)
      by (apply nth_vset_same; lia).
    assert (Hother : forall k, k <> i -> nth k rs2 seg_default = nth k rs seg_default).
    { intros k Hne. unfold rs2. rewrite nth_vset_other by lia.
      unfold rs1. now rewrite nth_vset_other by lia. }
    assert (Hat0 : at0 (nth i rs2 seg_default) = c).
    { rewrite Hsame, !eval_at0, eval_offset. ring. }
    split; [unfold rs2; rewrite length_vset; lia|]. split.
    { intros k Hk'. destruct (Nat.eq_dec k i) as [->|].
      - rewrite Hsame. eexists. unfold ri, width, seg_at. rewrite Nat.add_1_r. reflexivity.
      - rewrite Hother by assumption. apply Hk. lia. }
    split.
    { intros _. destruct (Nat.eq_dec i 0) as [->|].
      - rewrite Hat0. exact Hc.
      - rewrite Hother by lia. apply H0. lia. }
    split; [|reflexivity].
    intros k Hk'. destruct (Nat.eq_dec (S k) i) as [<-|].
    + rewrite Hat0, Hc. now rewrite Hother by lia.
    + rewrite !Hother by lia. apply Hcont. lia.
  - cbn [bind fst]. eexists; split; [reflexivity|]. cbn [cuts segs].
    cbn [Nat.add] in *.
    split; [reflexivity|]. split; [exact Hl|]. split; [exact Hk|].
    split; [apply H0; lia|exact Hcont].
Qed.
End Calculus.

Section CalculusRoundTrip.
Context {T : Type} {F : Fragment T} {L : FragmentLaws T} {C : CalculusLaws T}.
Variable oob : option Qc.
Implicit Types (f g : Piecewise T).

(** The same cuts, and segments that agree as functions. *)
Definition same_function g f : Prop :=
  cuts g = cuts f /\ size g = size f /\
  forall k u, (k < size f)%nat -> eval (seg_at g k) u = eval (seg_at f k) u.

(** The same cuts, and segments that agree up to a constant each. *)
Definition same_up_to_constants g f : Prop :=
  cuts g = cuts f /\ size g = size f /\
  forall k, (k < size f)%nat ->
    exists K, forall u, eval (seg_at g k) u = (eval (seg_at f k) u + K)%Qc.

(** C9 -- [derivative] undoes [integral], [integral] undoes
    [derivative] up to a constant per segment, and the integral is
    continuous: for a non-empty [f] that satisfies the invariants,
    [derivative(integral(f))] has the cuts of [f] and segments equal to
    those of [f]; [integral(derivative(f))] has the cuts of [f] and
    segments equal to those of [f] plus a constant each; and in
    [integral(f)] every segment starts (local time 0) at the value where
    the one before it ends (local time 1), the first one starting at the
    value of the first segment of [f] at its local start. *)
Theorem calculus_round_trip :
  forall f,
    empty f = false -> invariants oob f = Ok true ->
    exists I D d J,
      integral oob f = Ok I /\ derivative oob I = Ok D /\ same_function D f /\
      derivative oob f = Ok d /\ integral oob d = Ok J /\ same_up_to_constants J f /\
      eval (seg_at I 0) 0%Qc = eval (seg_at f 0) 0%Qc /\
      (forall k, (S k < size f)%nat ->
         eval (seg_at I (S k)) 0%Qc = eval (seg_at I k) 1%Qc).
Proof.
  intros f He Hi.
  destruct (proper_inv oob f (conj He Hi)) as (Hlen & Hn & HP).
  assert (Hw : forall k, (k < size f)%nat -> width f k <> 0%Qc).
  { intros k Hk. unfold width.
    assert ((cuts f).[k] < (cuts f).[S k])%Qc by (apply HP; lia). qlra. }
  destruct (integral_ok oob f Hlen Hn) as (I & HI & HIc & HIs & HIk & HI0 & HIcont).
  destruct (derivative_ok oob I) as (D & HD & HDc & HDs & HDk);
    [rewrite HIc, HIs; assumption|].
  destruct (derivative_ok oob f Hlen) as (d & Hd & Hdc & Hds & Hdk).
  destruct (integral_ok oob d) as (J & HJ & HJc & HJs & HJk & _);
    [rewrite Hdc, Hds; assumption|lia|].
  exists I, D, d, J. repeat split; try assumption; try congruence.
  - intros k u Hk. rewrite HDk by lia.
    destruct (HIk k Hk) as (K & ->).
    rewrite eval_div, derivative_offset, derivative_scale, derivative_integral.
    unfold width. rewrite HIc. fold (width f k). field. now apply Hw.
  - intros k Hk. destruct (HJk k ltac:(lia)) as (K & ->).
    rewrite Hdk by assumption.
    destruct (integral_derivative (seg_at f k)) as (K0 & HK0).
    exists (K0 + K)%Qc. intros u.
    rewrite eval_offset, eval_scale, integral_div, HK0.
    unfold width at 2. rewrite Hdc. fold (width f k). field. now apply Hw.
  - now rewrite <- !eval_at0.
  - intros k Hk. rewrite <- eval_at0, <- eval_at1. now apply HIcont.
Qed.
End CalculusRoundTrip.

Lemma calculus_round_trip_witness :
  exists I D d J,
    integral None ex_f = Ok I /\ derivative None I = Ok D /\ same_function D ex_f /\
    derivative None ex_f = Ok d /\ integral None d = Ok J /\ same_up_to_constants J ex_f /\
    eval (seg_at I 0) 0%Qc = eval (seg_at ex_f 0) 0%Qc /\
    (forall k, (S k < size ex_f)%nat ->
       eval (seg_at I (S k)) 0%Qc = eval (seg_at I k) 1%Qc).
Proof.
  apply (calculus_round_trip None ex_f); reflexivity.
Defined.

(* ================================================================== *)
(** * What [portion] builds *)
(* ================================================================== *)

Section SliceFacts.
Context {A : Type}.

Lemma length_slice (l : list A) a b :
  (b <= length l)%nat -> length (slice l a b) = (b - a)%nat.
Proof.
  intros H. unfold slice. rewrite length_firstn, length_skipn. lia.
Qed.

Lemma nth_slice (l : list A) a b k d :
  (b <= length l)%nat -> (k < b - a)%nat -> nth k (slice l a b) d = nth (a + k) l d.
Proof.
  intros H Hk. unfold slice. rewrite nth_firstn.
  apply Nat.ltb_lt in Hk. rewrite Hk. apply nth_skipn.
Qed.
End SliceFacts.

Section PortionFacts.
Context {T : Type} {F : Fragment T}.
Variable oob : option Qc.
Variable pw : Piecewise T.

Local Abbreviation P := (cuts pw).
Local Abbreviation n := (size pw).

Hypothesis Hlen : length P = S n.
Hypothesis Hn : (0 < n)%nat.
Hypothesis HP : increasing P.

Lemma cuts_in_order_total k : forall i cs,
  (i + k < length cs)%nat -> exists b, cuts_in_order oob k i cs = Ok b.
Proof.
  induction k as [|k IH]; intros i cs H; cbn [cuts_in_order]; [eauto|].
  rewrite (vget_in oob cs i 0%Qc) by lia.
  rewrite (vget_in oob cs (i + 1) 0%Qc) by lia. cbn [bind].
  destruct (cs.[i + 1] <=? cs.[i])%dbl; [eauto|]. apply IH. lia.
Qed.

(** The self-check never faults: it reads the cuts only after it has
    compared the sizes. *)
Lemma invariants_total (p : Piecewise T) : exists b, invariants oob p = Ok b.
Proof.
  unfold invariants.
  destruct (Nat.eqb_spec (length (segs p) + 1) (length (cuts p))) as [E|E]; cbn [orb negb].
  - apply cuts_in_order_total. lia.
  - unfold empty. destruct (segs p); cbn [andb negb length cuts_in_order]; [|eauto].
    destruct (cuts p); cbn [negb]; eauto.
Qed.

Lemma portion_same lo hi i :
  (lo < hi)%Qc -> owns pw i lo -> (i = (n - 1)%nat \/ (hi < P.[S i])%Qc) ->
  portion_ordered oob pw lo hi
  = Ok (mkPiecewise [lo; hi]
          [seg_portion (seg_at pw i) ((lo - P.[i]) * rwidth pw i)%Qc
                                     ((hi - P.[i]) * rwidth pw i)%Qc]).
Proof.
  intros Hlt Ho Hsame. unfold portion_ordered.
  destruct (segN_owner oob pw Hlen Hn HP lo 0 Hn (or_introl eq_refl)) as (j & Hj & Hoj & _).
  change (Z.of_nat 0) with 0%Z in Hj. rewrite Hj. cbn [bind].
  assert (j = i) as -> by (eapply owns_unique; eassumption).
  destruct Ho as [Hi _].
  rewrite push_cut_ok by (cbn; congruence). cbn [bind cuts segs app].
  rewrite usub1_pos by assumption.
  assert (Hs : (if (Z.of_nat i =? Z.of_nat (n - 1))%Z then Ok true
                else c1 <- vgetZ oob P (Z.of_nat i + 1) ;; Ok (hi <? c1)%dbl) = Ok true).
  { destruct (Z.eqb_spec (Z.of_nat i) (Z.of_nat (n - 1))) as [E|E]; [reflexivity|].
    destruct Hsame as [->|Hh]; [lia|].
    replace (Z.of_nat i + 1)%Z with (Z.of_nat (S i)) by lia.
    rewrite (vgetZ_in oob P (S i) 0%Qc) by lia. cbn [bind].
    apply Qcltb_lt in Hh. now rewrite Hh. }
  rewrite Hs. cbn [bind].
  rewrite (elem_portion_at oob pw Hlen) by assumption. cbn [bind].
  rewrite push_ok; [reflexivity|reflexivity|]. intros d. exact Hlt.
Qed.

Lemma portion_multi lo hi i :
  (lo < hi)%Qc -> owns pw i lo -> (S i < n)%nat -> (P.[S i] <= hi)%Qc ->
  exists fi,
    owns pw fi hi /\ (S i <= fi)%nat /\
    portion_ordered oob pw lo hi
    = Ok (mkPiecewise
            ((lo :: slice P (S i) (S fi)) ++ (if (hi =? P.[fi])%dbl then [] else [hi]))
            ((seg_portion (seg_at pw i) (local pw i lo) 1%Qc
                :: slice (segs pw) (S i) fi)
             ++ [seg_portion (seg_at pw fi) 0%Qc (local pw fi hi)])).
Proof.
  intros Hlt Ho Hi Hge. unfold portion_ordered.
  destruct (segN_owner oob pw Hlen Hn HP lo 0 Hn (or_introl eq_refl)) as (j & Hj & Hoj & _).
  change (Z.of_nat 0) with 0%Z in Hj. rewrite Hj. cbn [bind].
  assert (j = i) as -> by (eapply owns_unique; eassumption).
  rewrite push_cut_ok by (cbn; congruence). cbn [bind cuts segs app].
  rewrite usub1_pos by assumption.
  destruct (Z.eqb_spec (Z.of_nat i) (Z.of_nat (n - 1))) as [E|E]; [lia|].
  replace (Z.of_nat i + 1)%Z with (Z.of_nat (S i)) by lia.
  rewrite (vgetZ_in oob P (S i) 0%Qc) by lia. cbn [bind].
  apply Qcltb_ge in Hge. rewrite Hge. apply Qcltb_ge in Hge.
  rewrite (sget_at pw) by lia. rewrite (segT_local oob pw Hlen) by lia. cbn [bind].
  destruct (segN_owner oob pw Hlen Hn HP hi (S i) Hi (or_intror Hge))
    as (fi & Hfi & Hofi & Hle).
  specialize (Hle Hge). rewrite Hfi. cbn [bind].
  exists fi. split; [assumption|]. split; [assumption|].
  assert (Hfn : (fi < n)%nat) by apply Hofi.
  rewrite (sget_at pw) by lia. rewrite (segT_local oob pw Hlen) by lia. cbn [bind].
  rewrite !Nat2Z.id. replace (Z.to_nat (Z.of_nat fi + 1)) with (S fi) by lia.
  unfold push_seg, push_back, pw_empty. cbn [cuts segs app].
  assert (Hsl : length (slice P (S i) (S fi)) = (fi - i)%nat)
    by (rewrite length_slice; lia).
  assert (Hback : vback oob (lo :: slice P (S i) (S fi)) = Ok P.[fi]).
  { rewrite (vback_last oob _ 0%Qc) by discriminate. f_equal.
    rewrite last_nth by discriminate. cbn [length]. rewrite Hsl.
    replace (S (fi - i) - 1)%nat with (S (fi - i - 1)) by lia. cbn [nth].
    rewrite nth_slice by lia. f_equal. lia. }
  rewrite Hback. cbn [bind].
  assert (Hlast : forall d, last (lo :: slice P (S i) (S fi)) d = P.[fi]).
  { intros d. rewrite (vback_last oob _ d) in Hback by discriminate. congruence. }
  dbl_case (hi =? P.[fi])%dbl; cbn [negb].
  - cbn [bind]. rewrite app_nil_r.
    destruct (invariants_total
                (mkPiecewise (lo :: slice P (S i) (S fi))
                   (seg_portion (seg_at pw i) (local pw i lo) 1%Qc
                      :: slice (segs pw) (S i) fi
                    ++ [seg_portion (seg_at pw fi) 0%Qc (local pw fi hi)]))) as (b & ->).
    reflexivity.
  - rewrite push_cut_ok.
    2:{ cbn [cuts]. intros d _. rewrite Hlast.
        destruct Hofi as [_ [[H1 _]|[[H1 ->]|[H1 H2]]]].
        - assert (P.[0] < P.[S i])%Qc by (apply increasing_lt; [assumption|lia]). qlra.
        - assert (P.[n - 1] < P.[n])%Qc by (apply increasing_lt; [assumption|lia]). qlra.
        - qlra. }
    cbn [bind cuts segs].
    destruct (invariants_total
                (mkPiecewise ((lo :: slice P (S i) (S fi)) ++ [hi])
                   (seg_portion (seg_at pw i) (local pw i lo) 1%Qc
                      :: slice (segs pw) (S i) fi
                    ++ [seg_portion (seg_at pw fi) 0%Qc (local pw fi hi)]))) as (b & ->).
    reflexivity.
Qed.
End PortionFacts.

Section PortionProperties.
Context {T : Type} {F : Fragment T}.
Variable oob : option Qc.
Implicit Types (pw r : Piecewise T).

Lemma Qcmin_max_cases (from to : Qc) :
  from <> to ->
  (Qcmin from to < Qcmax from to)%Qc /\
  (Qcmin from to = from /\ Qcmax from to = to \/
   Qcmin from to = to /\ Qcmax from to = from).
Proof.
  intros Hne. unfold Qcmin, Qcmax.
  dbl_case (to <? from)%dbl; dbl_case (from <? to)%dbl; try qlra.
  - split; [assumption|]. right. auto.
  - split; [assumption|]. left. auto.
Qed.

Lemma portion_unfold pw from to :
  empty pw = false -> from <> to ->
  portion oob pw from to = portion_ordered oob pw (Qcmin from to) (Qcmax from to).
Proof.
  intros He Hne. unfold portion. rewrite He. cbn [orb].
  apply Qc_eq_bool_neq in Hne. now rewrite Hne.
Qed.

(** Where [segN] sends a time is the segment that owns it. *)
Lemma segN_is_owner pw t z i :
  proper oob pw -> segN oob pw t 0 (-1) = Ok z -> owns pw i t -> z = Z.of_nat i.
Proof.
  intros Hp Hz Ho. destruct (proper_inv oob pw Hp) as (Hlen & Hn & HP).
  destruct (segN_owner oob pw Hlen Hn HP t 0 Hn (or_introl eq_refl)) as (j & Hj & Hoj & _).
  change (Z.of_nat 0) with 0%Z in Hj. rewrite Hj in Hz. injection Hz as <-.
  f_equal. eapply owns_unique; eassumption.
Qed.

(** C7 (amended) -- for a non-empty [pw] that satisfies the invariants
    and [from <> to], [portion(pw, from, to)] returns a function whose
    domain is [min(from,to), max(from,to)], and when [segN] sends both
    ends to the same segment the result has exactly one segment. *)
Theorem portion_domain :
  forall pw (from to : Qc),
    empty pw = false -> invariants oob pw = Ok true -> from <> to ->
    exists r,
      portion oob pw from to = Ok r /\
      domain oob r = Ok (mkInterval (Qcmin from to) (Qcmax from to)) /\
      (forall i, segN oob pw from 0 (-1) = Ok i -> segN oob pw to 0 (-1) = Ok i ->
                 size r = 1%nat).
Proof.
  intros pw from to He Hi Hne.
  assert (Hp : proper oob pw) by now split.
  destruct (proper_inv oob pw Hp) as (Hlen & Hn & HP).
  rewrite portion_unfold by assumption.
  destruct (Qcmin_max_cases from to Hne) as [Hlt Hcases].
  set (lo := Qcmin from to) in *. set (hi := Qcmax from to) in *.
  assert (Hdom : Interval_of lo hi = mkInterval lo hi).
  { unfold Interval_of. assert (H : (lo <= hi)%Qc) by now apply Qclt_le_weak.
    apply Qcleb_le in H. now rewrite H. }
  destruct (owns_exists oob pw Hlen Hn HP lo) as (i & Ho).
  assert (Hin : (i < size pw)%nat) by apply Ho.
  destruct (Nat.eq_dec i (size pw - 1)) as [Elast|Hnl];
    [|destruct (Qclt_le_dec hi (cuts pw).[S i]) as [Hh|Hh]].
  - rewrite (portion_same oob pw Hlen Hn HP lo hi i) by auto.
    eexists; split; [reflexivity|]. split; [|reflexivity].
    unfold domain. cbn. now rewrite Hdom.
  - rewrite (portion_same oob pw Hlen Hn HP lo hi i) by auto.
    eexists; split; [reflexivity|]. split; [|reflexivity].
    unfold domain. cbn. now rewrite Hdom.
  - destruct (portion_multi oob pw Hlen Hn HP lo hi i) as (fi & Hofi & Hle & ->);
      try assumption; [lia|].
    assert (Hfn : (fi < size pw)%nat) by apply Hofi.
    eexists; split; [reflexivity|]. split.
    + unfold domain, vfront. cbn [cuts app]. rewrite (vget_in oob _ 0 0%Qc) by (cbn; lia).
      cbn [nth bind].
      assert (Hb : vback oob (lo :: slice (cuts pw) (S i) (S fi) ++
                              (if (hi =? (cuts pw).[fi])%dbl then [] else [hi])) = Ok hi).
      { dbl_case (hi =? (cuts pw).[fi])%dbl.
        - rewrite app_nil_r. rewrite (vback_last oob _ 0%Qc) by discriminate. f_equal.
          rewrite last_nth by discriminate. cbn [length].
          rewrite length_slice by lia.
          replace (S (S fi - S i) - 1)%nat with (S (fi - i - 1)) by lia. cbn [nth].
          rewrite nth_slice by lia.
          match goal with H : hi = _ |- _ => rewrite H end. f_equal. lia.
        - change (lo :: slice (cuts pw) (S i) (S fi) ++ [hi])
            with ((lo :: slice (cuts pw) (S i) (S fi)) ++ [hi]).
          apply vback_snoc. }
      rewrite Hb. cbn [bind]. now rewrite Hdom.
    + (* both ends in one segment: impossible here *)
      intros z Hf Ht. exfalso.
      assert (Hlo : segN oob pw lo 0 (-1) = Ok z)
        by (destruct Hcases as [[-> _]|[-> _]]; assumption).
      assert (Hhi : segN oob pw hi 0 (-1) = Ok z)
        by (destruct Hcases as [[_ ->]|[_ ->]]; assumption).
      pose proof (segN_is_owner pw lo z i Hp Hlo Ho).
      pose proof (segN_is_owner pw hi z fi Hp Hhi Hofi). lia.
Qed.
End PortionProperties.

(** With [from = to] the result is the empty function, which has no
    cuts, hence no domain: C7 as stated fails there. *)
Lemma portion_point_has_no_domain :
  exists r, portion None ex_f (q 1 2) (q 1 2) = Ok r /\ cuts r = [] /\
            domain None r = Fault OutOfRange.
Proof. exists pw_empty. repeat split. Qed.

Lemma portion_domain_witness :
  exists r,
    portion None ex_f (q 3 2) (q 1 2) = Ok r /\
    domain None r = Ok (mkInterval (Qcmin (q 3 2) (q 1 2)) (Qcmax (q 3 2) (q 1 2))) /\
    (forall i, segN None ex_f (q 3 2) 0 (-1) = Ok i -> segN None ex_f (q 1 2) 0 (-1) = Ok i ->
               size r = 1%nat).
Proof.
  apply (portion_domain None ex_f (q 3 2) (q 1 2)); [reflexivity|reflexivity|].
  intros H. discriminate (f_equal (fun x => Qnum (this x)) H).
Defined.

Section PortionValues.
Context {T : Type} {F : Fragment T} {L : FragmentLaws T}.
Variable oob : option Qc.
Variable f : Piecewise T.

Local Abbreviation P := (cuts f).
Local Abbreviation n := (size f).

Hypothesis Hlen : length P = S n.
Hypothesis Hn : (0 < n)%nat.
Hypothesis HP : increasing P.

Lemma nth_cons_snoc {A : Type} (x y d : A) (l : list A) k :
  nth k ((x :: l) ++ [y]) d
  = match k with
    | O => x
    | S j => if (j <? length l)%nat then nth j l d
             else if (j =? length l)%nat then y else d
    end.
Proof.
  destruct k as [|j]; [reflexivity|]. cbn [app nth].
  destruct (Nat.ltb_spec j (length l)); [now apply app_nth1|].
  destruct (Nat.eqb_spec j (length l)) as [->|]; [apply nth_middle|].
  apply nth_overflow. rewrite length_app. cbn. lia.
Qed.

(** One segment: the window [lo, hi] on the segment that owns [lo]. *)
Lemma same_covers lo hi i :
  (lo < hi)%Qc -> owns f i lo -> (i = (n - 1)%nat \/ (hi < P.[S i])%Qc) ->
  Covers f lo hi
    (seg_portion (seg_at f i) ((lo - P.[i]) * rwidth f i)%Qc
                              ((hi - P.[i]) * rwidth f i)%Qc) true.
Proof.
  intros Hlt Ho Hsame. exists i. destruct Ho as [Hi Ho]. split.
  - intros u. rewrite eval_portion. f_equal. unfold local, rwidth.
    pose proof (width_pos f Hlen Hn HP i Hi). field. qlra.
  - intros t Ht Hle.
    assert (Hth : (t <= hi)%Qc) by (destruct Hle as [?|[_ ->]]; qlra).
    destruct Ho as [[H1 ->]|[[H1 ->]|[H1 H2]]].
    + destruct Hsame as [E|Hh].
      * rewrite E. destruct (Qclt_le_dec t P.[1]).
        -- replace (n - 1)%nat with 0%nat by lia. now apply owns_first.
        -- apply owns_last; [assumption..|].
           assert (P.[0] < P.[1])%Qc by (apply HP; lia).
           replace (n - 1)%nat with 0%nat by lia. qlra.
      * apply owns_first; [assumption|]. qlra.
    + apply owns_after; [assumption..|]. qlra.
    + destruct Hsame as [->|Hh].
      * apply owns_last; [assumption..|]. qlra.
      * apply owns_inside; [assumption|qlra|qlra].
Qed.

(** Several segments: the tail of the first one touched. *)
Lemma first_covers lo i :
  owns f i lo -> (S i < n)%nat ->
  Covers f lo P.[S i] (seg_portion (seg_at f i) (local f i lo) 1%Qc) false.
Proof.
  intros [Hi Ho] Hsi. exists i. split.
  - intros u. rewrite eval_portion. f_equal. unfold local.
    pose proof (width_pos f Hlen Hn HP i Hi). field. qlra.
  - intros t Ht [Hlt|[Hc _]]; [|discriminate].
    destruct Ho as [[H1 ->]|[[H1 ->]|[H1 H2]]].
    + apply owns_first; assumption.
    + lia.
    + apply owns_inside; [assumption|qlra|assumption].
Qed.

(** Several segments: the head of the last one touched. *)
Lemma last_covers hi fi :
  owns f fi hi -> (0 < fi)%nat -> (P.[fi] < hi)%Qc ->
  Covers f P.[fi] hi (seg_portion (seg_at f fi) 0%Qc (local f fi hi)) true.
Proof.
  intros [Hi Ho] Hfi Hlt. exists fi. split.
  - intros u. rewrite eval_portion. f_equal. unfold local.
    pose proof (width_pos f Hlen Hn HP fi Hi). field. qlra.
  - intros t Ht Hle.
    assert (Hth : (t <= hi)%Qc) by (destruct Hle as [?|[_ ->]]; qlra).
    destruct Ho as [[H1 ->]|[[H1 ->]|[H1 H2]]].
    + lia.
    + apply owns_last; assumption.
    + apply owns_inside; [assumption|assumption|qlra].
Qed.

(** The segments in between are copies. *)
Lemma whole_covers j :
  (j < n)%nat -> Covers f P.[j] P.[S j] (seg_at f j) false.
Proof.
  intros Hj. apply Piece_covers; try assumption.
  - now apply piece_whole.
  - discriminate.
Qed.

Lemma portion_ordered_valueAt lo hi t :
  (lo < hi)%Qc ->
  (forall k, (0 < k < n)%nat -> hi <> P.[k]) ->
  (lo <= t)%Qc -> (t <= hi)%Qc ->
  exists r v, portion_ordered oob f lo hi = Ok r /\
              valueAt oob r t = Ok v /\ valueAt oob f t = Ok v.
Proof.
  intros Hlt Hint Ht1 Ht2.
  destruct (owns_exists oob f Hlen Hn HP lo) as (i & Ho).
  assert (Hin : (i < n)%nat) by apply Ho.
  assert (Hsame : forall r,
            r = mkPiecewise [lo; hi]
                  [seg_portion (seg_at f i) ((lo - P.[i]) * rwidth f i)%Qc
                                            ((hi - P.[i]) * rwidth f i)%Qc] ->
            (i = (n - 1)%nat \/ (hi < P.[S i])%Qc) ->
            exists v, valueAt oob r t = Ok v /\ valueAt oob f t = Ok v).
  { intros r -> Hs. apply covered_valueAt; try assumption; cbn [cuts segs size length nth].
    - reflexivity.
    - lia.
    - intros k Hk. cbn in Hk. assert (k = 0)%nat as -> by lia. exact Hlt.
    - intros k Hk. assert (k = 0)%nat as -> by lia. now apply same_covers. }
  destruct (Nat.eq_dec i (n - 1)) as [Elast|Hnl];
    [|destruct (Qclt_le_dec hi P.[S i]) as [Hh|Hh]].
  - destruct (Hsame _ eq_refl (or_introl Elast)) as (v & Hv1 & Hv2).
    eexists; exists v.
    split; [apply (portion_same oob f Hlen Hn HP lo hi i); auto|split; eassumption].
  - destruct (Hsame _ eq_refl (or_intror Hh)) as (v & Hv1 & Hv2).
    eexists; exists v.
    split; [apply (portion_same oob f Hlen Hn HP lo hi i); auto|split; eassumption].
  - destruct (portion_multi oob f Hlen Hn HP lo hi i) as (fi & Hofi & Hle & Hr);
      try assumption; [lia|].
    assert (Hfn : (fi < n)%nat) by apply Hofi.
    assert (Hne : hi <> P.[fi]) by (apply Hint; lia).
    apply Qc_eq_bool_neq in Hne. rewrite Hne in Hr. apply Qc_eq_bool_neq in Hne.
    assert (Hfl : (P.[fi] < hi)%Qc).
    { destruct Hofi as [_ [[H1 ->]|[[H1 ->]|[H1 H2]]]]; [lia| |qlra].
      assert (P.[n - 1] < P.[n])%Qc by (apply increasing_lt; [assumption|lia]). qlra. }
    set (sl := slice P (S i) (S fi)) in *.
    set (ssl := slice (segs f) (S i) fi) in *.
    assert (Hsl : length sl = (fi - i)%nat) by (unfold sl; rewrite length_slice; lia).
    assert (Hssl : length ssl = (fi - i - 1)%nat)
      by (unfold ssl; rewrite length_slice; unfold size in *; lia).
    assert (Hsln : forall j, (j < fi - i)%nat -> sl.[j] = P.[S i + j])
      by (intros j Hj; unfold sl; apply nth_slice; lia).
    assert (Hssln : forall j, (j < fi - i - 1)%nat ->
              nth j ssl seg_default = seg_at f (S i + j))
      by (intros j Hj; unfold ssl; apply nth_slice; unfold size in *; lia).
    match type of Hr with _ = Ok ?x => set (r := x) in * end.
    assert (Hrl : length (cuts r) = S (size r)).
    { unfold r, size. cbn [cuts segs]. rewrite !length_app. cbn [length].
      rewrite ?length_app. cbn [length]. lia. }
    assert (Hrs : size r = S (fi - i)).
    { unfold r, size. cbn [segs]. rewrite !length_app. cbn [length].
      rewrite ?length_app. cbn [length]. lia. }
    assert (Hc : forall k, (cuts r).[k]
              = match k with
                | O => lo
                | S j => if (j <? fi - i)%nat then P.[S i + j]
                         else if (j =? fi - i)%nat then hi else 0%Qc
                end).
    { intros k. unfold r. cbn [cuts]. rewrite nth_cons_snoc. destruct k as [|j]; [reflexivity|].
      rewrite Hsl. destruct (Nat.ltb_spec j (fi - i)); [now apply Hsln|reflexivity]. }
    assert (Hs : forall k, seg_at r k
              = match k with
                | O => seg_portion (seg_at f i) (local f i lo) 1%Qc
                | S j => if (j <? fi - i - 1)%nat then seg_at f (S i + j)
                         else if (j =? fi - i - 1)%nat
                              then seg_portion (seg_at f fi) 0%Qc (local f fi hi)
                              else seg_default
                end).
    { intros k. unfold r, seg_at at 1. cbn [segs]. rewrite nth_cons_snoc.
      destruct k as [|j]; [reflexivity|].
      rewrite Hssl. destruct (Nat.ltb_spec j (fi - i - 1)); [now apply Hssln|reflexivity]. }
    exists r.
    destruct (covered_valueAt oob f Hlen Hn HP r t) as (v & Hv1 & Hv2); try assumption.
    + lia.
    + intros k Hk. rewrite Hrl in Hk. rewrite !Hc. destruct k as [|j].
      * destruct (Nat.ltb_spec 0 (fi - i)); [|lia]. rewrite Nat.add_0_r.
        destruct Ho as [_ [[H1 ->]|[[H1 ->]|[H1 H2]]]]; [|lia|assumption].
        apply Qclt_trans with P.[0]; [assumption|]. apply HP. lia.
      * destruct (Nat.ltb_spec j (fi - i)); [|lia].
        destruct (Nat.ltb_spec (S j) (fi - i)).
        -- replace (S i + S j)%nat with (S (S i + j)) by lia. apply HP. lia.
        -- destruct (Nat.eqb_spec (S j) (fi - i)); [|lia].
           replace (S i + j)%nat with fi by lia. exact Hfl.
    + intros k Hk. rewrite Hrs in Hk. rewrite !Hc, Hs, Hrs. destruct k as [|j].
      * destruct (Nat.ltb_spec 0 (fi - i)); [|lia]. rewrite Nat.add_0_r.
        destruct (Nat.eqb_spec 0 (S (fi - i) - 1)); [lia|].
        apply first_covers; [assumption|lia].
      * destruct (Nat.ltb_spec j (fi - i)); [|lia].
        destruct (Nat.ltb_spec j (fi - i - 1)).
        -- destruct (Nat.ltb_spec (S j) (fi - i)); [|lia].
           destruct (Nat.eqb_spec (S j) (S (fi - i) - 1)); [lia|].
           replace (S i + S j)%nat with (S (S i + j)) by lia.
           apply whole_covers. lia.
        -- destruct (Nat.eqb_spec j (fi - i - 1)); [|lia].
           destruct (Nat.ltb_spec (S j) (fi - i)); [lia|].
           destruct (Nat.eqb_spec (S j) (fi - i)); [|lia].
           destruct (Nat.eqb_spec (S j) (S (fi - i) - 1)); [|lia].
           replace (S i + j)%nat with fi by lia.
           apply last_covers; [assumption|lia|assumption].
    + rewrite Hc, Hrs. destruct (Nat.ltb_spec (fi - i) (fi - i)); [lia|].
      now rewrite Nat.eqb_refl.
    + exists v. auto.
Qed.
End PortionValues.

Section PortionRestricts.
Context {T : Type} {F : Fragment T} {L : FragmentLaws T}.
Variable oob : option Qc.

(** C6 (amended) -- restriction preserves the values: for a non-empty
    [f] that satisfies the invariants, [lo < hi] both inside the domain
    of [f], [hi] not an interior cut of [f], and [lo <= t <= hi],
    [portion(f, lo, hi)] evaluated at [t] equals [f] evaluated at [t]. *)
Theorem portion_valueAt :
  forall (f : Piecewise T) (lo hi t : Qc),
    empty f = false -> invariants oob f = Ok true ->
    in_domain oob f lo -> in_domain oob f hi ->
    (lo < hi)%Qc ->
    (forall k, (0 < k < size f)%nat -> hi <> (cuts f).[k]) ->
    (lo <= t)%Qc -> (t <= hi)%Qc ->
    exists r v, portion oob f lo hi = Ok r /\
                valueAt oob r t = Ok v /\ valueAt oob f t = Ok v.
Proof.
  intros f lo hi t He Hi _ _ Hlt Hint Ht1 Ht2.
  destruct (proper_inv oob f (conj He Hi)) as (Hlen & Hn & HP).
  assert (Hne : lo <> hi) by qlra.
  rewrite (portion_unfold oob f lo hi He Hne).
  assert (Qcmin lo hi = lo) as ->.
  { unfold Qcmin. dbl_case (hi <? lo)%dbl; [qlra|reflexivity]. }
  assert (Qcmax lo hi = hi) as ->.
  { unfold Qcmax. dbl_case (lo <? hi)%dbl; [reflexivity|qlra]. }
  now apply portion_ordered_valueAt.
Qed.
End PortionRestricts.

(** With [lo = hi] the portion is the empty function, and evaluating it
    reads a segment that is not there: C6 as stated fails at
    [lo = hi = t = 1/2], where [f] itself has the value 2. *)
Lemma portion_point_loses_value :
  exists r, portion None ex_f (q 1 2) (q 1 2) = Ok r /\
            valueAt None r (q 1 2) = Fault OutOfRange /\
            valueAt None ex_f (q 1 2) = Ok (q 2 1).
Proof.
  exists pw_empty. split; [reflexivity|]. split; [reflexivity|].
  vm_compute. reflexivity.
Qed.

(** When [hi] is an interior cut, the container that [portion] returns
    has as many cuts as segments, and evaluating it reads a cut past the
    end. *)
Lemma portion_to_interior_cut_loses_value :
  exists r, portion None ex_f (q 1 2) (q 1 1) = Ok r /\
            valueAt None r (q 3 4) = Fault OutOfRange.
Proof. eexists. split; vm_compute; reflexivity. Qed.

Lemma portion_valueAt_witness :
  exists r v, portion None ex_f (q 1 2) (q 3 2) = Ok r /\
              valueAt None r (q 1 1) = Ok v /\ valueAt None ex_f (q 1 1) = Ok v.
Proof.
  apply (portion_valueAt None ex_f (q 1 2) (q 3 2) (q 1 1)).
  - reflexivity.
  - reflexivity.
  - eexists. split; [reflexivity|]. split; apply Qcleb_le; reflexivity.
  - eexists. split; [reflexivity|]. split; apply Qcleb_le; reflexivity.
  - apply Qcltb_lt. reflexivity.
  - intros k Hk. cbn in Hk. assert (k = 1)%nat as -> by lia.
    apply Qc_eq_bool_neq. reflexivity.
  - apply Qcleb_le. reflexivity.
  - apply Qcleb_le. reflexivity.
Defined.

(* ================================================================== *)
(** * Operations that do keep the invariants *)
(* ================================================================== *)

Section KeepInvariants.
Context {T : Type} {F : Fragment T}.
Variable oob : option Qc.
Implicit Types (a b p r : Piecewise T).

Lemma well_formed_intro p :
  length (cuts p) = S (size p) -> increasing (cuts p) -> invariants oob p = Ok true.
Proof. intros Hl Hi. apply invariants_true. split; [now left|assumption]. Qed.

Lemma of_seg_invariants (s : T) :
  exists r, of_seg oob s = Ok r /\ invariants oob r = Ok true.
Proof.
  eexists. split; [reflexivity|]. apply well_formed_intro; [reflexivity|].
  intros i Hi. cbn in Hi. assert (i = 0)%nat as -> by lia.
  apply Qcltb_lt. reflexivity.
Qed.

Lemma push_invariants p s to r :
  invariants oob p = Ok true -> push oob p s to = Ok r -> invariants oob r = Ok true.
Proof.
  intros Hp Hr. apply invariants_true in Hp. destruct Hp as [_ Hinc].
  unfold push in Hr.
  destruct (Nat.eqb_spec (length (cuts p)) (S (length (segs p)))) as [E|E];
    cbn [assert bind] in Hr; [|discriminate].
  assert (Hne : cuts p <> []) by (destruct (cuts p); [discriminate|discriminate]).
  unfold push_cut in Hr. cbn [cuts push_seg] in Hr.
  destruct (cuts p) as [|x l] eqn:Ec; [congruence|]. rewrite <- Ec in *.
  rewrite (vback_last oob _ 0%Qc Hne) in Hr. cbn [bind] in Hr.
  revert Hr. dbl_case (last (cuts p) 0%Qc <? to)%dbl; cbn [assert bind]; [|discriminate].
  intros [= <-]. apply well_formed_intro; cbn [cuts segs].
  - unfold size, push_back. cbn [segs]. rewrite !length_app. cbn. lia.
  - apply increasing_snoc; [assumption|]. intros d _.
    rewrite (last_nth _ d Hne), (nth_indep _ d 0%Qc), <- (last_nth _ 0%Qc Hne);
      [assumption|lia].
Qed.

Lemma offsetDomain_invariants p o :
  empty p = false -> invariants oob p = Ok true ->
  exists r, offsetDomain oob p o = Ok r /\ invariants oob r = Ok true.
Proof.
  intros He Hi. destruct (proper_inv oob p (conj He Hi)) as (Hlen & Hn & HP).
  rewrite offsetDomain_ok by assumption. eexists; split; [reflexivity|].
  apply well_formed_intro; cbn [cuts segs].
  - unfold size. cbn [segs]. now rewrite length_map.
  - apply increasing_map; [|assumption]. intros x y Hxy. qlra.
Qed.

Lemma partition_invariants pw c :
  empty pw = false -> invariants oob pw = Ok true ->
  c <> [] -> increasing c -> read_past_end_harmless oob pw c ->
  exists r, partition oob pw c = Ok r /\ empty r = false /\ invariants oob r = Ok true.
Proof.
  intros He Hi Hne Hc Hs. destruct (proper_inv oob pw (conj He Hi)) as (Hlen & Hn & HP).
  assert (Hm : (0 < length c)%nat) by (destruct c; [congruence|cbn; lia]).
  destruct (partition_spec oob pw c Hlen Hn HP Hc Hm Hs) as (r & Hr & Hp).
  destruct (partitioned_proper pw c r Hlen Hn HP Hp) as (Hl & Hrn & Hri & _).
  exists r. split; [assumption|]. split.
  - unfold empty. unfold size in Hrn. destruct (segs r); [cbn in Hrn; lia|reflexivity].
  - now apply well_formed_intro.
Qed.

Lemma pointwise_invariants (op : T -> T -> T) a b :
  proper oob a -> proper oob b ->
  read_past_end_harmless oob a (cuts b) -> read_past_end_harmless oob b (cuts a) ->
  exists r, pointwise oob op a b = Ok r /\ invariants oob r = Ok true.
Proof.
  intros Ha Hb Hsa Hsb.
  destruct (proper_inv oob a Ha) as (Hla & Hna & HPa).
  destruct (proper_inv oob b Hb) as (Hlb & Hnb & HPb).
  destruct (partition_cuts_agree oob a b Ha Hb Hsa Hsb)
    as (pa & pb & Hpa & Hpb & Hcuts & Ppa & Ppb).
  destruct (partitioned_proper a (cuts b) pa Hla Hna HPa Ppa) as (Hl1 & Hn1 & Hi1 & _).
  destruct (partitioned_proper b (cuts a) pb Hlb Hnb HPb Ppb) as (Hl2 & Hn2 & Hi2 & _).
  assert (Hsz : size pa = size pb) by (rewrite Hcuts in Hl1; lia).
  destruct (pointwise_loop op pa pb Hsz) as (r & Hr & Hrc & Hrs & _).
  exists r. split.
  - unfold pointwise. rewrite Hpa, Hpb. cbn [bind].
    rewrite Hsz, Nat.eqb_refl. cbn [assert bind]. rewrite <- Hsz. exact Hr.
  - apply well_formed_intro; rewrite Hrc; [rewrite Hrs|]; assumption.
Qed.

End KeepInvariants.

Section KeepInvariantsCalculus.
Context {T : Type} {F : Fragment T} {L : FragmentLaws T} {C : CalculusLaws T}.
Variable oob : option Qc.
Implicit Types (a : Piecewise T).

Lemma derivative_invariants a :
  empty a = false -> invariants oob a = Ok true ->
  exists r, derivative oob a = Ok r /\ invariants oob r = Ok true.
Proof.
  intros He Hi. destruct (proper_inv oob a (conj He Hi)) as (Hlen & Hn & HP).
  destruct (derivative_ok oob a Hlen) as (d & Hd & Hc & Hs & _).
  exists d. split; [assumption|].
  apply well_formed_intro; rewrite Hc; [rewrite Hs|]; assumption.
Qed.

Lemma integral_invariants a :
  empty a = false -> invariants oob a = Ok true ->
  exists r, integral oob a = Ok r /\ invariants oob r = Ok true.
Proof.
  intros He Hi. destruct (proper_inv oob a (conj He Hi)) as (Hlen & Hn & HP).
  destruct (integral_ok oob a Hlen Hn) as (d & Hd & Hc & Hs & _).
  exists d. split; [assumption|].
  apply well_formed_intro; rewrite Hc; [rewrite Hs|]; assumption.
Qed.
End KeepInvariantsCalculus.


Section KeepInvariantsMore.
Context {T : Type} {F : Fragment T}.
Variable oob : option Qc.
Implicit Types (a f p r : Piecewise T).

(** [remove_short_cuts] keeps a subsequence of the cuts. *)
Lemma remove_short_cuts_invariants f tol :
  empty f = false -> invariants oob f = Ok true ->
  exists r, remove_short_cuts oob f tol = Ok r /\ invariants oob r = Ok true.
Proof.
  intros He Hi. destruct (proper_inv oob f (conj He Hi)) as (Hlen & Hn & HP).
  unfold remove_short_cuts. rewrite (vget_in oob (cuts f) 0 0%Qc) by lia. cbn [bind].
  rewrite push_cut_ok by (cbn; congruence). cbn [bind cuts segs app].
  destruct (for_rule
    (fun i (r : Piecewise T) =>
       length (cuts r) = S (size r) /\ increasing (cuts r) /\
       exists j, (j <= i)%nat /\ last (cuts r) 0%Qc = (cuts f).[j])
    (fun i ret =>
       c1 <- vget oob (cuts f) (i + 1) ;;
       ci <- vget oob (cuts f) i ;;
       if (c1 - ci >=? tol)%dbl then
         s <- sget (segs f) (Z.of_nat i) ;; push oob ret s c1
       else Ok ret)
    (size f) 0 (mkPiecewise [(cuts f).[0]] [])) as (r & Hr & Hl & Hinc & _).
  - split; [reflexivity|]. split; [apply increasing_one|]. exists 0%nat. split; [lia|reflexivity].
  - intros i r Hi' (Hl & Hinc & j & Hj & Hlast). cbn [Nat.add] in Hi'.
    rewrite (vget_in oob (cuts f) (i + 1) 0%Qc) by lia.
    rewrite (vget_in oob (cuts f) i 0%Qc) by lia. cbn [bind]. rewrite Nat.add_1_r.
    destruct (tol <=? (cuts f).[S i] - (cuts f).[i])%dbl.
    + rewrite (sget_at f) by lia. cbn [bind].
      assert (Hlt : forall d, (last (cuts r) d < (cuts f).[S i])%Qc).
      { intros d. assert (Hne : cuts r <> []) by (destruct (cuts r); [discriminate|discriminate]).
        rewrite (last_nth _ d Hne), (nth_indep _ d 0%Qc), <- (last_nth _ 0%Qc Hne), Hlast;
          [|lia].
        apply increasing_lt; [assumption|lia]. }
      rewrite push_ok by (unfold size in Hl; assumption).
      eexists; split; [reflexivity|]. cbn [cuts segs]. split.
      { unfold size. cbn [segs]. rewrite !length_app. cbn. unfold size in Hl. lia. }
      split; [apply increasing_snoc; auto|].
      exists (S i). split; [lia|apply last_last].
    + eexists; split; [reflexivity|]. split; [assumption|]. split; [assumption|].
      exists j. split; [lia|assumption].
  - exists r. split; [assumption|]. now apply well_formed_intro.
Qed.

(** [a[i] = g(a[i])] for every segment changes neither the cuts nor the
    number of segments. *)
Lemma update_segs_shape (g : T -> T) a :
  exists r, update_segs g a = Ok r /\ cuts r = cuts a /\ size r = size a.
Proof.
  unfold update_segs.
  destruct (for_rule
    (fun (i : nat) (r : Piecewise T) => cuts r = cuts a /\ size r = size a)
    (fun i r => s <- sget (segs r) (Z.of_nat i) ;;
                ss <- vset (segs r) i (g s) ;;
                Ok (mkPiecewise (cuts r) ss))
    (size a) 0 a) as (r & Hr & Hc & Hs).
  - split; reflexivity.
  - intros i r Hi [Hc Hs]. cbn [Nat.add] in Hi.
    rewrite (sget_at r) by lia. cbn [bind].
    rewrite vset_in by (unfold size in *; lia). cbn [bind].
    eexists; split; [reflexivity|]. cbn [cuts]. split; [assumption|].
    unfold size in *. cbn [segs]. rewrite length_app, length_firstn. cbn [length].
    rewrite length_skipn. lia.
  - exists r. auto.
Qed.

(** [a += b] on the empty function makes the constant [b] over [0,1]. *)
Lemma add_value_assign_invariants a (b : Qc) r :
  invariants oob a = Ok true -> add_value_assign oob a b = Ok r ->
  invariants oob r = Ok true.
Proof.
  intros Hi Hr. unfold add_value_assign in Hr.
  destruct (empty a) eqn:He.
  - destruct (push_cut oob a 0%Qc) as [a1|] eqn:E1; cbn [bind] in Hr; [|discriminate].
    apply push_cut_inv in E1. subst a1.
    unfold push in Hr. cbn [cuts segs] in Hr.
    unfold empty in He. destruct (segs a) as [|s ss] eqn:Es; [|discriminate].
    destruct (cuts a) as [|x l] eqn:Ec.
    + cbn in Hr. injection Hr as <-. apply well_formed_intro; [reflexivity|].
      intros i Hi'. cbn in Hi'. assert (i = 0)%nat as -> by lia.
      apply Qcltb_lt. reflexivity.
    + cbn [app length] in Hr. rewrite length_app in Hr. cbn [length] in Hr.
      replace (S (length l + 1) =? 1)%nat with false in Hr; [discriminate|].
      symmetry. apply Nat.eqb_neq. lia.
  - destruct (proper_inv oob a (conj He Hi)) as (Hlen & Hn & HP).
    destruct (update_segs_shape (fun s => seg_offset s b) a) as (r' & Hr' & Hc & Hs).
    rewrite Hr' in Hr. injection Hr as <-.
    apply well_formed_intro; rewrite Hc; [rewrite Hs|]; assumption.
Qed.
End KeepInvariantsMore.

(* ================================================================== *)
(** * Quotients of doubles *)
(* ================================================================== *)

Lemma Qcdiv_lt_r (a b c : Qc) : 0 < c -> a < b * c -> a / c < b.
Proof. intros Hc H. qc2q. now apply Qlt_shift_div_r. Qed.

Lemma Qcdiv_lt_l (a b c : Qc) : 0 < c -> a * c < b -> a < b / c.
Proof. intros Hc H. qc2q. now apply Qlt_shift_div_l. Qed.

Lemma Qcdiv_le_r (a b c : Qc) : 0 < c -> a <= b * c -> a / c <= b.
Proof. intros Hc H. qc2q. now apply Qle_shift_div_r. Qed.

Lemma Qcdiv_le_l (a b c : Qc) : 0 < c -> a * c <= b -> a <= b / c.
Proof. intros Hc H. qc2q. now apply Qle_shift_div_l. Qed.

Lemma Qcmult_pos (a b : Qc) : 0 < a -> 0 < b -> 0 < a * b.
Proof. intros Ha Hb. qc2q. now apply Qmult_lt_0_compat. Qed.

Lemma Qc_pos_neq0 (c : Qc) : 0 < c -> c <> 0.
Proof. intros H E. rewrite E in H. discriminate. Qed.

(* ================================================================== *)
(** * Locating a time and evaluating there *)
(* ================================================================== *)

Section Locate.
Context {T : Type} {F : Fragment T}.
Variable oob : option Qc.
Implicit Types (p : Piecewise T).

Lemma owns_cases p i t :
  length (cuts p) = S (size p) -> increasing (cuts p) -> owns p i t ->
  (i < size p)%nat /\
  (t < (cuts p).[0] -> i = 0%nat) /\
  ((cuts p).[size p] <= t -> i = (size p - 1)%nat) /\
  ((cuts p).[0] <= t -> t < (cuts p).[size p] ->
   (cuts p).[i] <= t /\ t < (cuts p).[S i]).
Proof.
  intros Hlen HP [Hi Ho]. split; [assumption|].
  assert (H0 : (cuts p).[0] <= (cuts p).[i]) by (apply increasing_le; [assumption|lia]).
  assert (Hn : (cuts p).[S i] <= (cuts p).[size p]) by (apply increasing_le; [assumption|lia]).
  assert (H0n : (cuts p).[0] < (cuts p).[size p]) by (apply increasing_lt; [assumption|lia]).
  destruct Ho as [[Ht ->]|[[Ht ->]|[Hlo Hhi]]].
  - repeat split; intros; try lia; qlra.
  - repeat split; intros; try lia; qlra.
  - split; [intros; qlra|]. split; [intros; qlra|]. intros; split; assumption.
Qed.

(** X1 -- [segN] finds the segment that holds a time.  On a non-empty
    function that satisfies the invariants the binary search returns, for
    every [t], an index [i] below [size()]: 0 when [t] lies before the
    first cut, [size() - 1] when [t] is at or after the last cut, and
    otherwise the one segment with [cuts[i] <= t < cuts[i+1]] (a time on
    an interior cut belongs to the segment that starts there). *)
Theorem segN_finds_segment :
  forall p t,
    empty p = false -> invariants oob p = Ok true ->
    exists i,
      segN oob p t 0 (-1) = Ok (Z.of_nat i) /\ (i < size p)%nat /\
      (t < (cuts p).[0] -> i = 0%nat) /\
      ((cuts p).[size p] <= t -> i = (size p - 1)%nat) /\
      ((cuts p).[0] <= t -> t < (cuts p).[size p] ->
       (cuts p).[i] <= t /\ t < (cuts p).[S i]).
Proof.
  intros p t He Hi.
  destruct (proper_inv oob p (conj He Hi)) as (Hlen & Hn & HP).
  destruct (segN_owner oob p Hlen Hn HP t 0 Hn (or_introl eq_refl)) as (i & Hs & Ho & _).
  exists i. split; [exact Hs|]. now apply owns_cases.
Qed.

(** X2 -- [segT] and [mapToDomain] are inverse to each other on every
    segment of a non-empty function that satisfies the invariants: the
    global time of local time [x] on segment [i] has local time [x]
    there, and the local time of a global time [x] maps back to [x]. *)
Theorem segT_mapToDomain_round_trip :
  forall p i x,
    empty p = false -> invariants oob p = Ok true -> (i < size p)%nat ->
    (exists t, mapToDomain oob p x i = Ok t /\ segT oob p t (Z.of_nat i) = Ok x) /\
    (exists u, segT oob p x (Z.of_nat i) = Ok u /\ mapToDomain oob p u i = Ok x).
Proof.
  intros p i x He Hi Hlt.
  destruct (proper_inv oob p (conj He Hi)) as (Hlen & Hn & HP).
  assert (Hw := width_pos p Hlen Hn HP i Hlt).
  assert (Hne : (cuts p).[S i] - (cuts p).[i] <> 0) by (intros E; rewrite E in Hw; discriminate).
  assert (Hm : forall y, mapToDomain oob p y i
                 = Ok ((1 - y) * (cuts p).[i] + y * (cuts p).[S i])).
  { intros y. unfold mapToDomain.
    rewrite (vget_in oob (cuts p) i 0) by lia.
    rewrite (vget_in oob (cuts p) (i + 1) 0) by lia. cbn [bind].
    now rewrite Nat.add_1_r. }
  split.
  - eexists. split; [apply Hm|]. rewrite (segT_at oob p Hlen _ i Hlt).
    f_equal. field. exact Hne.
  - eexists. split; [apply (segT_at oob p Hlen _ i Hlt)|]. rewrite Hm.
    f_equal. field. exact Hne.
Qed.

(** X3 -- evaluating on a cut.  On a non-empty function that satisfies
    the invariants, the value at the cut [cuts[k]] is the value of
    segment [k] at its local time 0; only at the last cut is it the value
    of the last segment at its local time 1.  So at an interior cut the
    segment to the right decides. *)
Theorem valueAt_at_cut :
  forall p k,
    empty p = false -> invariants oob p = Ok true -> (k <= size p)%nat ->
    valueAt oob p (cuts p).[k]
    = Ok (if (k <? size p)%nat then eval (seg_at p k) 0
          else eval (seg_at p (size p - 1)) 1).
Proof.
  intros p k He Hi Hk.
  destruct (proper_inv oob p (conj He Hi)) as (Hlen & Hn & HP).
  destruct (Nat.ltb_spec k (size p)) as [Hlt|Hge].
  - assert (Hw := width_pos p Hlen Hn HP k Hlt).
    rewrite (valueAt_owner oob p Hlen Hn HP _ k).
    + f_equal. f_equal. unfold local. unfold Qcdiv.
      replace ((cuts p).[k] - (cuts p).[k]) with 0 by ring. ring.
    + apply owns_inside; [assumption|apply Qcle_refl|].
      apply increasing_lt; [assumption|lia].
  - assert (k = size p) as -> by lia.
    assert (Hlt : (size p - 1 < size p)%nat) by lia.
    assert (Hw := width_pos p Hlen Hn HP _ Hlt).
    rewrite (valueAt_owner oob p Hlen Hn HP _ (size p - 1)).
    + f_equal. f_equal. unfold local.
      replace (S (size p - 1)) with (size p) in * by lia.
      field. intros E. rewrite E in Hw. discriminate.
    + apply owns_after; [assumption|assumption|apply Qcle_refl].
Qed.

(** X4 -- evaluating outside the domain.  A non-empty function that
    satisfies the invariants has a value at every time: before the first
    cut it is the first segment at a negative local time, after the last
    cut the last segment at a local time above 1. *)
Theorem valueAt_outside_domain :
  forall p t,
    empty p = false -> invariants oob p = Ok true ->
    (t < (cuts p).[0] ->
     local p 0 t < 0 /\
     valueAt oob p t = Ok (eval (seg_at p 0) (local p 0 t))) /\
    ((cuts p).[size p] < t ->
     1 < local p (size p - 1) t /\
     valueAt oob p t = Ok (eval (seg_at p (size p - 1)) (local p (size p - 1) t))).
Proof.
  intros p t He Hi.
  destruct (proper_inv oob p (conj He Hi)) as (Hlen & Hn & HP).
  split; intros Ht.
  - assert (Hw := width_pos p Hlen Hn HP 0 Hn).
    split; [|apply (valueAt_owner oob p Hlen Hn HP); now apply owns_before].
    unfold local. apply Qcdiv_lt_r; [exact Hw|]. qlra.
  - assert (Hlt : (size p - 1 < size p)%nat) by lia.
    assert (Hw := width_pos p Hlen Hn HP _ Hlt).
    split; [|apply (valueAt_owner oob p Hlen Hn HP);
             apply owns_after; [assumption|assumption|now apply Qclt_le_weak]].
    unfold local. replace (S (size p - 1)) with (size p) in * by lia.
    apply Qcdiv_lt_l; [exact Hw|]. qlra.
Qed.
End Locate.

Lemma segN_finds_segment_witness :
  exists i,
    segN None ex_f (q 3 2) 0 (-1) = Ok (Z.of_nat i) /\ (i < size ex_f)%nat /\
    (q 3 2 < (cuts ex_f).[0] -> i = 0%nat) /\
    ((cuts ex_f).[size ex_f] <= q 3 2 -> i = (size ex_f - 1)%nat) /\
    ((cuts ex_f).[0] <= q 3 2 -> q 3 2 < (cuts ex_f).[size ex_f] ->
     (cuts ex_f).[i] <= q 3 2 /\ q 3 2 < (cuts ex_f).[S i]).
Proof.
  apply (segN_finds_segment None ex_f (q 3 2)); reflexivity.
Defined.

Lemma segT_mapToDomain_round_trip_witness :
  (exists t, mapToDomain None ex_g (q 1 3) 1 = Ok t /\
             segT None ex_g t (Z.of_nat 1) = Ok (q 1 3)) /\
  (exists u, segT None ex_g (q 1 3) (Z.of_nat 1) = Ok u /\
             mapToDomain None ex_g u 1 = Ok (q 1 3)).
Proof.
  apply (segT_mapToDomain_round_trip None ex_g 1 (q 1 3)); [reflexivity|reflexivity|].
  cbn. lia.
Defined.

Lemma valueAt_at_cut_witness :
  valueAt None ex_f (cuts ex_f).[1]
  = Ok (if (1 <? size ex_f)%nat then eval (seg_at ex_f 1) 0
        else eval (seg_at ex_f (size ex_f - 1)) 1).
Proof.
  apply (valueAt_at_cut None ex_f 1); [reflexivity|reflexivity|].
  cbn. lia.
Defined.

Lemma valueAt_outside_domain_witness :
  (q 5 1 < (cuts ex_f).[0] ->
   local ex_f 0 (q 5 1) < 0 /\
   valueAt None ex_f (q 5 1) = Ok (eval (seg_at ex_f 0) (local ex_f 0 (q 5 1)))) /\
  ((cuts ex_f).[size ex_f] < q 5 1 ->
   1 < local ex_f (size ex_f - 1) (q 5 1) /\
   valueAt None ex_f (q 5 1)
   = Ok (eval (seg_at ex_f (size ex_f - 1)) (local ex_f (size ex_f - 1) (q 5 1)))).
Proof.
  apply (valueAt_outside_domain None ex_f (q 5 1)); reflexivity.
Defined.

(* ================================================================== *)
(** * The self-check and the guarded push *)
(* ================================================================== *)

Section Guards.
Context {T : Type} {F : Fragment T}.
Variable oob : option Qc.
Implicit Types (p : Piecewise T).

Lemma last_default {A : Type} (l : list A) (d d' : A) :
  l <> [] -> last l d = last l d'.
Proof.
  intros H. destruct (exists_last H) as (l' & x & ->). now rewrite !last_last.
Qed.

Lemma cuts_in_order_returns n : forall i cs,
  (i + n < length cs)%nat -> exists b, cuts_in_order oob n i cs = Ok b.
Proof.
  induction n as [|n IH]; intros i cs Hlen; cbn [cuts_in_order]; [now exists true|].
  rewrite (vget_in oob cs i 0) by lia.
  rewrite (vget_in oob cs (i + 1) 0) by lia. cbn [bind].
  destruct (cs.[i + 1] <=? cs.[i])%dbl; [now exists false|].
  apply IH. lia.
Qed.

(** X5 -- [invariants()] decides well-formedness and never reads out of
    range.  For every container, whatever its cuts and segments, the
    check returns a boolean, and that boolean is true exactly when there
    is one cut more than segments (or neither cuts nor segments) and the
    cuts are strictly increasing. *)
Theorem invariants_decides :
  forall p, exists b, invariants oob p = Ok b /\ (b = true <-> well_formed p).
Proof.
  intros p.
  assert (Hb : exists b, invariants oob p = Ok b).
  { unfold invariants, empty.
    destruct (Nat.eqb_spec (length (segs p) + 1) (length (cuts p))) as [E|E];
      cbn [orb negb].
    - apply cuts_in_order_returns. lia.
    - destruct (segs p) as [|s ss]; cbn [andb negb length]; [|now exists false].
      destruct (cuts p); cbn [negb]; [now exists true|now exists false]. }
  destruct Hb as (b & Hb). exists b. split; [exact Hb|].
  rewrite <- (invariants_true oob p), Hb. split; congruence.
Qed.

(** X6 -- [push] goes through exactly when it may.  [push(s, to)]
    returns if and only if the container has one cut more than segments
    and [to] lies after the last cut; the result then has [s] appended to
    the segments and [to] to the cuts.  In every other state one of the
    two assertions stops it. *)
Theorem push_succeeds_iff :
  forall p s to r,
    push oob p s to = Ok r <->
    (length (cuts p) = S (length (segs p)) /\ last (cuts p) 0 < to /\
     r = mkPiecewise (cuts p ++ [to]) (segs p ++ [s])).
Proof.
  intros p s to r. split.
  - unfold push.
    destruct (Nat.eqb_spec (length (cuts p)) (S (length (segs p)))) as [E|E];
      cbn [assert bind]; [|discriminate].
    intros H. split; [exact E|].
    assert (Hr := push_cut_inv oob _ _ _ H). cbn [push_seg cuts segs] in Hr.
    split; [|exact Hr].
    unfold push_cut in H. cbn [push_seg cuts] in H.
    destruct (cuts p) as [|x l] eqn:Ec; [discriminate|].
    rewrite (vback_last oob (x :: l) 0) in H by discriminate. cbn [bind] in H.
    revert H. destruct (last (x :: l) 0 <? to)%dbl eqn:E2; [|discriminate].
    intros _. now apply Qcltb_lt in E2.
  - intros (Hlen & Hlt & ->). apply push_ok; [assumption|].
    intros d. rewrite (last_default (cuts p) d 0); [assumption|].
    destruct (cuts p); [discriminate|discriminate].
Qed.
End Guards.

Lemma push_succeeds_iff_witness :
  push None ex_a [q 5 1] (q 3 1) = Ok (mkPiecewise [q 0 1; q 1 1; q 3 1] [[q 1 1; q 2 1]; [q 5 1]])
  <-> (length (cuts ex_a) = S (length (segs ex_a)) /\ last (cuts ex_a) 0 < q 3 1 /\
       mkPiecewise [q 0 1; q 1 1; q 3 1] [[q 1 1; q 2 1]; [q 5 1]]
       = mkPiecewise (cuts ex_a ++ [q 3 1]) (segs ex_a ++ [[q 5 1]])).
Proof.
  apply (push_succeeds_iff None ex_a [q 5 1] (q 3 1)).
Defined.

(* ================================================================== *)
(** * Moving the domain *)
(* ================================================================== *)

Section DomainMoves.
Context {T : Type} {F : Fragment T}.
Variable oob : option Qc.
Implicit Types (p : Piecewise T).

Lemma last_is_nth {A : Type} (l : list A) (d : A) :
  l <> [] -> last l d = nth (length l - 1) l d.
Proof.
  intros H. destruct (exists_last H) as (l' & y & ->).
  rewrite last_last, length_app. cbn [length]. rewrite Nat.add_sub.
  now rewrite nth_middle.
Qed.

Lemma vback_cuts p :
  length (cuts p) = S (size p) -> vback oob (cuts p) = Ok (cuts p).[size p].
Proof.
  intros Hlen.
  assert (Hne : cuts p <> []) by (destruct (cuts p); [discriminate|discriminate]).
  rewrite (vback_last oob (cuts p) 0 Hne), (last_is_nth _ 0 Hne), Hlen.
  now rewrite Nat.sub_succ, Nat.sub_0_r.
Qed.

Lemma nth_map_cut (f : Qc -> Qc) (l : list Qc) k :
  (k < length l)%nat -> (map f l).[k] = f l.[k].
Proof.
  intros H. rewrite (nth_indep _ 0 (f 0)) by (rewrite length_map; lia).
  apply map_nth.
Qed.

(** The cuts of [p] sent through an increasing affine map, the segments
    kept: the values move with the cuts. *)
Lemma remap_valueAt p (f : Qc -> Qc) (a b : Qc) :
  length (cuts p) = S (size p) -> (0 < size p)%nat -> increasing (cuts p) ->
  0 < a -> (forall c, f c = c * a + b) ->
  let r := mkPiecewise (map f (cuts p)) (segs p) in
  length (cuts r) = S (size r) /\ increasing (cuts r) /\
  forall t, valueAt oob r (f t) = valueAt oob p t.
Proof.
  intros Hlen Hn HP Ha Hf r.
  assert (Hmono : forall x y, x < y -> f x < f y).
  { intros x y Hxy. rewrite !Hf.
    assert (x * a < y * a) by now apply Qcmult_lt_compat_r. qlra. }
  assert (Hmono' : forall x y, x <= y -> f x <= f y).
  { intros x y Hxy. rewrite !Hf.
    assert (x * a <= y * a) by (apply Qcmult_le_compat_r; [assumption|now apply Qclt_le_weak]).
    qlra. }
  assert (Hlen' : length (cuts r) = S (size r)).
  { subst r. cbn [cuts]. unfold size in *. cbn [segs]. now rewrite length_map. }
  assert (HP' : increasing (cuts r)) by (subst r; cbn [cuts]; now apply increasing_map).
  assert (Hn' : (0 < size r)%nat) by exact Hn.
  split; [assumption|]. split; [assumption|].
  intros t.
  destruct (owns_exists oob p Hlen Hn HP t) as (i & Ho).
  assert (Hi : (i < size p)%nat) by apply Ho.
  assert (Hc : forall k, (k <= size p)%nat -> (cuts r).[k] = f (cuts p).[k]).
  { intros k Hk. subst r. cbn [cuts]. apply nth_map_cut. lia. }
  assert (Ho' : owns r i (f t)).
  { split; [exact Hi|]. change (size r) with (size p).
    rewrite !Hc by lia.
    destruct Ho as [_ [[Ht ->]|[[Ht ->]|[Hlo Hhi]]]].
    - left. split; [now apply Hmono|reflexivity].
    - right; left. split; [now apply Hmono'|reflexivity].
    - right; right. split; [now apply Hmono'|now apply Hmono]. }
  rewrite (valueAt_owner oob r Hlen' Hn' HP' _ i Ho').
  rewrite (valueAt_owner oob p Hlen Hn HP _ i Ho).
  f_equal. unfold seg_at. change (segs r) with (segs p). f_equal.
  unfold local. rewrite !Hc by lia. rewrite !Hf.
  assert (Hw := width_pos p Hlen Hn HP i Hi).
  field. split; [now apply Qc_pos_neq0|].
  replace ((cuts p).[S i] * a + b - ((cuts p).[i] * a + b))
    with (((cuts p).[S i] - (cuts p).[i]) * a) by ring.
  apply Qc_pos_neq0. apply Qcmult_pos; assumption.
Qed.

(** X7 -- [offsetDomain] moves the function along.  On a non-empty
    function that satisfies the invariants, [offsetDomain(o)] returns for
    every offset, adds [o] to every cut, keeps the invariants, and the
    moved function takes at [t + o] the value the original takes at
    [t]. *)
Theorem offsetDomain_valueAt :
  forall p o,
    empty p = false -> invariants oob p = Ok true ->
    exists r,
      offsetDomain oob p o = Ok r /\
      cuts r = map (fun c => c + o) (cuts p) /\
      invariants oob r = Ok true /\
      forall t, valueAt oob r (t + o) = valueAt oob p t.
Proof.
  intros p o He Hi.
  destruct (proper_inv oob p (conj He Hi)) as (Hlen & Hn & HP).
  rewrite (offsetDomain_ok oob p o Hlen). eexists. split; [reflexivity|].
  split; [reflexivity|].
  destruct (Qc_eq_dec o 0) as [->|Hne].
  - assert (E : map (fun c => c + 0) (cuts p) = cuts p).
    { rewrite <- (map_id (cuts p)) at 2. apply map_ext. intros c. ring. }
    rewrite E. destruct p as [cs ss]. cbn [cuts segs]. split; [exact Hi|].
    intros t. f_equal. ring.
  - assert (Hmove : forall c, (fun c => c + o) c = c * 1 + o) by (intros c; ring).
    destruct (remap_valueAt p (fun c => c + o) 1 o Hlen Hn HP eq_refl Hmove)
      as (Hlen' & HP' & Hv).
    split; [now apply well_formed_intro|]. exact Hv.
Qed.

(** X8 -- [scaleDomain] stretches the function.  On a non-empty function
    that satisfies the invariants and for a factor [s > 0],
    [scaleDomain(s)] returns, multiplies every cut by [s], keeps the
    invariants, and the stretched function takes at [t * s] the value the
    original takes at [t]. *)
Theorem scaleDomain_valueAt :
  forall p s,
    empty p = false -> invariants oob p = Ok true -> 0 < s ->
    exists r,
      scaleDomain oob p s = Ok r /\
      cuts r = map (fun c => c * s) (cuts p) /\
      invariants oob r = Ok true /\
      forall t, valueAt oob r (t * s) = valueAt oob p t.
Proof.
  intros p s He Hi Hs.
  destruct (proper_inv oob p (conj He Hi)) as (Hlen & Hn & HP).
  rewrite (scaleDomain_pos oob p s Hlen Hs). eexists. split; [reflexivity|].
  split; [reflexivity|].
  assert (Hmove : forall c, (fun c => c * s) c = c * s + 0) by (intros c; ring).
  destruct (remap_valueAt p (fun c => c * s) s 0 Hlen Hn HP Hs Hmove)
    as (Hlen' & HP' & Hv).
  split; [now apply well_formed_intro|]. exact Hv.
Qed.

Lemma vset_out {A : Type} (v : list A) i x :
  (length v <= i)%nat -> vset v i x = Fault OutOfRange.
Proof.
  revert i; induction v as [|y v IH]; intros i H; [reflexivity|].
  destruct i as [|i]; cbn in H; [lia|]. cbn [vset]. rewrite IH by lia. reflexivity.
Qed.

Lemma length_vset_ok {A : Type} (v v' : list A) i x :
  vset v i x = Ok v' -> length v' = length v.
Proof.
  revert i v'; induction v as [|y v IH]; intros i v' H; [discriminate|].
  destruct i as [|i]; cbn [vset] in H.
  - injection H as <-. reflexivity.
  - destruct (vset v i x) as [w|] eqn:E; [|discriminate]. cbn [bind] in H.
    injection H as <-. cbn [length]. f_equal. now apply (IH i).
Qed.

(** The loop [for(i = 0; i <= size(); i++) cuts[i] = ...] on a container
    with too few cuts: it runs off the end of the cuts. *)
Lemma map_cuts_short (f : Qc -> Qc) p :
  (length (cuts p) <= size p)%nat -> map_cuts oob f p = Fault OutOfRange.
Proof.
  intros Hshort. unfold map_cuts.
  set (body := fun (i : nat) (q : Piecewise T) =>
                 c <- vget oob (cuts q) i ;;
                 cs <- vset (cuts q) i (f c) ;;
                 Ok (mkPiecewise cs (segs q))).
  assert (H : forall n lo (q : Piecewise T),
             (lo <= length (cuts q) < lo + n)%nat ->
             for_loop lo n body q = Fault OutOfRange).
  { induction n as [|n IH]; intros lo q Hq; [lia|]. cbn [for_loop].
    destruct (Nat.eq_dec lo (length (cuts q))) as [->|Hne].
    - unfold body at 1. unfold vget.
      assert (E : nth_error (cuts q) (length (cuts q)) = None)
        by (apply nth_error_None; lia).
      rewrite E. destruct oob; cbn [bind]; [|reflexivity].
      rewrite vset_out by lia. reflexivity.
    - unfold body at 1.
      rewrite (vget_in oob (cuts q) lo 0) by lia. cbn [bind].
      destruct (vset (cuts q) lo (f (cuts q).[lo])) as [cs|e] eqn:E.
      + cbn [bind]. apply IH. cbn [cuts].
        rewrite (length_vset_ok _ _ _ _ E). lia.
      + rewrite vset_in in E by lia. discriminate. }
  apply H. lia.
Qed.

(** X9 -- a container without enough cuts cannot be moved.  When there
    are no more cuts than segments (the default-constructed container,
    with neither, is the first case), the loops of [offsetDomain] and
    [scaleDomain] run up to index [size()] and so past the end of the
    cuts: a non-zero offset and a positive factor both end in an
    out-of-range access, whatever an out-of-range read would yield. *)
Theorem move_without_cuts_faults :
  forall p x,
    (length (cuts p) <= size p)%nat ->
    (x <> 0 -> offsetDomain oob p x = Fault OutOfRange) /\
    (0 < x -> scaleDomain oob p x = Fault OutOfRange).
Proof.
  intros p x Hshort. split; intros Hx.
  - unfold offsetDomain. apply Qc_eq_bool_neq in Hx. rewrite Hx.
    now apply map_cuts_short.
  - unfold scaleDomain.
    assert (E := proj2 (Qcltb_lt 0 x) Hx). rewrite E. cbn [assert bind].
    assert (Hne : x <> 0) by now apply Qc_pos_neq0.
    apply Qc_eq_bool_neq in Hne. rewrite Hne. now apply map_cuts_short.
Qed.

(** X10 -- [setDomain] lands the domain at [dom] shifted by minus the
    old first cut.  On a non-empty function that satisfies the
    invariants and for an interval with [min < max], [setDomain(dom)]
    returns and keeps the invariants and the segments; every cut [c]
    becomes [(c - cf) * s + (dom.min() - cf)], with [cf] the old first
    cut and [s] the ratio of the widths, so the new domain is
    [dom.min() - cf, dom.max() - cf]: it is [dom] itself when the
    function started at 0.  The new function takes at the image of [t]
    the value the old one takes at [t]. *)
Theorem setDomain_domain :
  forall p dom,
    empty p = false -> invariants oob p = Ok true -> imin dom < imax dom ->
    let cf := (cuts p).[0] in
    let s := extent dom / ((cuts p).[size p] - cf) in
    exists r,
      setDomain oob p dom = Ok r /\
      segs r = segs p /\
      invariants oob r = Ok true /\
      domain oob r = Ok (mkInterval (imin dom - cf) (imax dom - cf)) /\
      (cf = 0 -> domain oob r = Ok dom) /\
      forall t, valueAt oob r ((t - cf) * s + (imin dom - cf)) = valueAt oob p t.
Proof.
  intros p dom He Hi Hdom cf s.
  destruct (proper_inv oob p (conj He Hi)) as (Hlen & Hn & HP).
  assert (Hw : 0 < (cuts p).[size p] - cf).
  { assert ((cuts p).[0] < (cuts p).[size p]) by (apply increasing_lt; [assumption|lia]).
    subst cf. qlra. }
  assert (Hs : 0 < s).
  { subst s. apply Qcdiv_lt_l; [exact Hw|]. unfold extent. qlra. }
  assert (Hne : cuts p <> []) by (destruct (cuts p); [discriminate|discriminate]).
  assert (Hfront : vfront oob (cuts p) = Ok cf).
  { unfold vfront. apply vget_in. lia. }
  assert (Hback := vback_cuts p Hlen).
  set (f := fun c => (c - cf) * s + (imin dom - cf)).
  assert (Hrun : setDomain oob p dom = Ok (mkPiecewise (map f (cuts p)) (segs p))).
  { unfold setDomain. rewrite He.
    assert (E : isEmpty dom = false).
    { unfold isEmpty. apply Qc_eq_bool_neq. qlra. }
    rewrite E, Hfront, Hback. cbn [bind]. now apply map_cuts_ok. }
  assert (Hmove : forall c, f c = c * s + (imin dom - cf - cf * s))
    by (intros c; unfold f; ring).
  destruct (remap_valueAt p f s _ Hlen Hn HP Hs Hmove) as (Hlen' & HP' & Hv).
  exists (mkPiecewise (map f (cuts p)) (segs p)).
  split; [exact Hrun|]. split; [reflexivity|].
  split; [now apply well_formed_intro|].
  assert (Hd : domain oob (mkPiecewise (map f (cuts p)) (segs p))
               = Ok (mkInterval (imin dom - cf) (imax dom - cf))).
  { unfold domain. cbn [cuts].
    assert (Hne' : map f (cuts p) <> []).
    { intros E. apply Hne. now apply map_eq_nil in E. }
    unfold vfront. rewrite (vget_in oob (map f (cuts p)) 0 0) by (rewrite length_map; lia).
    rewrite (vback_last oob _ 0 Hne'). cbn [bind].
    rewrite nth_map_cut by lia.
    assert (El : last (map f (cuts p)) 0 = f (cuts p).[size p]).
    { rewrite (last_is_nth _ 0 Hne'), length_map, Hlen, Nat.sub_succ, Nat.sub_0_r.
      apply nth_map_cut. lia. }
    rewrite El.
    assert (E0 : f (cuts p).[0] = imin dom - cf) by (unfold f; fold cf; ring).
    assert (E1 : f (cuts p).[size p] = imax dom - cf).
    { unfold f, s, extent. field. now apply Qc_pos_neq0. }
    rewrite E0, E1. unfold Interval_of.
    assert (Hle : imin dom - cf <= imax dom - cf) by qlra.
    apply Qcleb_le in Hle. now rewrite Hle. }
  split; [exact Hd|]. split; [|exact Hv].
  intros E0. rewrite Hd, E0. destruct dom as [lo hi]. cbn [imin imax].
  f_equal. f_equal; ring.
Qed.
End DomainMoves.

Lemma offsetDomain_valueAt_witness :
  exists r,
    offsetDomain None ex_f (q 3 1) = Ok r /\
    cuts r = map (fun c => c + q 3 1) (cuts ex_f) /\
    invariants None r = Ok true /\
    forall t, valueAt None r (t + q 3 1) = valueAt None ex_f t.
Proof.
  apply (offsetDomain_valueAt None ex_f (q 3 1)); reflexivity.
Defined.

Lemma scaleDomain_valueAt_witness :
  exists r,
    scaleDomain None ex_f (q 2 1) = Ok r /\
    cuts r = map (fun c => c * q 2 1) (cuts ex_f) /\
    invariants None r = Ok true /\
    forall t, valueAt None r (t * q 2 1) = valueAt None ex_f t.
Proof.
  apply (scaleDomain_valueAt None ex_f (q 2 1)); reflexivity.
Defined.

Lemma move_without_cuts_faults_witness :
  (q 1 1 <> 0 -> offsetDomain None (@pw_empty Poly.poly) (q 1 1) = Fault OutOfRange) /\
  (0 < q 1 1 -> scaleDomain None (@pw_empty Poly.poly) (q 1 1) = Fault OutOfRange).
Proof.
  apply (move_without_cuts_faults None (@pw_empty Poly.poly) (q 1 1)).
  cbn. lia.
Defined.

Lemma setDomain_domain_witness :
  exists r,
    setDomain None ex_b (mkInterval (q 0 1) (q 1 1)) = Ok r /\
    segs r = segs ex_b /\
    invariants None r = Ok true /\
    domain None r = Ok (mkInterval (q 0 1 - q (-2) 1) (q 1 1 - q (-2) 1)) /\
    (q (-2) 1 = 0 -> domain None r = Ok (mkInterval (q 0 1) (q 1 1))) /\
    forall t, valueAt None r ((t - q (-2) 1) * (q 1 1) + (q 0 1 - q (-2) 1))
              = valueAt None ex_b t.
Proof.
  apply (setDomain_domain None ex_b (mkInterval (q 0 1) (q 1 1))); reflexivity.
Defined.

(* ================================================================== *)
(** * Concatenation *)
(* ================================================================== *)

Lemma increasing_app_last (l rest : list Qc) (c d : Qc) :
  increasing (l ++ c :: rest) -> l <> [] -> last l d < c.
Proof.
  intros H Hne. destruct (exists_last Hne) as (l' & y & ->).
  rewrite last_last. specialize (H (length l')).
  rewrite <- app_assoc in H. cbn [app] in H.
  rewrite nth_middle in H.
  replace (l' ++ y :: c :: rest) with ((l' ++ [y]) ++ c :: rest) in H
    by (rewrite <- app_assoc; reflexivity).
  replace (S (length l')) with (length (l' ++ [y])) in H at 2
    by (rewrite length_app; cbn; lia).
  rewrite nth_middle in H. apply H.
  rewrite !length_app. cbn [length]. lia.
Qed.

Lemma nth_tl (l : list Qc) j : (tl l).[j] = l.[S j].
Proof. destruct l; [now destruct j|reflexivity]. Qed.

Lemma length_tl {A : Type} (l : list A) : length (tl l) = (length l - 1)%nat.
Proof. destruct l; cbn; lia. Qed.

Section Concat.
Context {T : Type} {F : Fragment T}.
Variable oob : option Qc.
Variables p other : Piecewise T.

Hypothesis Hlen : length (cuts p) = S (size p).
Hypothesis Hn : (0 < size p)%nat.
Hypothesis HP : increasing (cuts p).
Hypothesis Hleno : length (cuts other) = S (size other).
Hypothesis Hno : (0 < size other)%nat.
Hypothesis HPo : increasing (cuts other).

(** The shift that brings the start of [other] to the end of [p]. *)
Definition join_shift : Qc := (cuts p).[size p] - (cuts other).[0].

(** [p] followed by [other], its cuts shifted and its segments sent
    through [g]. *)
Definition joined (g : T -> T) : Piecewise T :=
  mkPiecewise (cuts p ++ map (fun c => c + join_shift) (tl (cuts other)))
              (segs p ++ map g (segs other)).

Lemma joined_size g : size (joined g) = (size p + size other)%nat.
Proof. unfold size, joined. cbn [segs]. now rewrite length_app, length_map. Qed.

Lemma joined_length g : length (cuts (joined g)) = S (size (joined g)).
Proof.
  rewrite joined_size. unfold joined. cbn [cuts].
  rewrite length_app, length_map, length_tl. lia.
Qed.

Lemma joined_cut_left g k :
  (k <= size p)%nat -> (cuts (joined g)).[k] = (cuts p).[k].
Proof. intros Hk. unfold joined. cbn [cuts]. apply app_nth1. lia. Qed.

Lemma joined_cut_right g j :
  (j <= size other)%nat ->
  (cuts (joined g)).[size p + j] = (cuts other).[j] + join_shift.
Proof.
  intros Hj. destruct j as [|j].
  - rewrite Nat.add_0_r, joined_cut_left by lia. unfold join_shift. ring.
  - unfold joined. cbn [cuts]. rewrite app_nth2 by lia.
    replace (size p + S j - length (cuts p))%nat with j by lia.
    rewrite nth_map_cut by (rewrite length_tl; lia).
    now rewrite nth_tl.
Qed.

Lemma joined_increasing g : increasing (cuts (joined g)).
Proof.
  intros i Hi. rewrite joined_length, joined_size in Hi.
  destruct (Nat.lt_ge_cases i (size p)) as [Hl|Hr].
  - rewrite !joined_cut_left by lia. apply HP. lia.
  - replace i with (size p + (i - size p))%nat at 1 by lia.
    replace (S i) with (size p + S (i - size p))%nat by lia.
    rewrite !joined_cut_right by lia.
    assert ((cuts other).[i - size p] < (cuts other).[S (i - size p)]) by (apply HPo; lia).
    qlra.
Qed.

Lemma joined_seg_left g i : (i < size p)%nat -> seg_at (joined g) i = seg_at p i.
Proof. intros Hi. unfold seg_at, joined. cbn [segs]. now apply app_nth1. Qed.

Lemma joined_seg_right g j :
  (j < size other)%nat -> seg_at (joined g) (size p + j) = g (seg_at other j).
Proof.
  intros Hj. unfold seg_at, joined. cbn [segs]. rewrite app_nth2 by (unfold size; lia).
  replace (size p + j - length (segs p))%nat with j by (unfold size; lia).
  rewrite (nth_indep _ seg_default (g seg_default)) by (rewrite length_map; exact Hj).
  apply map_nth.
Qed.

Lemma joined_valueAt_left g t :
  t < (cuts p).[size p] -> valueAt oob (joined g) t = valueAt oob p t.
Proof.
  intros Ht.
  assert (Hnj : (0 < size (joined g))%nat) by (rewrite joined_size; lia).
  destruct (owns_exists oob p Hlen Hn HP t) as (i & Ho).
  assert (Hi : (i < size p)%nat) by apply Ho.
  assert (Ho' : owns (joined g) i t).
  { destruct Ho as [_ [[Hlt ->]|[[Hge _]|[Hlo Hhi]]]].
    - apply owns_before; [assumption|]. now rewrite joined_cut_left by lia.
    - exfalso. qlra.
    - apply owns_inside; [rewrite joined_size; lia| |];
        now rewrite joined_cut_left by lia. }
  rewrite (valueAt_owner oob _ (joined_length g) Hnj (joined_increasing g) _ i Ho').
  rewrite (valueAt_owner oob p Hlen Hn HP _ i Ho).
  rewrite joined_seg_left by assumption.
  unfold local. now rewrite !joined_cut_left by lia.
Qed.

Lemma joined_valueAt_right g t j :
  (cuts p).[size p] <= t -> owns other j (t - join_shift) ->
  valueAt oob (joined g) t
  = Ok (eval (g (seg_at other j)) (local other j (t - join_shift))).
Proof.
  intros Ht Ho.
  assert (Hnj : (0 < size (joined g))%nat) by (rewrite joined_size; lia).
  assert (Hj : (j < size other)%nat) by apply Ho.
  assert (Ho' : owns (joined g) (size p + j) t).
  { destruct Ho as [_ [[Hlt _]|[[Hge ->]|[Hlo Hhi]]]].
    - exfalso. unfold join_shift in Hlt. qlra.
    - replace (size p + (size other - 1))%nat with (size (joined g) - 1)%nat
        by (rewrite joined_size; lia).
      apply owns_after; [apply joined_length|assumption|].
      rewrite joined_size, joined_cut_right by lia. qlra.
    - apply owns_inside; [rewrite joined_size; lia| |].
      + rewrite joined_cut_right by lia. qlra.
      + replace (S (size p + j)) with (size p + S j)%nat by lia.
        rewrite joined_cut_right by lia. qlra. }
  rewrite (valueAt_owner oob _ (joined_length g) Hnj (joined_increasing g) _ _ Ho').
  rewrite joined_seg_right by assumption.
  f_equal. f_equal. unfold local.
  replace (S (size p + j)) with (size p + S j)%nat by lia.
  rewrite !joined_cut_right by lia.
  unfold Qcdiv. f_equal; [ring|]. f_equal. ring.
Qed.

Lemma firstn_tl_succ i :
  (i < size other)%nat ->
  firstn (S i) (tl (cuts other)) = firstn i (tl (cuts other)) ++ [(cuts other).[S i]].
Proof.
  intros Hi. rewrite (firstn_succ (tl (cuts other)) i 0) by (rewrite length_tl; lia).
  now rewrite nth_tl.
Qed.

(** Every cut the loops of [concat] and [continuousConcat] push lies
    after the cuts pushed so far. *)
Lemma join_cut_fits i d :
  (i < size other)%nat ->
  last (cuts p ++ map (fun c => c + join_shift) (firstn i (tl (cuts other)))) d
  < (cuts other).[S i] + join_shift.
Proof.
  intros Hi.
  assert (Hinc := joined_increasing (fun s => s)). unfold joined in Hinc. cbn [cuts] in Hinc.
  rewrite <- (firstn_skipn (S i) (tl (cuts other))) in Hinc.
  rewrite firstn_tl_succ, !map_app in Hinc by assumption. cbn [map] in Hinc.
  rewrite <- app_assoc in Hinc. cbn [app] in Hinc. rewrite app_assoc in Hinc.
  apply (increasing_app_last _ _ _ d Hinc).
  destruct (cuts p); [discriminate|discriminate].
Qed.

Lemma concat_ok :
  concat oob p other = Ok (joined (fun s => s)).
Proof.
  unfold concat.
  assert (Eo : empty other = false) by (unfold empty, size in *; destruct (segs other); [cbn in Hno; lia|reflexivity]).
  assert (Ep : empty p = false) by (unfold empty, size in *; destruct (segs p); [cbn in Hn; lia|reflexivity]).
  rewrite Eo, Ep. rewrite (vback_cuts oob p Hlen).
  unfold vfront. rewrite (vget_in oob (cuts other) 0 0) by lia. cbn [bind].
  fold join_shift.
  destruct (for_rule
    (fun i (r : Piecewise T) =>
       r = mkPiecewise (cuts p ++ map (fun c => c + join_shift) (firstn i (tl (cuts other))))
                       (segs p ++ segs other))
    (fun i r => c <- vget oob (cuts other) (i + 1) ;; push_cut oob r (c + join_shift))
    (size other) 0 (mkPiecewise (cuts p) (segs p ++ segs other)))
    as (r & Hr & Hinv).
  - cbn [firstn map]. now rewrite app_nil_r.
  - intros i r Hi ->.
    rewrite (vget_in oob (cuts other) (i + 1) 0) by lia. cbn [bind].
    rewrite Nat.add_1_r. rewrite push_cut_ok.
    + eexists; split; [reflexivity|]. cbn [cuts segs].
      rewrite firstn_tl_succ, map_app by lia. cbn [map].
      now rewrite app_assoc.
    + intros d _. cbn [cuts]. apply join_cut_fits. lia.
  - rewrite Hr, Hinv. cbn [Nat.add]. unfold joined.
    rewrite firstn_all2 by (rewrite length_tl; lia). now rewrite map_id.
Qed.

Lemma firstn_segs_succ i :
  (i < size other)%nat ->
  firstn (S i) (segs other) = firstn i (segs other) ++ [seg_at other i].
Proof. intros Hi. now apply firstn_succ. Qed.

Lemma continuousConcat_ok :
  continuousConcat oob p other
  = Ok (joined (fun s => seg_offset s (at1 (seg_at p (size p - 1)) - at0 (seg_at other 0)))).
Proof.
  unfold continuousConcat.
  assert (Eo : empty other = false) by (unfold empty, size in *; destruct (segs other); [cbn in Hno; lia|reflexivity]).
  assert (Ep : empty p = false) by (unfold empty, size in *; destruct (segs p); [cbn in Hn; lia|reflexivity]).
  rewrite Eo, Ep.
  assert (Hsp : segs p <> []) by (unfold size in Hn; destruct (segs p); [cbn in Hn; lia|discriminate]).
  rewrite (vback_last None (segs p) seg_default Hsp), (last_is_nth _ seg_default Hsp).
  unfold vfront. rewrite (vget_in None (segs other) 0 seg_default) by exact Hno.
  cbn [bind]. fold (size p). fold (seg_at p (size p - 1)). fold (seg_at other 0).
  set (y := at1 (seg_at p (size p - 1)) - at0 (seg_at other 0)).
  rewrite (vback_cuts oob p Hlen).
  rewrite (vget_in oob (cuts other) 0 0) by lia. cbn [bind].
  fold join_shift.
  destruct (for_rule
    (fun i (r : Piecewise T) =>
       r = mkPiecewise (cuts p ++ map (fun c => c + join_shift) (firstn i (tl (cuts other))))
                       (segs p ++ map (fun s => seg_offset s y) (firstn i (segs other))))
    (fun i r => s <- sget (segs other) (Z.of_nat i) ;;
                c <- vget oob (cuts other) (i + 1) ;;
                push oob r (seg_offset s y) (c + join_shift))
    (size other) 0 p)
    as (r & Hr & Hinv).
  - cbn [firstn map]. rewrite !app_nil_r. now destruct p.
  - intros i r Hi ->.
    rewrite (sget_at other i) by lia. cbn [bind].
    rewrite (vget_in oob (cuts other) (i + 1) 0) by lia. cbn [bind].
    rewrite Nat.add_1_r. rewrite push_ok.
    + eexists; split; [reflexivity|]. cbn [cuts segs].
      rewrite firstn_tl_succ, firstn_segs_succ, !map_app by lia. cbn [map].
      now rewrite !app_assoc.
    + cbn [cuts segs]. rewrite !length_app, !length_map, !length_firstn, length_tl.
      unfold size in *. lia.
    + intros d. cbn [cuts]. apply join_cut_fits. lia.
  - rewrite Hr, Hinv. cbn [Nat.add]. unfold joined.
    rewrite firstn_all2 by (rewrite length_tl; lia).
    now rewrite firstn_all2 by (unfold size; lia).
Qed.
End Concat.

Section ConcatProperties.
Context {T : Type} {F : Fragment T}.
Variable oob : option Qc.
Implicit Types (p other : Piecewise T).

(** X11 -- [concat] appends.  For two non-empty functions that satisfy
    the invariants, [p.concat(other)] returns; the result has the
    segments of [p] followed by those of [other] and the cuts of [p]
    followed by the cuts of [other] but the first, each moved by the
    distance from the start of [other] to the end of [p]; it satisfies
    the invariants, starts where [p] starts and is as long as both
    together. *)
Theorem concat_appends :
  forall p other,
    empty p = false -> invariants oob p = Ok true ->
    empty other = false -> invariants oob other = Ok true ->
    let shift := (cuts p).[size p] - (cuts other).[0] in
    exists r,
      concat oob p other = Ok r /\
      segs r = segs p ++ segs other /\
      cuts r = cuts p ++ map (fun c => c + shift) (tl (cuts other)) /\
      invariants oob r = Ok true /\
      (cuts r).[0] = (cuts p).[0] /\
      (cuts r).[size r] = (cuts p).[size p] + ((cuts other).[size other] - (cuts other).[0]).
Proof.
  intros p other He Hi Heo Hio shift.
  destruct (proper_inv oob p (conj He Hi)) as (Hlen & Hn & HP).
  destruct (proper_inv oob other (conj Heo Hio)) as (Hleno & Hno & HPo).
  exists (joined p other (fun s => s)).
  split; [now apply concat_ok|].
  split; [unfold joined; cbn [segs]; now rewrite map_id|].
  split; [reflexivity|].
  split.
  { apply well_formed_intro; [now apply joined_length|now apply joined_increasing]. }
  split.
  - apply joined_cut_left; try assumption. lia.
  - rewrite joined_size. rewrite joined_cut_right by (try assumption; lia).
    unfold join_shift. ring.
Qed.

(** X12 -- the values of a concatenation.  For two non-empty functions
    that satisfy the invariants, [p.concat(other)] takes the values of
    [p] before the end of [p], and from there on the values of [other],
    read at the time moved back by the shift; so at the join itself the
    first value of [other] replaces the last value of [p]. *)
Theorem concat_valueAt :
  forall p other,
    empty p = false -> invariants oob p = Ok true ->
    empty other = false -> invariants oob other = Ok true ->
    let shift := (cuts p).[size p] - (cuts other).[0] in
    exists r,
      concat oob p other = Ok r /\
      (forall t, t < (cuts p).[size p] -> valueAt oob r t = valueAt oob p t) /\
      (forall t, (cuts p).[size p] <= t ->
         valueAt oob r t = valueAt oob other (t - shift)).
Proof.
  intros p other He Hi Heo Hio shift.
  destruct (proper_inv oob p (conj He Hi)) as (Hlen & Hn & HP).
  destruct (proper_inv oob other (conj Heo Hio)) as (Hleno & Hno & HPo).
  exists (joined p other (fun s => s)).
  split; [now apply concat_ok|]. split.
  - intros t Ht. now apply joined_valueAt_left.
  - intros t Ht.
    destruct (owns_exists oob other Hleno Hno HPo (t - shift)) as (j & Ho).
    rewrite (valueAt_owner oob other Hleno Hno HPo _ j Ho).
    exact (joined_valueAt_right oob p other Hlen Hn HP Hleno Hno HPo (fun s => s) t j Ht Ho).
Qed.

(** X13 -- [continuousConcat] cannot start from nothing.  When [this]
    has no segments and [other] has some, the call reads
    [segs.back()] of the empty vector before it tests [empty()]: it ends
    in an out-of-range access, and the branch written for an empty
    [this] is never reached. *)
Theorem continuousConcat_empty_faults :
  forall p other,
    empty p = true -> empty other = false ->
    continuousConcat oob p other = Fault OutOfRange.
Proof.
  intros p other He Heo. unfold continuousConcat. rewrite Heo.
  unfold empty in He. destruct (segs p); [reflexivity|discriminate].
Qed.
End ConcatProperties.

Section ContinuousConcat.
Context {T : Type} {F : Fragment T} {L : FragmentLaws T}.
Variable oob : option Qc.
Implicit Types (p other : Piecewise T).

(** X14 -- [continuousConcat] joins without a jump.  For two non-empty
    functions that satisfy the invariants, with [vp] the value of [p] at
    its end and [vo] the value of [other] at its start, the result
    satisfies the invariants, takes the values of [p] before the end of
    [p], and from there on the values of [other] raised by [vp - vo]: at
    the join its value is [vp]. *)
Theorem continuousConcat_continuous :
  forall p other,
    empty p = false -> invariants oob p = Ok true ->
    empty other = false -> invariants oob other = Ok true ->
    let shift := (cuts p).[size p] - (cuts other).[0] in
    exists r vp vo,
      continuousConcat oob p other = Ok r /\
      invariants oob r = Ok true /\
      valueAt oob p (cuts p).[size p] = Ok vp /\
      valueAt oob other (cuts other).[0] = Ok vo /\
      (forall t, t < (cuts p).[size p] -> valueAt oob r t = valueAt oob p t) /\
      (forall t, (cuts p).[size p] <= t ->
         exists v, valueAt oob other (t - shift) = Ok v /\
                   valueAt oob r t = Ok (v + (vp - vo))) /\
      valueAt oob r (cuts p).[size p] = Ok vp.
Proof.
  intros p other He Hi Heo Hio shift.
  destruct (proper_inv oob p (conj He Hi)) as (Hlen & Hn & HP).
  destruct (proper_inv oob other (conj Heo Hio)) as (Hleno & Hno & HPo).
  set (y := at1 (seg_at p (size p - 1)) - at0 (seg_at other 0)).
  set (g := fun s : T => seg_offset s y).
  assert (Hlast : (size p - 1 < size p)%nat) by lia.
  assert (Hwp := width_pos p Hlen Hn HP _ Hlast).
  assert (Hwo := width_pos other Hleno Hno HPo 0 Hno).
  assert (Hvp : valueAt oob p (cuts p).[size p] = Ok (at1 (seg_at p (size p - 1)))).
  { rewrite (valueAt_owner oob p Hlen Hn HP _ (size p - 1)).
    - rewrite eval_at1. f_equal. f_equal. unfold local.
      replace (S (size p - 1)) with (size p) in * by lia.
      field. now apply Qc_pos_neq0.
    - apply owns_after; [assumption|assumption|apply Qcle_refl]. }
  assert (Ho0 : owns other 0 (cuts other).[0]).
  { apply owns_inside; [assumption|apply Qcle_refl|]. apply HPo. lia. }
  assert (Hl0 : local other 0 (cuts other).[0] = 0).
  { unfold local, Qcdiv. replace ((cuts other).[0] - (cuts other).[0]) with 0 by ring. ring. }
  assert (Hvo : valueAt oob other (cuts other).[0] = Ok (at0 (seg_at other 0))).
  { rewrite (valueAt_owner oob other Hleno Hno HPo _ 0 Ho0).
    now rewrite eval_at0, Hl0. }
  assert (Hright : forall t, (cuts p).[size p] <= t ->
            exists v, valueAt oob other (t - shift) = Ok v /\
                      valueAt oob (joined p other g) t = Ok (v + y)).
  { intros t Ht.
    destruct (owns_exists oob other Hleno Hno HPo (t - shift)) as (j & Ho).
    rewrite (valueAt_owner oob other Hleno Hno HPo _ j Ho).
    eexists. split; [reflexivity|].
    rewrite (joined_valueAt_right oob p other Hlen Hn HP Hleno Hno HPo g t j Ht Ho).
    unfold g. now rewrite eval_offset. }
  exists (joined p other g), (at1 (seg_at p (size p - 1))), (at0 (seg_at other 0)).
  split; [now apply continuousConcat_ok|].
  split.
  { apply well_formed_intro; [now apply joined_length|now apply joined_increasing]. }
  split; [exact Hvp|]. split; [exact Hvo|].
  split; [intros t Ht; now apply joined_valueAt_left|].
  split; [exact Hright|].
  destruct (Hright (cuts p).[size p] (Qcle_refl _)) as (v & Hv & Hr).
  replace ((cuts p).[size p] - shift) with (cuts other).[0] in Hv by (unfold shift; ring).
  rewrite Hvo in Hv. injection Hv as <-. rewrite Hr. f_equal. unfold y. ring.
Qed.
End ContinuousConcat.

Lemma concat_appends_witness :
  exists r,
    concat None ex_b ex_f = Ok r /\
    segs r = segs ex_b ++ segs ex_f /\
    cuts r = cuts ex_b ++ map (fun c => c + (q (-1) 1 - q 0 1)) (tl (cuts ex_f)) /\
    invariants None r = Ok true /\
    (cuts r).[0] = (cuts ex_b).[0] /\
    (cuts r).[size r]
    = (cuts ex_b).[size ex_b] + ((cuts ex_f).[size ex_f] - (cuts ex_f).[0]).
Proof.
  apply (concat_appends None ex_b ex_f); reflexivity.
Defined.

Lemma concat_valueAt_witness :
  exists r,
    concat None ex_b ex_f = Ok r /\
    (forall t, t < (cuts ex_b).[size ex_b] -> valueAt None r t = valueAt None ex_b t) /\
    (forall t, (cuts ex_b).[size ex_b] <= t ->
       valueAt None r t = valueAt None ex_f (t - (q (-1) 1 - q 0 1))).
Proof.
  apply (concat_valueAt None ex_b ex_f); reflexivity.
Defined.

Lemma continuousConcat_empty_faults_witness :
  continuousConcat None (@pw_empty Poly.poly) ex_f = Fault OutOfRange.
Proof.
  apply (continuousConcat_empty_faults None (@pw_empty Poly.poly) ex_f); reflexivity.
Defined.

Lemma continuousConcat_continuous_witness :
  exists r vp vo,
    continuousConcat None ex_b ex_f = Ok r /\
    invariants None r = Ok true /\
    valueAt None ex_b (cuts ex_b).[size ex_b] = Ok vp /\
    valueAt None ex_f (cuts ex_f).[0] = Ok vo /\
    (forall t, t < (cuts ex_b).[size ex_b] -> valueAt None r t = valueAt None ex_b t) /\
    (forall t, (cuts ex_b).[size ex_b] <= t ->
       exists v, valueAt None ex_f (t - (q (-1) 1 - q 0 1)) = Ok v /\
                 valueAt None r t = Ok (v + (vp - vo))) /\
    valueAt None r (cuts ex_b).[size ex_b] = Ok vp.
Proof.
  apply (continuousConcat_continuous None ex_b ex_f); reflexivity.
Defined.

(* ================================================================== *)
(** * Refinement keeps the function *)
(* ================================================================== *)

Section PartitionValues.
Context {T : Type} {F : Fragment T} {L : FragmentLaws T}.
Variable oob : option Qc.
Implicit Types (pw : Piecewise T).

(** X15 -- [partition] refines without changing the function.  For a
    non-empty [pw] that satisfies the invariants and increasing extra
    cuts [c] of which at least one is not before the domain of [pw],
    [partition(pw, c)] returns; the result satisfies the invariants, its
    cuts are exactly the cuts of [pw] and of [c], its domain contains
    the domain of [pw], and at every time of its domain it takes the
    value of [pw]. *)
Theorem partition_keeps_values :
  forall pw c,
    empty pw = false -> invariants oob pw = Ok true ->
    increasing c -> (exists x, In x c /\ (cuts pw).[0] <= x) ->
    exists r,
      partition oob pw c = Ok r /\
      invariants oob r = Ok true /\
      (forall x, In x (cuts r) <-> In x (cuts pw) \/ In x c) /\
      (cuts r).[0] <= (cuts pw).[0] /\ (cuts pw).[size pw] <= (cuts r).[size r] /\
      forall t, (cuts r).[0] <= t -> t <= (cuts r).[size r] ->
        valueAt oob r t = valueAt oob pw t.
Proof.
  intros pw c He Hi Hc (x & Hx & Hge).
  destruct (proper_inv oob pw (conj He Hi)) as (Hlen & Hn & HP).
  destruct (In_nth c x 0 Hx) as (k & Hk & <-).
  destruct (partition_spec oob pw c Hlen Hn HP Hc) as (r & Hr & Hp).
  - lia.
  - right. exists k. split; assumption.
  - destruct (partitioned_proper pw c r Hlen Hn HP Hp) as (Hlr & Hnr & HPr & H0 & H1).
    exists r. split; [exact Hr|].
    split; [now apply well_formed_intro|].
    split; [apply Hp|]. split; [exact H0|]. split; [exact H1|].
    intros t Hlo Hhi.
    destruct (partitioned_valueAt oob pw c r t Hlen Hn HP Hp Hlo Hhi) as (v & -> & ->).
    reflexivity.
Qed.
End PartitionValues.

Lemma partition_keeps_values_witness :
  exists r,
    partition None ex_f (cuts ex_g) = Ok r /\
    invariants None r = Ok true /\
    (forall x, In x (cuts r) <-> In x (cuts ex_f) \/ In x (cuts ex_g)) /\
    (cuts r).[0] <= (cuts ex_f).[0] /\ (cuts ex_f).[size ex_f] <= (cuts r).[size r] /\
    forall t, (cuts r).[0] <= t -> t <= (cuts r).[size r] ->
      valueAt None r t = valueAt None ex_f t.
Proof.
  apply (partition_keeps_values None ex_f (cuts ex_g)).
  - reflexivity.
  - reflexivity.
  - intros [|[|[|i]]] Hi; try (apply Qcltb_lt; reflexivity); cbn in Hi; lia.
  - exists (q 0 1). split; [now left|]. apply Qcleb_le. reflexivity.
Defined.

Section PartitionEdges.
Context {T : Type} {F : Fragment T}.
Variable oob : option Qc.
Implicit Types (pw : Piecewise T).

Lemma push_defaults n : forall lo (r : Piecewise T),
  for_loop lo n (fun _ q => Ok (push_seg q seg_default)) r
  = Ok (mkPiecewise (cuts r) (segs r ++ repeat seg_default n)).
Proof.
  induction n as [|n IH]; intros lo r; cbn [for_loop repeat bind].
  - rewrite app_nil_r. now destruct r.
  - rewrite IH. unfold push_seg, push_back. cbn [cuts segs].
    now rewrite <- app_assoc.
Qed.

(** X16 -- refining the empty function.  When [pw] has no segments and
    [c] is not empty, [partition(pw, c)] drops whatever cuts [pw] had:
    the result has the cuts [c] as they are, in increasing order or
    not, and one default-constructed segment between each two. *)
Theorem partition_of_empty :
  forall pw c,
    empty pw = true -> c <> [] ->
    partition oob pw c = Ok (mkPiecewise c (repeat seg_default (length c - 1))).
Proof.
  intros pw c He Hc. unfold partition. rewrite He.
  destruct c as [|x c]; [congruence|].
  now rewrite push_defaults.
Qed.

Lemma Qcmin_comm (a b : Qc) : Qcmin a b = Qcmin b a.
Proof.
  unfold Qcmin. dbl_case (b <? a)%dbl; dbl_case (a <? b)%dbl; qlra.
Qed.

Lemma Qcmax_comm (a b : Qc) : Qcmax a b = Qcmax b a.
Proof.
  unfold Qcmax. dbl_case (b <? a)%dbl; dbl_case (a <? b)%dbl; qlra.
Qed.

(** [portion] does not care in which order its two times come. *)
Lemma portion_symmetric :
  forall pw from to, portion oob pw from to = portion oob pw to from.
Proof.
  intros pw from to. unfold portion.
  assert (E : (from =? to)%dbl = (to =? from)%dbl).
  { dbl_case (from =? to)%dbl; symmetry.
    - now apply Qc_eq_bool_eq.
    - apply Qc_eq_bool_neq. congruence. }
  rewrite E, (Qcmin_comm from to), (Qcmax_comm from to). reflexivity.
Qed.
End PartitionEdges.

Lemma partition_of_empty_witness :
  partition None (mkPiecewise [q 5 1] ([] : list Poly.poly)) [q 2 1; q 1 1; q 3 1]
  = Ok (mkPiecewise [q 2 1; q 1 1; q 3 1] (repeat seg_default (3 - 1))).
Proof.
  apply (partition_of_empty None (mkPiecewise [q 5 1] ([] : list Poly.poly))
           [q 2 1; q 1 1; q 3 1]); [reflexivity|discriminate].
Defined.

(* ================================================================== *)
(** * Dropping short segments *)
(* ================================================================== *)

Section ShortCuts.
Context {T : Type} {F : Fragment T}.
Variable oob : option Qc.
Implicit Types (f r : Piecewise T).

Lemma last_cut_lt f r j i :
  increasing (cuts f) -> (S i < length (cuts f))%nat -> (j <= i)%nat ->
  cuts r <> [] -> last (cuts r) 0 = (cuts f).[j] ->
  forall d, last (cuts r) d < (cuts f).[S i].
Proof.
  intros HP Hi Hj Hne Hlast d.
  rewrite (last_default (cuts r) d 0 Hne), Hlast.
  apply increasing_lt; [assumption|lia].
Qed.

Lemma nth_snoc_old (l : list Qc) x k : (k < length l)%nat -> (l ++ [x]).[k] = l.[k].
Proof. intros H. now apply app_nth1. Qed.

Lemma nth_snoc_new (l : list Qc) x : (l ++ [x]).[length l] = x.
Proof. apply nth_middle. Qed.

(** X17 -- what [remove_short_cuts] leaves.  For a non-empty [f] that
    satisfies the invariants and any tolerance, the call returns a
    container that satisfies the invariants, starts at the first cut of
    [f], ends at a cut of [f], has no more segments than [f], and in
    which every segment is at least [tol] wide. *)
Theorem remove_short_cuts_widths :
  forall f tol,
    empty f = false -> invariants oob f = Ok true ->
    exists r,
      remove_short_cuts oob f tol = Ok r /\
      invariants oob r = Ok true /\
      (cuts r).[0] = (cuts f).[0] /\
      In (cuts r).[size r] (cuts f) /\
      (size r <= size f)%nat /\
      forall k, (k < size r)%nat -> tol <= (cuts r).[S k] - (cuts r).[k].
Proof.
  intros f tol He Hi. destruct (proper_inv oob f (conj He Hi)) as (Hlen & Hn & HP).
  unfold remove_short_cuts. rewrite (vget_in oob (cuts f) 0 0) by lia. cbn [bind].
  rewrite push_cut_ok by (cbn; congruence). unfold pw_empty. cbn [bind cuts segs app].
  destruct (for_rule
    (fun i (r : Piecewise T) =>
       length (cuts r) = S (size r) /\ increasing (cuts r) /\
       (cuts r).[0] = (cuts f).[0] /\ (size r <= i)%nat /\
       (exists j, (j <= i)%nat /\ (cuts r).[size r] = (cuts f).[j]) /\
       forall k, (k < size r)%nat -> tol <= (cuts r).[S k] - (cuts r).[k])
    (fun i ret =>
       c1 <- vget oob (cuts f) (i + 1) ;;
       ci <- vget oob (cuts f) i ;;
       if (c1 - ci >=? tol)%dbl then
         s <- sget (segs f) (Z.of_nat i) ;; push oob ret s c1
       else Ok ret)
    (size f) 0 (mkPiecewise [(cuts f).[0]] []))
    as (r & Hr & Hl & Hinc & H0 & Hsz & (j & Hj & Hlast) & Hw).
  - split; [reflexivity|]. split; [apply increasing_one|]. split; [reflexivity|].
    split; [cbn; lia|]. split; [exists 0%nat; split; [lia|reflexivity]|].
    intros k Hk. cbn in Hk. lia.
  - intros i r Hi' (Hl & Hinc & H0 & Hsz & (j & Hj & Hlast) & Hw). cbn [Nat.add] in Hi'.
    rewrite (vget_in oob (cuts f) (i + 1) 0) by lia.
    rewrite (vget_in oob (cuts f) i 0) by lia. cbn [bind]. rewrite Nat.add_1_r.
    assert (Hne : cuts r <> []) by (destruct (cuts r); [discriminate|discriminate]).
    assert (Hlast' : last (cuts r) 0 = (cuts f).[j]).
    { rewrite (last_is_nth _ 0 Hne), Hl, Nat.sub_succ, Nat.sub_0_r. exact Hlast. }
    dbl_case (tol <=? (cuts f).[S i] - (cuts f).[i])%dbl.
    + rewrite (sget_at f) by lia. cbn [bind].
      rewrite push_ok;
        [|unfold size in Hl; assumption
         |apply (last_cut_lt f r j i); auto; lia].
      eexists; split; [reflexivity|]. cbn [cuts segs].
      assert (Hsz' : size (mkPiecewise (cuts r ++ [(cuts f).[S i]])
                                       (segs r ++ [seg_at f i])) = S (size r)).
      { unfold size. cbn [segs]. rewrite length_app. cbn. lia. }
      rewrite Hsz'.
      split; [rewrite length_app; cbn; lia|].
      split; [apply increasing_snoc; [assumption|];
              intros d _; apply (last_cut_lt f r j i); auto; lia|].
      split; [rewrite nth_snoc_old by lia; exact H0|].
      split; [lia|].
      split.
      { exists (S i). split; [lia|]. rewrite <- Hl. apply nth_snoc_new. }
      intros k Hk. destruct (Nat.eq_dec k (size r)) as [->|Hne'].
      * rewrite <- Hl at 1. rewrite nth_snoc_new, nth_snoc_old, Hlast by lia.
        assert ((cuts f).[j] <= (cuts f).[i]) by (apply increasing_le; [assumption|lia]).
        qlra.
      * rewrite !nth_snoc_old by lia. apply Hw. lia.
    + eexists; split; [reflexivity|]. split; [assumption|]. split; [assumption|].
      split; [assumption|]. split; [lia|]. split; [|assumption].
      exists j. split; [lia|assumption].
  - exists r. split; [assumption|]. split; [now apply well_formed_intro|].
    split; [assumption|]. split; [rewrite Hlast; apply nth_In; lia|].
    split; [cbn [Nat.add] in Hsz; lia|assumption].
Qed.

(** X18 -- [remove_short_cuts] leaves a function alone that has no
    short segment: when [f] is non-empty, satisfies the invariants and
    every segment is at least [tol] wide, the result is [f] itself. *)
Theorem remove_short_cuts_identity :
  forall f tol,
    empty f = false -> invariants oob f = Ok true ->
    (forall i, (i < size f)%nat -> tol <= (cuts f).[S i] - (cuts f).[i]) ->
    remove_short_cuts oob f tol = Ok f.
Proof.
  intros f tol He Hi Hall. destruct (proper_inv oob f (conj He Hi)) as (Hlen & Hn & HP).
  unfold remove_short_cuts. rewrite (vget_in oob (cuts f) 0 0) by lia. cbn [bind].
  rewrite push_cut_ok by (cbn; congruence). unfold pw_empty. cbn [bind cuts segs app].
  destruct (for_rule
    (fun i (r : Piecewise T) =>
       r = mkPiecewise (firstn (S i) (cuts f)) (firstn i (segs f)))
    (fun i ret =>
       c1 <- vget oob (cuts f) (i + 1) ;;
       ci <- vget oob (cuts f) i ;;
       if (c1 - ci >=? tol)%dbl then
         s <- sget (segs f) (Z.of_nat i) ;; push oob ret s c1
       else Ok ret)
    (size f) 0 (mkPiecewise [(cuts f).[0]] []))
    as (r & Hr & Hinv).
  - f_equal. destruct (cuts f); [discriminate|reflexivity].
  - intros i r Hi' ->. cbn [Nat.add] in Hi'.
    rewrite (vget_in oob (cuts f) (i + 1) 0) by lia.
    rewrite (vget_in oob (cuts f) i 0) by lia. cbn [bind]. rewrite Nat.add_1_r.
    assert (Hk := Hall i ltac:(lia)). apply Qcleb_le in Hk. rewrite Hk.
    rewrite (sget_at f) by lia. cbn [bind].
    rewrite push_ok.
    + eexists; split; [reflexivity|]. cbn [cuts segs].
      rewrite (firstn_succ (cuts f) (S i) 0) by lia.
      rewrite (firstn_succ (segs f) i seg_default) by (unfold size in *; lia).
      reflexivity.
    + cbn [cuts segs]. rewrite !length_firstn. unfold size in *. lia.
    + intros d. cbn [cuts].
      rewrite (firstn_succ (cuts f) i 0) by lia. rewrite last_last.
      apply HP. lia.
  - rewrite Hr, Hinv. cbn [Nat.add].
    rewrite firstn_all2 by lia. rewrite firstn_all2 by (unfold size; lia).
    now destruct f.
Qed.
End ShortCuts.

Section ShortCutsExtending.
Context {T : Type} {F : Fragment T} {L : FragmentLaws T}.
Variable oob : option Qc.
Implicit Types (f r : Piecewise T).

(** What the loop of [remove_short_cuts_extending] has built after the
    segments before [i]: every kept segment [k] is in the result,
    stretched back to the last cut kept before it. *)
Definition extended_upto f (tol : Qc) (i : nat) (st : Piecewise T * Qc) : Prop :=
  let '(r, lastc) := st in
  length (cuts r) = S (size r) /\ increasing (cuts r) /\
  (cuts r).[size r] = lastc /\
  (exists j, (j <= i)%nat /\ lastc = (cuts f).[j]) /\
  forall k, (k < i)%nat -> tol <= (cuts f).[S k] - (cuts f).[k] ->
    exists m, (m < size r)%nat /\
      (cuts r).[S m] = (cuts f).[S k] /\ (cuts r).[m] <= (cuts f).[k] /\
      seg_at r m = seg_portion (seg_at f k)
                     (((cuts r).[m] - (cuts f).[k]) * rwidth f k)
                     (((cuts f).[S k] - (cuts f).[k]) * rwidth f k).

(** X19 -- [remove_short_cuts_extending] keeps the function on the
    segments it keeps.  For a non-empty [f] that satisfies the
    invariants, the call returns a container that satisfies the
    invariants, and on every segment of [f] that is at least [tol] wide,
    from its start up to its end, the result takes the value of [f]. *)
Theorem remove_short_cuts_extending_values :
  forall f tol,
    empty f = false -> invariants oob f = Ok true ->
    exists r,
      remove_short_cuts_extending oob f tol = Ok r /\
      invariants oob r = Ok true /\
      forall k t, (k < size f)%nat -> tol <= (cuts f).[S k] - (cuts f).[k] ->
        (cuts f).[k] <= t -> t < (cuts f).[S k] ->
        valueAt oob r t = valueAt oob f t.
Proof.
  intros f tol He Hi. destruct (proper_inv oob f (conj He Hi)) as (Hlen & Hn & HP).
  unfold remove_short_cuts_extending.
  rewrite (vget_in oob (cuts f) 0 0) by lia. cbn [bind].
  rewrite push_cut_ok by (cbn; congruence). unfold pw_empty. cbn [bind cuts segs app].
  destruct (for_rule (extended_upto f tol)
    (fun i (st : Piecewise T * Qc) =>
       let '(ret, lastc) := st in
       c1 <- vget oob (cuts f) (i + 1) ;;
       ci <- vget oob (cuts f) i ;;
       if (c1 - ci >=? tol)%dbl then
         s <- elem_portion oob f (Z.of_nat i) lastc c1 ;;
         ret <- push oob ret s c1 ;;
         Ok (ret, c1)
       else Ok (ret, lastc))
    (size f) 0 (mkPiecewise [(cuts f).[0]] [], (cuts f).[0]))
    as ([r lastc] & Hr & Hl & Hinc & Hlast & _ & Hkept).
  - cbn. split; [reflexivity|]. split; [apply increasing_one|]. split; [reflexivity|].
    split; [exists 0%nat; split; [lia|reflexivity]|]. intros k Hk. lia.
  - intros i [r lastc] Hi' (Hl & Hinc & Hlast & (j & Hj & Ej) & Hkept).
    cbn [Nat.add] in Hi'.
    rewrite (vget_in oob (cuts f) (i + 1) 0) by lia.
    rewrite (vget_in oob (cuts f) i 0) by lia. cbn [bind]. rewrite Nat.add_1_r.
    assert (Hne : cuts r <> []) by (destruct (cuts r); [discriminate|discriminate]).
    assert (Hlast' : last (cuts r) 0 = (cuts f).[j]).
    { rewrite (last_is_nth _ 0 Hne), Hl, Nat.sub_succ, Nat.sub_0_r. congruence. }
    dbl_case (tol <=? (cuts f).[S i] - (cuts f).[i])%dbl.
    + rewrite (elem_portion_at oob f Hlen i) by lia. cbn [bind].
      rewrite push_ok;
        [|unfold size in Hl; assumption
         |apply (last_cut_lt f r j i); auto; lia].
      cbn [bind]. eexists; split; [reflexivity|].
      unfold extended_upto. cbn [cuts segs].
      assert (Hsz' : size (mkPiecewise (cuts r ++ [(cuts f).[S i]])
                 (segs r ++ [seg_portion (seg_at f i)
                    ((lastc - (cuts f).[i]) * rwidth f i)
                    (((cuts f).[S i] - (cuts f).[i]) * rwidth f i)])) = S (size r)).
      { unfold size. cbn [segs]. rewrite length_app. cbn. lia. }
      rewrite Hsz'.
      split; [rewrite length_app; cbn; lia|].
      split; [apply increasing_snoc; [assumption|];
              intros d _; apply (last_cut_lt f r j i); auto; lia|].
      split; [rewrite <- Hl; apply nth_snoc_new|].
      split; [exists (S i); split; [lia|reflexivity]|].
      intros k Hk Hwide. destruct (Nat.eq_dec k i) as [->|Hne'].
      * exists (size r). split; [lia|].
        split; [rewrite <- Hl; apply nth_snoc_new|].
        rewrite nth_snoc_old by lia. rewrite Hlast.
        split; [rewrite Ej; apply increasing_le; [assumption|lia]|].
        unfold seg_at. cbn [segs]. unfold size. now rewrite nth_middle.
      * destruct (Hkept k ltac:(lia) Hwide) as (m & Hm & E1 & E2 & E3).
        exists m. split; [lia|]. rewrite !nth_snoc_old by lia.
        split; [assumption|]. split; [assumption|].
        unfold seg_at in *. cbn [segs]. rewrite app_nth1 by exact Hm. exact E3.
    + eexists; split; [reflexivity|]. unfold extended_upto.
      split; [assumption|]. split; [assumption|]. split; [assumption|].
      split; [exists j; split; [lia|assumption]|].
      intros k Hk Hwide. destruct (Nat.eq_dec k i) as [->|Hne'].
      * exfalso. match goal with H : _ < tol |- _ => revert H end. intros Hshort. qlra.
      * apply Hkept; [lia|assumption].
  - cbn [Nat.add] in Hkept. cbn [bind fst] in *. rewrite Hr. cbn [bind fst].
    exists r. split; [reflexivity|]. split; [now apply well_formed_intro|].
    intros k t Hk Hwide Hlo Hhi.
    destruct (Hkept k Hk Hwide) as (m & Hm & E1 & E2 & E3).
    assert (Hnr : (0 < size r)%nat) by lia.
    assert (Ho : owns r m t).
    { apply owns_inside; [assumption|qlra|rewrite E1; assumption]. }
    rewrite (valueAt_owner oob r Hl Hnr Hinc t m Ho).
    rewrite (valueAt_owner oob f Hlen Hn HP t k (owns_inside f k t Hk Hlo Hhi)).
    rewrite E3, eval_portion. f_equal. f_equal.
    unfold local, rwidth. rewrite E1.
    assert (Hw := width_pos f Hlen Hn HP k Hk).
    field. split; apply Qc_pos_neq0; [assumption|qlra].
Qed.
End ShortCutsExtending.

Lemma remove_short_cuts_widths_witness :
  exists r,
    remove_short_cuts None ex_b (q 3 4) = Ok r /\
    invariants None r = Ok true /\
    (cuts r).[0] = (cuts ex_b).[0] /\
    In (cuts r).[size r] (cuts ex_b) /\
    (size r <= size ex_b)%nat /\
    forall k, (k < size r)%nat -> q 3 4 <= (cuts r).[S k] - (cuts r).[k].
Proof.
  apply (remove_short_cuts_widths None ex_b (q 3 4)); reflexivity.
Defined.

Lemma remove_short_cuts_identity_witness :
  remove_short_cuts None ex_g (q 1 2) = Ok ex_g.
Proof.
  apply (remove_short_cuts_identity None ex_g (q 1 2)); [reflexivity|reflexivity|].
  intros [|[|i]] Hi; try (apply Qcleb_le; reflexivity); cbn in Hi; lia.
Defined.

Lemma remove_short_cuts_extending_values_witness :
  exists r,
    remove_short_cuts_extending None ex_g (q 1 1) = Ok r /\
    invariants None r = Ok true /\
    forall k t, (k < size ex_g)%nat -> q 1 1 <= (cuts ex_g).[S k] - (cuts ex_g).[k] ->
      (cuts ex_g).[k] <= t -> t < (cuts ex_g).[S k] ->
      valueAt None r t = valueAt None ex_g t.
Proof.
  apply (remove_short_cuts_extending_values None ex_g (q 1 1)); reflexivity.
Defined.

(* ================================================================== *)
(** * Roots *)
(* ================================================================== *)

Section Roots.
Context {T : Type} {F : Fragment T}.
Variable oob : option Qc.
Implicit Types (pw : Piecewise T).

(** The roots of segment [i], on the global time line. *)
Definition roots_of_seg pw (i : nat) : list Qc :=
  map (fun r => r * ((cuts pw).[S i] - (cuts pw).[i]) + (cuts pw).[i])
      (seg_roots (seg_at pw i)).

Lemma roots_ok pw :
  length (cuts pw) = S (size pw) ->
  roots oob pw = Ok (flat_map (roots_of_seg pw) (seq 0 (size pw))).
Proof.
  intros Hlen. unfold roots.
  destruct (for_rule
    (fun i (ret : list Qc) => ret = flat_map (roots_of_seg pw) (seq 0 i))
    (fun i ret =>
       s <- sget (segs pw) (Z.of_nat i) ;;
       match seg_roots s with
       | [] => Ok ret
       | sr =>
           c1 <- vget oob (cuts pw) (i + 1) ;;
           ci <- vget oob (cuts pw) i ;;
           Ok (ret ++ map (fun r => r * (c1 - ci) + ci) sr)
       end)
    (size pw) 0 []) as (rs & Hr & Hinv).
  - reflexivity.
  - intros i ret Hi ->. cbn [Nat.add] in Hi.
    rewrite (sget_at pw i) by lia. cbn [bind].
    rewrite seq_S, flat_map_app. cbn [Nat.add flat_map]. rewrite app_nil_r.
    assert (Er : roots_of_seg pw i
                 = map (fun r => r * ((cuts pw).[S i] - (cuts pw).[i]) + (cuts pw).[i])
                       (seg_roots (seg_at pw i))) by reflexivity.
    rewrite Er. clear Er.
    destruct (seg_roots (seg_at pw i)) as [|x sr] eqn:E.
    + eexists; split; [reflexivity|]. cbn [map]. now rewrite app_nil_r.
    + rewrite (vget_in oob (cuts pw) (i + 1) 0) by lia.
      rewrite (vget_in oob (cuts pw) i 0) by lia. cbn [bind].
      rewrite Nat.add_1_r. eexists; split; reflexivity.
  - rewrite Hr, Hinv. reflexivity.
Qed.

Lemma in_roots pw t :
  In t (flat_map (roots_of_seg pw) (seq 0 (size pw))) <->
  exists i u, (i < size pw)%nat /\ In u (seg_roots (seg_at pw i)) /\
              t = u * ((cuts pw).[S i] - (cuts pw).[i]) + (cuts pw).[i].
Proof.
  rewrite in_flat_map. split.
  - intros (i & Hi & Hin). apply in_seq in Hi. unfold roots_of_seg in Hin.
    apply in_map_iff in Hin. destruct Hin as (u & <- & Hu).
    exists i, u. split; [lia|]. split; [assumption|reflexivity].
  - intros (i & u & Hi & Hu & ->). exists i. split; [apply in_seq; lia|].
    unfold roots_of_seg. apply in_map_iff. exists u. split; [reflexivity|assumption].
Qed.

(** X20 -- every time [roots] reports is a zero of the function.  Take a
    non-empty [pw] that satisfies the invariants and whose segments'
    root finder is sound (each root it reports for a segment lies in
    [0, 1] and the segment vanishes there).  Then [roots(pw)] returns,
    and every time [t] in the result lies within the domain, in the
    closure of a segment that vanishes at the local time of [t]; the
    function itself takes the value 0 at [t] unless [t] is the end cut of
    a segment that is not the last, where the next segment decides. *)
Theorem roots_sound :
  forall pw,
    empty pw = false -> invariants oob pw = Ok true ->
    (forall i u, (i < size pw)%nat -> In u (seg_roots (seg_at pw i)) ->
       0 <= u /\ u <= 1 /\ eval (seg_at pw i) u = 0) ->
    exists rs,
      roots oob pw = Ok rs /\
      forall t, In t rs ->
        (cuts pw).[0] <= t /\ t <= (cuts pw).[size pw] /\
        exists i, (i < size pw)%nat /\
          (cuts pw).[i] <= t /\ t <= (cuts pw).[S i] /\
          eval (seg_at pw i) (local pw i t) = 0 /\
          (t < (cuts pw).[S i] \/ i = (size pw - 1)%nat -> valueAt oob pw t = Ok 0).
Proof.
  intros pw He Hi Hsound.
  destruct (proper_inv oob pw (conj He Hi)) as (Hlen & Hn & HP).
  eexists. split; [now apply roots_ok|].
  intros t Ht. apply in_roots in Ht. destruct Ht as (i & u & Hlt & Hu & Et).
  destruct (Hsound i u Hlt Hu) as (Hu0 & Hu1 & Hz).
  assert (Hw := width_pos pw Hlen Hn HP i Hlt).
  assert (H0 : (cuts pw).[0] <= (cuts pw).[i]) by (apply increasing_le; [assumption|lia]).
  assert (H1 : (cuts pw).[S i] <= (cuts pw).[size pw]) by (apply increasing_le; [assumption|lia]).
  assert (Hlo : (cuts pw).[i] <= t).
  { rewrite Et.
    assert (0 * ((cuts pw).[S i] - (cuts pw).[i]) <= u * ((cuts pw).[S i] - (cuts pw).[i])).
    { apply Qcmult_le_compat_r; [assumption|now apply Qclt_le_weak]. }
    qlra. }
  assert (Hhi : t <= (cuts pw).[S i]).
  { rewrite Et.
    assert (u * ((cuts pw).[S i] - (cuts pw).[i]) <= 1 * ((cuts pw).[S i] - (cuts pw).[i])).
    { apply Qcmult_le_compat_r; [assumption|now apply Qclt_le_weak]. }
    qlra. }
  assert (Hloc : local pw i t = u).
  { unfold local. rewrite Et. field. now apply Qc_pos_neq0. }
  split; [qlra|]. split; [qlra|].
  exists i. split; [assumption|]. split; [assumption|]. split; [assumption|].
  split; [now rewrite Hloc|].
  intros Hown.
  rewrite (valueAt_owner oob pw Hlen Hn HP t i); [now rewrite Hloc, Hz|].
  destruct Hown as [Hin| ->].
  - now apply owns_inside.
  - apply owns_last; assumption.
Qed.

(** X21 -- [roots] misses no zero that the segments' root finder finds.
    Take a non-empty [pw] that satisfies the invariants and whose
    segments' root finder is complete on [0, 1] for the segments of
    [pw].  Then every time of the domain at which [pw] takes the value 0
    is in the result of [roots(pw)]. *)
Theorem roots_complete :
  forall pw,
    empty pw = false -> invariants oob pw = Ok true ->
    (forall i u, (i < size pw)%nat -> 0 <= u -> u <= 1 ->
       eval (seg_at pw i) u = 0 -> In u (seg_roots (seg_at pw i))) ->
    exists rs,
      roots oob pw = Ok rs /\
      forall t, (cuts pw).[0] <= t -> t <= (cuts pw).[size pw] ->
        valueAt oob pw t = Ok 0 -> In t rs.
Proof.
  intros pw He Hi Hcomplete.
  destruct (proper_inv oob pw (conj He Hi)) as (Hlen & Hn & HP).
  eexists. split; [now apply roots_ok|].
  intros t Hlo Hhi Hv. apply in_roots.
  destruct (owns_exists oob pw Hlen Hn HP t) as (i & Ho).
  rewrite (valueAt_owner oob pw Hlen Hn HP t i Ho) in Hv. injection Hv as Hv.
  assert (Hlt : (i < size pw)%nat) by apply Ho.
  assert (Hw := width_pos pw Hlen Hn HP i Hlt).
  assert (Hin : (cuts pw).[i] <= t /\ t <= (cuts pw).[S i]).
  { destruct Ho as [_ [[Hb ->]|[[Ha ->]|[Hl Hh]]]].
    - exfalso. qlra.
    - replace (S (size pw - 1)) with (size pw) by lia.
      assert ((cuts pw).[size pw - 1] <= (cuts pw).[size pw])
        by (apply increasing_le; [assumption|lia]).
      split; [qlra|assumption].
    - split; [assumption|now apply Qclt_le_weak]. }
  exists i, (local pw i t). split; [assumption|]. split.
  - apply Hcomplete; [assumption| | |assumption]; unfold local.
    + apply Qcdiv_le_l; [assumption|]. qlra.
    + apply Qcdiv_le_r; [assumption|]. qlra.
  - unfold local. field. now apply Qc_pos_neq0.
Qed.
End Roots.

Lemma proots_sound (p : Poly.poly) (u : Qc) :
  In u (Poly.proots p) -> 0 <= u /\ u <= 1 /\ Poly.peval p u = 0.
Proof.
  destruct p as [|a [|b [|c p]]]; cbn [Poly.proots In]; try tauto.
  dbl_case (b =? 0)%dbl; [intros []|].
  destruct (0 <=? - a / b)%dbl eqn:E0; [|intros []].
  destruct (- a / b <=? 1)%dbl eqn:E1; [|intros []].
  cbn [andb In]. intros [<-|[]].
  apply Qcleb_le in E0. apply Qcleb_le in E1.
  split; [assumption|]. split; [assumption|].
  cbn [Poly.peval]. field. assumption.
Qed.

Lemma proots_complete_linear (a b u : Qc) :
  b <> 0 -> 0 <= u -> u <= 1 -> Poly.peval [a; b] u = 0 -> In u (Poly.proots [a; b]).
Proof.
  intros Hb H0 H1 Hz. cbn [Poly.peval] in Hz.
  assert (Eu : u = - a / b).
  { assert (E : u * b = - a).
    { replace (u * b) with (a + u * (b + u * 0) - a) by ring. rewrite Hz. ring. }
    rewrite <- E. field. assumption. }
  cbn [Poly.proots]. apply Qc_eq_bool_neq in Hb. rewrite Hb.
  rewrite <- Eu. apply Qcleb_le in H0. apply Qcleb_le in H1. rewrite H0, H1.
  now left.
Qed.

Lemma roots_sound_witness :
  exists rs,
    roots None ex_r = Ok rs /\
    forall t, In t rs ->
      (cuts ex_r).[0] <= t /\ t <= (cuts ex_r).[size ex_r] /\
      exists i, (i < size ex_r)%nat /\
        (cuts ex_r).[i] <= t /\ t <= (cuts ex_r).[S i] /\
        eval (seg_at ex_r i) (local ex_r i t) = 0 /\
        (t < (cuts ex_r).[S i] \/ i = (size ex_r - 1)%nat -> valueAt None ex_r t = Ok 0).
Proof.
  apply (roots_sound None ex_r); [reflexivity|reflexivity|].
  intros i u _ Hu. now apply proots_sound.
Defined.

Lemma roots_complete_witness :
  exists rs,
    roots None ex_r = Ok rs /\
    forall t, (cuts ex_r).[0] <= t -> t <= (cuts ex_r).[size ex_r] ->
      valueAt None ex_r t = Ok 0 -> In t rs.
Proof.
  apply (roots_complete None ex_r); [reflexivity|reflexivity|].
  intros [|[|i]] u Hi H0 H1 Hz.
  - apply proots_complete_linear; [discriminate|assumption|assumption|exact Hz].
  - exfalso. cbn in Hz. 
    assert (E : q 1 1 + u * 0 = q 1 1) by ring.
    rewrite E in Hz. discriminate.
  - cbn in Hi. lia.
Defined.

(* ================================================================== *)
(** * Operators with a value *)
(* ================================================================== *)

Section ValueOperators.
Context {T : Type} {F : Fragment T}.
Variable oob : option Qc.
Implicit Types (a r : Piecewise T).

Lemma push_segs_of_ok (g : T -> T) a ret :
  push_segs_of g a ret = Ok (mkPiecewise (cuts ret) (segs ret ++ map g (segs a))).
Proof.
  unfold push_segs_of.
  destruct (for_rule
    (fun i (r : Piecewise T) =>
       r = mkPiecewise (cuts ret) (segs ret ++ map g (firstn i (segs a))))
    (fun i r => s <- sget (segs a) (Z.of_nat i) ;; Ok (push_seg r (g s)))
    (size a) 0 ret) as (r & Hr & Hinv).
  - cbn [firstn map]. rewrite app_nil_r. now destruct ret.
  - intros i r Hi ->. cbn [Nat.add] in Hi.
    rewrite (sget_at a i) by lia. cbn [bind].
    eexists; split; [reflexivity|]. unfold push_seg, push_back. cbn [cuts segs].
    rewrite (firstn_succ (segs a) i seg_default) by (unfold size in Hi; lia).
    rewrite map_app, <- app_assoc. reflexivity.
  - rewrite Hr, Hinv. cbn [Nat.add]. now rewrite firstn_all2 by (unfold size; lia).
Qed.

Lemma update_segs_ok (g : T -> T) a :
  update_segs g a = Ok (mkPiecewise (cuts a) (map g (segs a))).
Proof.
  unfold update_segs.
  destruct (for_rule
    (fun i (r : Piecewise T) =>
       r = mkPiecewise (cuts a) (map g (firstn i (segs a)) ++ skipn i (segs a)))
    (fun i r => s <- sget (segs r) (Z.of_nat i) ;;
                ss <- vset (segs r) i (g s) ;;
                Ok (mkPiecewise (cuts r) ss))
    (size a) 0 a) as (r & Hr & Hinv).
  - cbn [firstn map skipn app]. now destruct a.
  - intros i r Hi ->. cbn [Nat.add] in Hi. unfold size in Hi.
    assert (Hf : length (map g (firstn i (segs a))) = i).
    { rewrite length_map, length_firstn. lia. }
    assert (Hl : length (map g (firstn i (segs a)) ++ skipn i (segs a)) = length (segs a)).
    { rewrite length_app, length_map, <- length_app, firstn_skipn. reflexivity. }
    unfold sget. cbn [segs cuts].
    rewrite (vgetZ_in None _ i seg_default) by lia. cbn [bind].
    rewrite vset_in by lia. cbn [bind].
    eexists; split; [reflexivity|]. f_equal.
    rewrite app_nth2 by lia. rewrite Hf, Nat.sub_diag.
    rewrite firstn_app, Hf, Nat.sub_diag, firstn_O, app_nil_r.
    rewrite firstn_all2 by lia.
    rewrite skipn_app, Hf.
    replace (S i - i)%nat with 1%nat by lia.
    rewrite (skipn_all2 (n := S i)) by (rewrite Hf; lia). cbn [app].
    rewrite (skipn_cons (segs a) i seg_default) by lia. cbn [nth skipn].
    rewrite (firstn_succ (segs a) i seg_default) by lia. rewrite map_app. cbn [map].
    rewrite <- app_assoc. reflexivity.
  - rewrite Hr, Hinv. cbn [Nat.add].
    rewrite firstn_all2 by (unfold size; lia).
    rewrite skipn_all2 by (unfold size; lia). now rewrite app_nil_r.
Qed.

(** The segments of [a] sent through [g], the cuts kept: the value at
    [t] is that of the image of the segment that holds [t]. *)
Lemma mapped_valueAt (g : T -> T) (h : Qc -> Qc) a :
  (forall s u, eval (g s) u = h (eval s u)) ->
  empty a = false -> invariants oob a = Ok true ->
  let r := mkPiecewise (cuts a) (map g (segs a)) in
  invariants oob r = Ok true /\
  forall t, exists v, valueAt oob a t = Ok v /\ valueAt oob r t = Ok (h v).
Proof.
  intros Hg He Hi r.
  destruct (proper_inv oob a (conj He Hi)) as (Hlen & Hn & HP).
  assert (Hsz : size r = size a) by (unfold size, r; cbn [segs]; apply length_map).
  assert (Hlen' : length (cuts r) = S (size r)) by (rewrite Hsz; exact Hlen).
  assert (Hn' : (0 < size r)%nat) by (rewrite Hsz; exact Hn).
  split; [now apply well_formed_intro|].
  intros t. destruct (owns_exists oob a Hlen Hn HP t) as (i & Ho).
  assert (Ho' : owns r i t).
  { unfold owns in *. rewrite Hsz. exact Ho. }
  rewrite (valueAt_owner oob a Hlen Hn HP t i Ho).
  rewrite (valueAt_owner oob r Hlen' Hn' HP t i Ho').
  eexists. split; [reflexivity|]. f_equal.
  assert (Es : seg_at r i = g (seg_at a i)).
  { unfold seg_at, r. cbn [segs].
    rewrite (nth_indep _ seg_default (g seg_default))
      by (rewrite length_map; apply Ho).
    apply map_nth. }
  rewrite Es, Hg. reflexivity.
Qed.

(** X22 -- the in-place operators agree with the pure ones.  On a
    function with at least one segment, [a += b], [a -= b], [a *= b]
    and [a /= b] return exactly what [a + b], [a - b], [a * b] and
    [a / b] return. *)
Theorem assign_agrees :
  forall a b,
    empty a = false ->
    add_value_assign oob a b = add_value a b /\
    sub_value_assign oob a b = sub_value a b /\
    scale_assign a b = scale a b /\
    divide_assign a b = divide_by a b.
Proof.
  intros a b He.
  unfold add_value_assign, sub_value_assign, scale_assign, divide_assign,
         add_value, sub_value, scale, divide_by.
  rewrite He, !update_segs_ok, !push_segs_of_ok. cbn [cuts segs app].
  repeat split.
Qed.

(** X23 -- [+=] and [-=] on a function without segments.  When there
    are no cuts either, both [a += b] and [a -= b] make the constant
    [T(b)] over the cuts 0 and 1: the subtraction does not negate [b].
    When cuts are left, both stop on an assertion: either 0 is not
    after the last cut, or [push] finds two cuts and no segment. *)
Theorem assign_on_empty :
  forall a b,
    empty a = true ->
    (cuts a = [] ->
     add_value_assign oob a b = Ok (mkPiecewise [0; 1] [seg_const b]) /\
     sub_value_assign oob a b = Ok (mkPiecewise [0; 1] [seg_const b])) /\
    (cuts a <> [] ->
     add_value_assign oob a b = Fault AssertFail /\
     sub_value_assign oob a b = Fault AssertFail).
Proof.
  intros a b He. unfold add_value_assign, sub_value_assign. rewrite He.
  unfold empty in He. destruct a as [cs ss]. cbn [segs] in He.
  destruct ss; [|discriminate].
  split.
  - cbn [cuts]. intros ->. split; reflexivity.
  - cbn [cuts]. intros Hne.
    assert (H : (a1 <- push_cut oob (mkPiecewise cs ([] : list T)) 0 ;;
                 push oob a1 (seg_const b) 1) = Fault AssertFail).
    { unfold push_cut. cbn [cuts segs]. destruct cs as [|x l] eqn:E; [congruence|].
      rewrite <- E. rewrite (vback_last oob cs 0) by congruence. cbn [bind].
      destruct (last cs 0 <? 0)%dbl; cbn [assert bind]; [|reflexivity].
      unfold push. cbn [cuts segs]. rewrite E.
      unfold push_back. cbn [app length]. rewrite length_app. cbn [length].
      replace (S (length l + 1) =? 1)%nat with false; [reflexivity|].
      symmetry. apply Nat.eqb_neq. lia. }
    split; exact H.
Qed.
End ValueOperators.

Section ValueOperatorsPointwise.
Context {T : Type} {F : Fragment T} {L : FragmentLaws T}.
Variable oob : option Qc.
Implicit Types (a r : Piecewise T).

(** X24 -- the operators with a number act pointwise.  For a non-empty
    [a] that satisfies the invariants, [a + b], [a - b], [-a], [a * b]
    and [a / b] all return functions over the cuts of [a]; at every time
    they take the value of [a] plus [b], minus [b], negated, times [b]
    and, for [b] not zero, divided by [b]. *)
Theorem value_operators_pointwise :
  forall a b,
    empty a = false -> invariants oob a = Ok true ->
    exists rp rm rn rs rd,
      add_value a b = Ok rp /\ sub_value a b = Ok rm /\ neg a = Ok rn /\
      scale a b = Ok rs /\ divide_by a b = Ok rd /\
      cuts rp = cuts a /\ cuts rm = cuts a /\ cuts rn = cuts a /\
      cuts rs = cuts a /\ cuts rd = cuts a /\
      forall t, exists v,
        valueAt oob a t = Ok v /\
        valueAt oob rp t = Ok (v + b) /\
        valueAt oob rm t = Ok (v - b) /\
        valueAt oob rn t = Ok (- v) /\
        valueAt oob rs t = Ok (v * b) /\
        (b <> 0 -> valueAt oob rd t = Ok (v / b)).
Proof.
  intros a b He Hi. unfold add_value, sub_value, neg, scale, divide_by.
  rewrite He, !push_segs_of_ok. cbn [cuts segs app].
  destruct (mapped_valueAt oob (fun s => seg_offset s b) (fun v => v + b) a)
    as (_ & Hvp); [intros; apply eval_offset|assumption|assumption|].
  destruct (mapped_valueAt oob (fun s => seg_offset s (- b)) (fun v => v - b) a)
    as (_ & Hvm); [intros; rewrite eval_offset; ring|assumption|assumption|].
  destruct (mapped_valueAt oob seg_neg Qcopp a)
    as (_ & Hvn); [intros; apply eval_neg|assumption|assumption|].
  destruct (mapped_valueAt oob (fun s => seg_scale s b) (fun v => v * b) a)
    as (_ & Hvs); [intros; apply eval_scale|assumption|assumption|].
  destruct (mapped_valueAt oob (fun s => seg_div s b) (fun v => v / b) a)
    as (_ & Hvd); [intros; apply eval_div|assumption|assumption|].
  do 5 eexists. do 10 (split; [reflexivity|]).
  intros t. destruct (Hvp t) as (v & Hv & Hp). destruct (Hvm t) as (v1 & Hv1 & Hm).
  destruct (Hvn t) as (v2 & Hv2 & Hn). destruct (Hvs t) as (v3 & Hv3 & Hs).
  destruct (Hvd t) as (v4 & Hv4 & Hd).
  rewrite Hv in Hv1, Hv2, Hv3, Hv4.
  injection Hv1 as <-. injection Hv2 as <-. injection Hv3 as <-. injection Hv4 as <-.
  exists v. repeat split; try assumption. intros _. assumption.
Qed.
End ValueOperatorsPointwise.

Lemma assign_agrees_witness :
  add_value_assign None ex_f (q 3 1) = add_value ex_f (q 3 1) /\
  sub_value_assign None ex_f (q 3 1) = sub_value ex_f (q 3 1) /\
  scale_assign ex_f (q 3 1) = scale ex_f (q 3 1) /\
  divide_assign ex_f (q 3 1) = divide_by ex_f (q 3 1).
Proof.
  apply (assign_agrees None ex_f (q 3 1)). reflexivity.
Defined.

Lemma assign_on_empty_witness :
  (cuts (mkPiecewise [q (-1) 1] ([] : list Poly.poly)) = [] ->
   add_value_assign None (mkPiecewise [q (-1) 1] ([] : list Poly.poly)) (q 3 1)
   = Ok (mkPiecewise [0; 1] [seg_const (q 3 1)]) /\
   sub_value_assign None (mkPiecewise [q (-1) 1] ([] : list Poly.poly)) (q 3 1)
   = Ok (mkPiecewise [0; 1] [seg_const (q 3 1)])) /\
  (cuts (mkPiecewise [q (-1) 1] ([] : list Poly.poly)) <> [] ->
   add_value_assign None (mkPiecewise [q (-1) 1] ([] : list Poly.poly)) (q 3 1)
   = Fault AssertFail /\
   sub_value_assign None (mkPiecewise [q (-1) 1] ([] : list Poly.poly)) (q 3 1)
   = Fault AssertFail).
Proof.
  apply (assign_on_empty None (mkPiecewise [q (-1) 1] ([] : list Poly.poly)) (q 3 1)).
  reflexivity.
Defined.

Lemma value_operators_pointwise_witness :
  exists rp rm rn rs rd,
    add_value ex_f (q 3 1) = Ok rp /\ sub_value ex_f (q 3 1) = Ok rm /\
    neg ex_f = Ok rn /\
    scale ex_f (q 3 1) = Ok rs /\ divide_by ex_f (q 3 1) = Ok rd /\
    cuts rp = cuts ex_f /\ cuts rm = cuts ex_f /\ cuts rn = cuts ex_f /\
    cuts rs = cuts ex_f /\ cuts rd = cuts ex_f /\
    forall t, exists v,
      valueAt None ex_f t = Ok v /\
      valueAt None rp t = Ok (v + q 3 1) /\
      valueAt None rm t = Ok (v - q 3 1) /\
      valueAt None rn t = Ok (- v) /\
      valueAt None rs t = Ok (v * q 3 1) /\
      (q 3 1 <> 0 -> valueAt None rd t = Ok (v / q 3 1)).
Proof.
  apply (value_operators_pointwise None ex_f (q 3 1)); reflexivity.
Defined.

(* ================================================================== *)
(** * Subtraction of two functions *)
(* ================================================================== *)

Section Subtraction.
Context {T : Type} {F : Fragment T} {L : FragmentLaws T}.
Variable oob : option Qc.
Implicit Types (a b : Piecewise T).

(** X25 -- [a - b] is the pointwise difference.  For non-empty [a] and
    [b] that satisfy the invariants and a time [t] within both domains,
    [a - b] returns a function that satisfies the invariants, whose cuts
    are those of [a] refined by the cuts of [b], and whose value at [t]
    is the value of [a] minus the value of [b]. *)
Theorem sub_pointwise :
  forall a b t,
    empty a = false -> invariants oob a = Ok true ->
    empty b = false -> invariants oob b = Ok true ->
    (cuts a).[0] <= t -> t <= (cuts a).[size a] ->
    (cuts b).[0] <= t -> t <= (cuts b).[size b] ->
    exists pa r va vb,
      partition oob a (cuts b) = Ok pa /\
      sub oob a b = Ok r /\ cuts r = cuts pa /\
      invariants oob r = Ok true /\
      valueAt oob a t = Ok va /\ valueAt oob b t = Ok vb /\
      valueAt oob r t = Ok (va - vb).
Proof.
  intros a b t Ea Ia Eb Ib Ha0 Ha1 Hb0 Hb1.
  destruct (proper_inv oob a (conj Ea Ia)) as (Hla & Hna & HPa).
  destruct (proper_inv oob b (conj Eb Ib)) as (Hlb & Hnb & HPb).
  assert (Hda : in_domain oob a t).
  { exists (mkInterval (cuts a).[0] (cuts a).[size a]). split; [|cbn; split; assumption].
    unfold domain, vfront. rewrite (vget_in oob (cuts a) 0 0) by lia.
    rewrite (vback_cuts oob a Hla). cbn [bind]. unfold Interval_of.
    assert (Hle : (cuts a).[0] <= (cuts a).[size a]) by qlra.
    apply Qcleb_le in Hle. now rewrite Hle. }
  assert (Hdb : in_domain oob b t).
  { exists (mkInterval (cuts b).[0] (cuts b).[size b]). split; [|cbn; split; assumption].
    unfold domain, vfront. rewrite (vget_in oob (cuts b) 0 0) by lia.
    rewrite (vback_cuts oob b Hlb). cbn [bind]. unfold Interval_of.
    assert (Hle : (cuts b).[0] <= (cuts b).[size b]) by qlra.
    apply Qcleb_le in Hle. now rewrite Hle. }
  destruct (pointwise_value oob seg_sub Qcminus a b t eval_sub (conj Ea Ia) (conj Eb Ib) Hda Hdb)
    as (pa & pb & r & va & vb & Hpa & Hpb & Hc & Hs & Hsc & Hva & Hvb & Hsv).
  destruct (pointwise_invariants oob seg_sub a b (conj Ea Ia) (conj Eb Ib))
    as (r' & Hr' & Hinv).
  - right. exists (size b). split; [lia|]. qlra.
  - right. exists (size a). split; [lia|]. qlra.
  - exists pa, r, va, vb. unfold sub.
    rewrite Hs in Hr'. injection Hr' as <-.
    repeat split; assumption.
Qed.
End Subtraction.

Lemma sub_pointwise_witness :
  exists pa r va vb,
    partition None ex_f (cuts ex_g) = Ok pa /\
    sub None ex_f ex_g = Ok r /\ cuts r = cuts pa /\
    invariants None r = Ok true /\
    valueAt None ex_f (q 3 4) = Ok va /\ valueAt None ex_g (q 3 4) = Ok vb /\
    valueAt None r (q 3 4) = Ok (va - vb).
Proof.
  apply (sub_pointwise None ex_f ex_g (q 3 4)); try reflexivity;
    apply Qcleb_le; reflexivity.
Defined.

(* ================================================================== *)
(** * The integral across the cuts *)
(* ================================================================== *)

Section IntegralShape.
Context {T : Type} {F : Fragment T} {L : FragmentLaws T}.
Variable oob : option Qc.
Implicit Types (a r : Piecewise T).

(** X26 -- the integral is continuous and starts at the integrand's
    first value.  For a non-empty [a] that satisfies the invariants,
    [integral(a)] returns a function over the cuts of [a] that satisfies
    the invariants; at every interior cut the segment that ends there
    and the segment that starts there agree, and at the first cut the
    integral has the value that [a] itself has there (the constant of
    integration is [a.segs[0].at0()], not 0). *)
Theorem integral_continuous :
  forall a,
    empty a = false -> invariants oob a = Ok true ->
    exists r,
      integral oob a = Ok r /\ cuts r = cuts a /\
      invariants oob r = Ok true /\
      valueAt oob r (cuts a).[0] = valueAt oob a (cuts a).[0] /\
      forall k, (S k < size a)%nat ->
        eval (seg_at r k) 1 = eval (seg_at r (S k)) 0 /\
        valueAt oob r (cuts a).[S k] = Ok (eval (seg_at r k) 1).
Proof.
  intros a He Hi. destruct (proper_inv oob a (conj He Hi)) as (Hlen & Hn & HP).
  destruct (integral_ok oob a Hlen Hn) as (r & Hr & Hc & Hs & _ & H0 & Hk).
  assert (Hlen' : length (cuts r) = S (size r)) by (rewrite Hc, Hs; exact Hlen).
  assert (Hn' : (0 < size r)%nat) by (rewrite Hs; exact Hn).
  assert (HP' : increasing (cuts r)) by (rewrite Hc; exact HP).
  assert (Hat : forall (p : Piecewise T) k,
            length (cuts p) = S (size p) -> (0 < size p)%nat -> increasing (cuts p) ->
            (k < size p)%nat ->
            valueAt oob p (cuts p).[k] = Ok (eval (seg_at p k) 0)).
  { intros p k Hl Hp Hq Hlt.
    rewrite (valueAt_owner oob p Hl Hp Hq _ k).
    - f_equal. f_equal. unfold local, Qcdiv.
      replace ((cuts p).[k] - (cuts p).[k]) with 0 by ring. ring.
    - apply owns_inside; [assumption|apply Qcle_refl|]. apply Hq. lia. }
  exists r. split; [exact Hr|]. split; [exact Hc|].
  split; [now apply well_formed_intro|].
  split.
  - rewrite <- Hc at 1. rewrite (Hat r 0%nat Hlen' Hn' HP' Hn'), (Hat a 0%nat Hlen Hn HP Hn).
    now rewrite <- !eval_at0, H0.
  - intros k Hlt. specialize (Hk k Hlt). rewrite eval_at0, eval_at1 in Hk.
    split; [now symmetry|].
    rewrite <- Hc. rewrite (Hat r (S k) Hlen' Hn' HP') by (rewrite Hs; exact Hlt).
    now rewrite Hk.
Qed.
End IntegralShape.

Lemma integral_continuous_witness :
  exists r,
    integral None ex_f = Ok r /\ cuts r = cuts ex_f /\
    invariants None r = Ok true /\
    valueAt None r (cuts ex_f).[0] = valueAt None ex_f (cuts ex_f).[0] /\
    forall k, (S k < size ex_f)%nat ->
      eval (seg_at r k) 1 = eval (seg_at r (S k)) 0 /\
      valueAt None r (cuts ex_f).[S k] = Ok (eval (seg_at r k) 1).
Proof.
  apply (integral_continuous None ex_f); reflexivity.
Defined.

(* ================================================================== *)
(** * What a composition returns *)
(* ================================================================== *)

Lemma for_loop_inv {S : Type} (Inv : S -> Prop) (body : nat -> S -> outcome S) :
  (forall i s s', Inv s -> body i s = Ok s' -> Inv s') ->
  forall n lo s r, Inv s -> for_loop lo n body s = Ok r -> Inv r.
Proof.
  intros Hstep. induction n as [|n IH]; intros lo s r HI Hr; cbn [for_loop] in Hr.
  - now injection Hr as <-.
  - destruct (body lo s) as [s'|e] eqn:E; cbn [bind] in Hr; [|discriminate].
    apply (IH (Datatypes.S lo) s' r); [|assumption]. now apply (Hstep lo s s').
Qed.

Section ComposeResult.
Context {T : Type} {F : Fragment T}.
Variable oob : option Qc.
Variable SBasis : Type.
Variable isZero : SBasis -> bool.
Variable sb_bounds_fast : SBasis -> Interval.
Variable Linear : Qc -> Qc -> SBasis.
Variable sb_compose : SBasis -> SBasis -> SBasis.
Variable seg_compose : T -> SBasis -> T.
Variable compose_pullback : list Qc -> SBasis -> list (Qc * Z).
Variable compose_findSegIdx : Qc * Z -> Qc * Z -> list Qc -> SBasis -> Z.
Implicit Types (f r : Piecewise T).

Lemma of_seg_result (s : T) r :
  of_seg oob s = Ok r -> r = mkPiecewise [0; 1] [s].
Proof.
  intros H. assert (E : of_seg oob s = Ok (mkPiecewise [0; 1] [s])) by reflexivity.
  congruence.
Qed.

Lemma of_seg_starts (s : T) r :
  of_seg oob s = Ok r ->
  invariants oob r = Ok true /\ exists l, cuts r = 0 :: l.
Proof.
  intros H. destruct (of_seg_invariants oob s) as (r' & Hr' & Hi).
  split; [congruence|]. apply of_seg_result in H. subst r. now exists [1].
Qed.

Lemma compose_pieces_starts f g levels : forall rest result cut r,
  invariants oob result = Ok true -> (exists l, cuts result = 0 :: l) ->
  compose_pieces oob Linear sb_compose seg_compose compose_findSegIdx
                 f g levels result cut rest = Ok r ->
  invariants oob r = Ok true /\ exists l, cuts r = 0 :: l.
Proof.
  induction rest as [|next rest IH]; intros result cut r Hi (l & Hl) Hr;
    cbn [compose_pieces] in Hr.
  - injection Hr as <-. split; [assumption|now exists l].
  - destruct (assert (Z.abs (int_of_unsigned_diff (snd cut) (snd next)) <? 1)%Z);
      cbn [bind] in Hr; [|discriminate].
    destruct (compose_with_seg oob Linear sb_compose seg_compose f
                (compose_findSegIdx cut next levels g)
                (sb_compose g (Linear (fst cut) (fst next)))) as [s|e];
      cbn [bind] in Hr; [|discriminate].
    destruct (push oob result s (fst next)) as [result'|e] eqn:Ep;
      cbn [bind] in Hr; [|discriminate].
    apply (IH result' next r); [now apply (push_invariants oob result s (fst next))| |assumption].
    unfold push in Ep.
    destruct (assert (length (cuts result) =? S (length (segs result)))%nat);
      cbn [bind] in Ep; [|discriminate].
    apply push_cut_inv in Ep. subst result'. cbn [cuts push_seg].
    rewrite Hl. now exists (l ++ [fst next]).
Qed.

(** The result of [compose(f, g)], whichever path produced it. *)
Lemma compose_result f g r :
  compose oob isZero sb_bounds_fast Linear sb_compose seg_compose
          compose_pullback compose_findSegIdx f g = Ok r ->
  invariants oob r = Ok true /\ (empty f = false -> exists l, cuts r = 0 :: l).
Proof.
  unfold compose. destruct (empty f) eqn:He.
  { intros [= <-]. split; [reflexivity|discriminate]. }
  intros Hr.
  assert (H : invariants oob r = Ok true /\ exists l, cuts r = 0 :: l);
    [|split; [apply H|intros _; apply H]].
  destruct (isZero g).
  { destruct (valueAt oob f 0) as [v|e]; cbn [bind] in Hr; [|discriminate].
    now apply (of_seg_starts (seg_const v)). }
  destruct (size f =? 1)%nat.
  { destruct (compose_with_seg oob Linear sb_compose seg_compose f 0 g) as [s|e];
      cbn [bind] in Hr; [|discriminate].
    now apply (of_seg_starts s). }
  destruct (vfront oob (cuts f)) as [cf|e]; cbn [bind] in Hr; [|discriminate].
  destruct (vback oob (cuts f)) as [cb|e]; cbn [bind] in Hr; [|discriminate].
  destruct ((cf >? imax (sb_bounds_fast g))%dbl || (imin (sb_bounds_fast g) >? cb)%dbl).
  { destruct (vget oob (cuts f) 1) as [c1|e]; cbn [bind] in Hr; [|discriminate].
    match type of Hr with
    | bind ?m _ = _ => destruct m as [s|e]; cbn [bind] in Hr; [|discriminate]
    end.
    now apply (of_seg_starts s). }
  destruct (compose_pullback (slice (cuts f) 1 (length (cuts f) - 1)) g) as [|cut rest];
    [discriminate|].
  apply (compose_pieces_starts f g (slice (cuts f) 1 (length (cuts f) - 1)) rest
           (mkPiecewise [0] []) cut r); [reflexivity|now exists []|assumption].
Qed.

(** X27 -- whatever [compose(f, g)] returns satisfies the invariants.
    On every path that produces a result (the empty [f], the zero [g],
    the single segment, the range of [g] outside the domain of [f], and
    the general one, where every piece goes through the guarded
    [push]), the result has its cuts in increasing order and one cut
    more than segments; and unless [f] is empty its first cut is 0. *)
Theorem compose_invariants :
  forall f g r,
    compose oob isZero sb_bounds_fast Linear sb_compose seg_compose
            compose_pullback compose_findSegIdx f g = Ok r ->
    invariants oob r = Ok true /\ (empty f = false -> exists l, cuts r = 0 :: l).
Proof. exact compose_result. Qed.

Lemma Interval_of_ordered (u v : Qc) : imin (Interval_of u v) <= imax (Interval_of u v).
Proof.
  unfold Interval_of. dbl_case (u <=? v)%dbl; cbn [imin imax]; [assumption|].
  now apply Qclt_le_weak.
Qed.

Lemma setDomain_keeps p dom r :
  invariants oob p = Ok true -> imin dom <= imax dom ->
  setDomain oob p dom = Ok r -> invariants oob r = Ok true.
Proof.
  intros Hi Hdom. unfold setDomain. destruct (empty p) eqn:He; [now intros [= <-]|].
  unfold isEmpty. dbl_case (imin dom =? imax dom)%dbl; [now intros [= <-]|].
  destruct (proper_inv oob p (conj He Hi)) as (Hlen & Hn & HP).
  unfold vfront. rewrite (vget_in oob (cuts p) 0 0) by lia.
  rewrite (vback_cuts oob p Hlen). cbn [bind].
  rewrite map_cuts_ok by assumption. intros [= <-].
  set (cf := (cuts p).[0]). set (s := extent dom / ((cuts p).[size p] - cf)).
  assert (Hw : 0 < (cuts p).[size p] - cf).
  { assert ((cuts p).[0] < (cuts p).[size p]) by (apply increasing_lt; [assumption|lia]).
    subst cf. qlra. }
  assert (Hs : 0 < s).
  { subst s. apply Qcdiv_lt_l; [exact Hw|]. unfold extent. qlra. }
  assert (Hmove : forall c, (fun c => (c - cf) * s + (imin dom - cf)) c
                            = c * s + (imin dom - cf - cf * s))
    by (intros c; ring).
  destruct (remap_valueAt oob p _ s _ Hlen Hn HP Hs Hmove) as (Hlen' & HP' & _).
  now apply well_formed_intro.
Qed.

Lemma concat_keeps p other r :
  invariants oob p = Ok true -> invariants oob other = Ok true ->
  concat oob p other = Ok r -> invariants oob r = Ok true.
Proof.
  intros Hi Hio. unfold concat.
  destruct (empty other) eqn:Heo; [now intros [= <-]|].
  destruct (empty p) eqn:He.
  { intros [= <-]. now destruct other. }
  destruct (proper_inv oob p (conj He Hi)) as (Hlen & Hn & HP).
  destruct (proper_inv oob other (conj Heo Hio)) as (Hleno & Hno & HPo).
  intros Hr.
  assert (E := concat_ok oob p other Hlen Hn HP Hleno Hno HPo).
  unfold concat in E. rewrite Heo, He in E. rewrite E in Hr. injection Hr as <-.
  apply well_formed_intro; [now apply joined_length|now apply joined_increasing].
Qed.

(** X28 -- whatever [compose(f, g)] returns for a piecewise [g]
    satisfies the invariants: each piece comes from [compose] with one
    segment of [g], is laid over an interval with its bounds in order,
    and is appended by [concat], whose cuts go through the guarded
    [push_cut]. *)
Theorem compose_pw_invariants :
  forall f (g : Piecewise SBasis) r,
    compose_pw oob isZero sb_bounds_fast Linear sb_compose seg_compose
               compose_pullback compose_findSegIdx f g = Ok r ->
    invariants oob r = Ok true.
Proof.
  intros f g r. unfold compose_pw.
  apply (for_loop_inv (fun r => invariants oob r = Ok true)); [|reflexivity].
  intros i s s' Hs Hb.
  destruct (vgetZ None (segs g) (Z.of_nat i)) as [gi|e]; cbn [bind] in Hb; [|discriminate].
  destruct (compose oob isZero sb_bounds_fast Linear sb_compose seg_compose
                    compose_pullback compose_findSegIdx f gi) as [fgi|e] eqn:Ec;
    cbn [bind] in Hb; [|discriminate].
  destruct (vget oob (cuts g) i) as [ci|e]; cbn [bind] in Hb; [|discriminate].
  destruct (vget oob (cuts g) (i + 1)) as [ci1|e]; cbn [bind] in Hb; [|discriminate].
  destruct (setDomain oob fgi (Interval_of ci ci1)) as [fgi'|e] eqn:Ed;
    cbn [bind] in Hb; [|discriminate].
  apply (concat_keeps s fgi' s'); [assumption| |assumption].
  apply (setDomain_keeps fgi (Interval_of ci ci1)); [|apply Interval_of_ordered|assumption].
  now apply (compose_result f gi fgi).
Qed.
End ComposeResult.

(** A run of [compose] through its general path: the identity over
    [0, 2] against [ex_f], whose pullback against the level 1 stays in
    segment 0. *)
Lemma compose_invariants_witness :
  invariants None (mkPiecewise [q 0 1; q 1 2; q 1 1] [[q 1 1; q 2 1]; [q 1 1; q 2 1]])
  = Ok true /\
  (empty ex_f = false ->
   exists l, cuts (mkPiecewise [q 0 1; q 1 2; q 1 1] [[q 1 1; q 2 1]; [q 1 1; q 2 1]])
             = 0 :: l).
Proof.
  apply (compose_invariants (F := Poly.poly_fragment) None unit
           (fun _ : unit => false) (fun _ => mkInterval (q 0 1) (q 2 1))
           (fun _ _ => tt) (fun _ _ => tt) (fun s _ => s)
           (fun _ _ => [(q 0 1, 0%Z); (q 1 2, 0%Z); (q 1 1, 0%Z)])
           (fun cut _ _ _ => snd cut)
           ex_f tt).
  reflexivity.
Defined.

(** The same run for each of two segments of a piecewise [g] over
    [0, 1] and [1, 3]. *)
Lemma compose_pw_invariants_witness :
  invariants None
    (mkPiecewise [q 0 1; q 1 2; q 1 1; q 2 1; q 3 1]
       [[q 1 1; q 2 1]; [q 1 1; q 2 1]; [q 1 1; q 2 1]; [q 1 1; q 2 1]])
  = Ok true.
Proof.
  apply (compose_pw_invariants (F := Poly.poly_fragment) None unit
           (fun _ : unit => false) (fun _ => mkInterval (q 0 1) (q 2 1))
           (fun _ _ => tt) (fun _ _ => tt) (fun s _ => s)
           (fun _ _ => [(q 0 1, 0%Z); (q 1 2, 0%Z); (q 1 1, 0%Z)])
           (fun cut _ _ _ => snd cut)
           ex_f (mkPiecewise [q 0 1; q 1 1; q 3 1] [tt; tt])).
  reflexivity.
Defined.

(* ================================================================== *)
(** * Bounds *)
(* ================================================================== *)

Lemma contains_union_l (a b : Interval) x : contains a x -> contains (unionWith a b) x.
Proof.
  intros [H1 H2]. unfold contains, unionWith, Qcmin, Qcmax. cbn [imin imax].
  split.
  - dbl_case (imin b <? imin a)%dbl; qlra.
  - dbl_case (imax a <? imax b)%dbl; qlra.
Qed.

Lemma contains_union_r (a b : Interval) x : contains b x -> contains (unionWith a b) x.
Proof.
  intros [H1 H2]. unfold contains, unionWith, Qcmin, Qcmax. cbn [imin imax].
  split.
  - dbl_case (imin b <? imin a)%dbl; qlra.
  - dbl_case (imax a <? imax b)%dbl; qlra.
Qed.

Lemma contains_Interval_of (a b x : Qc) : a <= x -> x <= b -> contains (Interval_of a b) x.
Proof.
  intros H1 H2. unfold contains, Interval_of.
  dbl_case (a <=? b)%dbl; cbn [imin imax]; split; qlra.
Qed.

Section OwnerOrder.
Context {T : Type}.
Implicit Types (p : Piecewise T).

Lemma nonempty_of_size_pos p : (0 < size p)%nat -> empty p = false.
Proof. unfold size, empty. destruct (segs p); [cbn; lia|reflexivity]. Qed.

Lemma owns_lower p i t :
  length (cuts p) = S (size p) -> increasing (cuts p) ->
  owns p i t -> (0 < i)%nat -> (cuts p).[i] <= t.
Proof.
  intros Hlen HP [Hi [[_ ->]|[[Hge ->]|[Hlo _]]]] H0; [lia| |assumption].
  assert ((cuts p).[size p - 1] <= (cuts p).[size p]) by (apply increasing_le; [assumption|lia]).
  qlra.
Qed.

Lemma owns_upper p i t :
  length (cuts p) = S (size p) -> increasing (cuts p) ->
  owns p i t -> (S i < size p)%nat -> t < (cuts p).[S i].
Proof.
  intros Hlen HP [Hi [[Hlt ->]|[[_ ->]|[_ Hhi]]]] H0; [|lia|assumption].
  assert ((cuts p).[0] < (cuts p).[1]) by (apply HP; lia).
  qlra.
Qed.

Lemma owns_mono p i1 i2 t1 t2 :
  length (cuts p) = S (size p) -> increasing (cuts p) ->
  owns p i1 t1 -> owns p i2 t2 -> t1 <= t2 -> (i1 <= i2)%nat.
Proof.
  intros Hlen HP H1 H2 Ht.
  destruct (Nat.le_gt_cases i1 i2) as [|Hgt]; [assumption|exfalso].
  assert (Hi1 : (i1 < size p)%nat) by apply H1.
  assert (Ha := owns_lower p i1 t1 Hlen HP H1 ltac:(lia)).
  assert (Hb := owns_upper p i2 t2 Hlen HP H2 ltac:(lia)).
  assert ((cuts p).[S i2] <= (cuts p).[i1]) by (apply increasing_le; [assumption|lia]).
  qlra.
Qed.
End OwnerOrder.

Section BoundsFacts.
Context {T : Type} {F : Fragment T} {B : FragmentBounds T}.
Variable oob : option Qc.
Implicit Types (f : Piecewise T).

(** The time of a value of the domain, local to its segment, lies in
    [0, 1]. *)
Lemma local_in_unit f i t :
  length (cuts f) = S (size f) -> (0 < size f)%nat -> increasing (cuts f) ->
  owns f i t -> (cuts f).[0] <= t -> t <= (cuts f).[size f] ->
  0 <= local f i t /\ local f i t <= 1.
Proof.
  intros Hlen Hn HP Ho Hlo Hhi.
  assert (Hi : (i < size f)%nat) by apply Ho.
  assert (Hw := width_pos f Hlen Hn HP i Hi).
  assert (Hin : (cuts f).[i] <= t /\ t <= (cuts f).[S i]).
  { destruct Ho as [_ [[Hb ->]|[[Ha ->]|[Hl Hh]]]].
    - exfalso. qlra.
    - replace (S (size f - 1)) with (size f) by lia.
      assert ((cuts f).[size f - 1] <= (cuts f).[size f])
        by (apply increasing_le; [assumption|lia]).
      split; [qlra|assumption].
    - split; [assumption|now apply Qclt_le_weak]. }
  unfold local. split.
  - apply Qcdiv_le_l; [assumption|]. qlra.
  - apply Qcdiv_le_r; [assumption|]. qlra.
Qed.

Lemma bounds_union_sound (b : T -> Interval) f :
  length (cuts f) = S (size f) -> (0 < size f)%nat -> increasing (cuts f) ->
  (forall i u, (i < size f)%nat -> 0 <= u -> u <= 1 ->
     contains (b (seg_at f i)) (eval (seg_at f i) u)) ->
  exists r, bounds_union b f = Ok r /\
    forall t, (cuts f).[0] <= t -> t <= (cuts f).[size f] ->
      exists v, valueAt oob f t = Ok v /\ contains r v.
Proof.
  intros Hlen Hn HP Hb. unfold bounds_union.
  rewrite (nonempty_of_size_pos f Hn).
  change 0%Z with (Z.of_nat 0). rewrite (sget_at f 0 Hn). cbn [bind].
  destruct (for_rule
    (fun i (ret : Interval) =>
       forall k u, (k < i)%nat -> 0 <= u -> u <= 1 ->
         contains ret (eval (seg_at f k) u))
    (fun i ret => s <- sget (segs f) (Z.of_nat i) ;; Ok (unionWith ret (b s)))
    (size f - 1) 1 (b (seg_at f 0))) as (r & Hr & Hinv).
  - intros k u Hk H0 H1. assert (k = 0)%nat as -> by lia. now apply Hb.
  - intros i ret Hi Hinv. rewrite (sget_at f i) by lia. cbn [bind].
    eexists; split; [reflexivity|]. intros k u Hk H0 H1.
    destruct (Nat.eq_dec k i) as [->|Hne].
    + apply contains_union_r. apply Hb; [lia|assumption|assumption].
    + apply contains_union_l. apply Hinv; [lia|assumption|assumption].
  - exists r. split; [exact Hr|]. intros t Hlo Hhi.
    destruct (owns_exists oob f Hlen Hn HP t) as (i & Ho).
    rewrite (valueAt_owner oob f Hlen Hn HP t i Ho). eexists; split; [reflexivity|].
    destruct (local_in_unit f i t Hlen Hn HP Ho Hlo Hhi) as [H0 H1].
    apply Hinv; [|assumption|assumption].
    assert (i < size f)%nat by apply Ho. lia.
Qed.

(** X29 -- [bounds_fast] and [bounds_exact] enclose the function.  For
    a non-empty [f] that satisfies the invariants and whose segments'
    bounds enclose the segments over [0, 1], both calls return an
    interval that contains the value of [f] at every time of its
    domain. *)
Theorem bounds_enclose :
  forall f,
    empty f = false -> invariants oob f = Ok true ->
    (forall i u, (i < size f)%nat -> 0 <= u -> u <= 1 ->
       contains (seg_bounds_fast (seg_at f i)) (eval (seg_at f i) u) /\
       contains (seg_bounds_exact (seg_at f i)) (eval (seg_at f i) u)) ->
    exists bf be,
      bounds_fast f = Ok bf /\ bounds_exact f = Ok be /\
      forall t, (cuts f).[0] <= t -> t <= (cuts f).[size f] ->
        exists v, valueAt oob f t = Ok v /\ contains bf v /\ contains be v.
Proof.
  intros f He Hi Hb. destruct (proper_inv oob f (conj He Hi)) as (Hlen & Hn & HP).
  destruct (bounds_union_sound seg_bounds_fast f Hlen Hn HP) as (bf & Hbf & Hvf);
    [intros; now apply Hb|].
  destruct (bounds_union_sound seg_bounds_exact f Hlen Hn HP) as (be & Hbe & Hve);
    [intros; now apply Hb|].
  exists bf, be. split; [exact Hbf|]. split; [exact Hbe|].
  intros t Hlo Hhi. destruct (Hvf t Hlo Hhi) as (v & Hv & Hcf).
  destruct (Hve t Hlo Hhi) as (v' & Hv' & Hce).
  exists v. split; [assumption|]. split; [assumption|]. congruence.
Qed.
End BoundsFacts.

Lemma Qcinv_nonneg (w : Qc) : 0 < w -> 0 <= / w.
Proof. intros H. qc2q. now apply Qlt_le_weak, Qinv_lt_0_compat. Qed.

Section BoundsLocal.
Context {T : Type} {F : Fragment T} {B : FragmentBounds T}.
Variable oob : option Qc.
Variable f : Piecewise T.

Hypothesis Hlen : length (cuts f) = S (size f).
Hypothesis Hn : (0 < size f)%nat.
Hypothesis HP : increasing (cuts f).

Lemma local_mono i t1 t2 :
  (i < size f)%nat -> t1 <= t2 -> local f i t1 <= local f i t2.
Proof.
  intros Hi Ht. assert (Hw := width_pos f Hlen Hn HP i Hi).
  unfold local, Qcdiv. apply Qcmult_le_compat_r; [qlra|now apply Qcinv_nonneg].
Qed.

Lemma local_zero i t : (i < size f)%nat -> local f i t = 0 -> t = (cuts f).[i].
Proof.
  intros Hi H0. assert (Hw := width_pos f Hlen Hn HP i Hi).
  assert (E : t - (cuts f).[i] = local f i t * ((cuts f).[S i] - (cuts f).[i])).
  { unfold local. field. now apply Qc_pos_neq0. }
  rewrite H0 in E. qlra.
Qed.

Lemma local_nonneg i t : (i < size f)%nat -> (cuts f).[i] <= t -> 0 <= local f i t.
Proof.
  intros Hi Ht. assert (Hw := width_pos f Hlen Hn HP i Hi).
  unfold local. apply Qcdiv_le_l; [assumption|]. qlra.
Qed.

Lemma local_le_1 i t : (i < size f)%nat -> t <= (cuts f).[S i] -> local f i t <= 1.
Proof.
  intros Hi Ht. assert (Hw := width_pos f Hlen Hn HP i Hi).
  unfold local. apply Qcdiv_le_r; [assumption|]. qlra.
Qed.

Hypothesis Hlocal : forall i I u, (i < size f)%nat -> contains I u ->
  contains (seg_bounds_local (seg_at f i) I) (eval (seg_at f i) u).
Hypothesis Hexact : forall i u, (i < size f)%nat -> 0 <= u -> u <= 1 ->
  contains (seg_bounds_exact (seg_at f i)) (eval (seg_at f i) u).

(** The middle loop of [bounds_local]: the segments strictly between
    the first and the last. *)
Lemma bounds_local_loop (i_f i_t : nat) (ft : Qc) :
  (i_f < i_t)%nat -> (i_t < size f)%nat ->
  exists ret,
    for_loop (S i_f) (i_t - S i_f)
      (fun i ret => s <- sget (segs f) (Z.of_nat i) ;;
                    Ok (unionWith ret (seg_bounds_exact s)))
      (seg_bounds_local (seg_at f i_f) (Interval_of ft 1)) = Ok ret /\
    (forall u, ft <= u -> u <= 1 -> contains ret (eval (seg_at f i_f) u)) /\
    (forall k u, (i_f < k < i_t)%nat -> 0 <= u -> u <= 1 ->
       contains ret (eval (seg_at f k) u)).
Proof.
  intros Hft Ht.
  destruct (for_rule
    (fun i (ret : Interval) =>
       (forall u, ft <= u -> u <= 1 -> contains ret (eval (seg_at f i_f) u)) /\
       (forall k u, (i_f < k < i)%nat -> 0 <= u -> u <= 1 ->
          contains ret (eval (seg_at f k) u)))
    (fun i ret => s <- sget (segs f) (Z.of_nat i) ;;
                  Ok (unionWith ret (seg_bounds_exact s)))
    (i_t - S i_f) (S i_f) (seg_bounds_local (seg_at f i_f) (Interval_of ft 1)))
    as (ret & Hr & Hinv).
  - split.
    + intros u H0 H1. apply Hlocal; [lia|]. now apply contains_Interval_of.
    + intros k u Hk. lia.
  - intros i ret Hi [Hfirst Hmid]. rewrite (sget_at f i) by lia. cbn [bind].
    eexists; split; [reflexivity|]. split.
    + intros u H0 H1. apply contains_union_l. now apply Hfirst.
    + intros k u Hk H0 H1. destruct (Nat.eq_dec k i) as [->|Hne].
      * apply contains_union_r. apply Hexact; [lia|assumption|assumption].
      * apply contains_union_l. apply Hmid; [lia|assumption|assumption].
  - exists ret. split; [exact Hr|].
    replace (S i_f + (i_t - S i_f))%nat with i_t in Hinv by lia. exact Hinv.
Qed.

Lemma bounds_local_sound (m : Interval) :
  imin m <= imax m ->
  exists b,
    bounds_local oob f m = Ok b /\
    forall t, imin m <= t -> t <= imax m ->
      (imin m < imax m ->
       t < imax m \/ forall k, (0 < k < size f)%nat -> imax m <> (cuts f).[k]) ->
      exists v, valueAt oob f t = Ok v /\ contains b v.
Proof.
  intros Hm. unfold bounds_local. rewrite (nonempty_of_size_pos f Hn).
  unfold isEmpty. dbl_case (imin m =? imax m)%dbl.
  { destruct (owns_exists oob f Hlen Hn HP (imin m)) as (i & Ho).
    rewrite (valueAt_owner oob f Hlen Hn HP _ i Ho). cbn [bind].
    eexists; split; [reflexivity|]. intros t Hlo Hhi _.
    assert (t = imin m) as -> by qlra.
    rewrite (valueAt_owner oob f Hlen Hn HP _ i Ho).
    eexists; split; [reflexivity|]. split; apply Qcle_refl. }
  assert (Hlt : imin m < imax m) by qlra.
  destruct (segN_owner oob f Hlen Hn HP (imin m) 0 Hn (or_introl eq_refl))
    as (i_f & Hsf & Hof & _).
  destruct (segN_owner oob f Hlen Hn HP (imax m) 0 Hn (or_introl eq_refl))
    as (i_t & Hst & Hot & _).
  change (Z.of_nat 0) with 0%Z in Hsf, Hst. rewrite Hsf, Hst. cbn [bind].
  assert (Hif : (i_f < size f)%nat) by apply Hof.
  assert (Hit : (i_t < size f)%nat) by apply Hot.
  rewrite (segT_local oob f Hlen _ i_f Hif), (segT_local oob f Hlen _ i_t Hit).
  cbn [bind].
  assert (Hle : (i_f <= i_t)%nat) by (apply (owns_mono f i_f i_t (imin m) (imax m)); auto).
  assert (Hbetween : forall t j, imin m <= t -> t <= imax m -> owns f j t ->
            (i_f <= j <= i_t)%nat).
  { intros t j Hlo Hhi Ho. split.
    - apply (owns_mono f i_f j (imin m) t); auto.
    - apply (owns_mono f j i_t t (imax m)); auto. }
  rewrite (sget_at f i_f Hif). cbn [bind].
  destruct (Z.eqb_spec (Z.of_nat i_f) (Z.of_nat i_t)) as [Eidx|Eidx].
  - apply Nat2Z.inj in Eidx. subst i_t.
    eexists; split; [reflexivity|]. intros t Hlo Hhi _.
    destruct (owns_exists oob f Hlen Hn HP t) as (j & Ho).
    assert (j = i_f) as -> by (specialize (Hbetween t j Hlo Hhi Ho); lia).
    rewrite (valueAt_owner oob f Hlen Hn HP t i_f Ho).
    eexists; split; [reflexivity|]. apply Hlocal; [assumption|].
    apply contains_Interval_of; now apply local_mono.
  - assert (Hft : (i_f < i_t)%nat) by lia.
    replace (Z.to_nat (Z.of_nat i_f + 1)) with (S i_f) by lia.
    rewrite Nat2Z.id.
    destruct (bounds_local_loop i_f i_t (local f i_f (imin m)) Hft Hit)
      as (ret & Hr & Hfirst & Hmid).
    rewrite Hr. cbn [bind].
    assert (Hcover : forall t j, imin m <= t -> t <= imax m -> owns f j t ->
              (j < i_t)%nat -> contains ret (eval (seg_at f j) (local f j t))).
    { intros t j Hlo Hhi Ho Hj.
      assert (Hup := owns_upper f j t Hlen HP Ho ltac:(lia)).
      destruct (Nat.eq_dec j i_f) as [->|Hne].
      - apply Hfirst; [now apply local_mono|].
        apply local_le_1; [assumption|now apply Qclt_le_weak].
      - specialize (Hbetween t j Hlo Hhi Ho).
        assert (Hlow := owns_lower f j t Hlen HP Ho ltac:(lia)).
        apply Hmid; [lia|apply local_nonneg; [lia|assumption]|].
        apply local_le_1; [lia|now apply Qclt_le_weak]. }
    assert (Hlow_t : (cuts f).[i_t] <= imax m)
      by (apply (owns_lower f i_t); auto; lia).
    dbl_case (local f i_t (imax m) =? 0)%dbl; cbn [negb].
    + eexists; split; [reflexivity|]. intros t Hlo Hhi Hex.
      destruct (owns_exists oob f Hlen Hn HP t) as (j & Ho).
      rewrite (valueAt_owner oob f Hlen Hn HP t j Ho).
      eexists; split; [reflexivity|].
      destruct (Nat.eq_dec j i_t) as [->|Hne];
        [exfalso|apply (Hcover t j); auto; specialize (Hbetween t j Hlo Hhi Ho); lia].
      assert (Hend : imax m = (cuts f).[i_t]) by now apply local_zero.
      assert (Hlow := owns_lower f i_t t Hlen HP Ho ltac:(lia)).
      destruct (Hex Hlt) as [Hbefore|Hnocut].
      * qlra.
      * apply (Hnocut i_t); [lia|assumption].
    + rewrite (sget_at f i_t Hit). cbn [bind].
      eexists; split; [reflexivity|]. intros t Hlo Hhi _.
      destruct (owns_exists oob f Hlen Hn HP t) as (j & Ho).
      rewrite (valueAt_owner oob f Hlen Hn HP t j Ho).
      eexists; split; [reflexivity|].
      destruct (Nat.eq_dec j i_t) as [->|Hne].
      * apply contains_union_r. apply Hlocal; [assumption|].
        assert (Hlow := owns_lower f i_t t Hlen HP Ho ltac:(lia)).
        apply contains_Interval_of; [now apply local_nonneg|now apply local_mono].
      * apply contains_union_l. apply (Hcover t j); auto.
        specialize (Hbetween t j Hlo Hhi Ho). lia.
Qed.
End BoundsLocal.

Section BoundsLocalProperty.
Context {T : Type} {F : Fragment T} {B : FragmentBounds T}.
Variable oob : option Qc.

(** X30 -- [bounds_local] encloses the function over an interval, but
    for one point.  Take a non-empty [f] that satisfies the invariants,
    whose segments' local bounds enclose each segment over the interval
    asked for and whose exact bounds enclose it over [0, 1], and an
    interval [m] with its bounds in order.  Then [bounds_local(f, m)]
    returns an interval that contains the value of [f] at every time of
    [m] before the end of [m], and at the end of [m] as well unless [m]
    ends on an interior cut of [f]: the segment that starts on that cut
    is then left out. *)
Theorem bounds_local_encloses :
  forall (f : Piecewise T) (m : Interval),
    empty f = false -> invariants oob f = Ok true ->
    (forall i I u, (i < size f)%nat -> contains I u ->
       contains (seg_bounds_local (seg_at f i) I) (eval (seg_at f i) u)) ->
    (forall i u, (i < size f)%nat -> 0 <= u -> u <= 1 ->
       contains (seg_bounds_exact (seg_at f i)) (eval (seg_at f i) u)) ->
    imin m <= imax m ->
    exists b,
      bounds_local oob f m = Ok b /\
      forall t, imin m <= t -> t <= imax m ->
        (imin m < imax m ->
         t < imax m \/ forall k, (0 < k < size f)%nat -> imax m <> (cuts f).[k]) ->
        exists v, valueAt oob f t = Ok v /\ contains b v.
Proof.
  intros f m He Hi Hlocal Hexact Hm.
  destruct (proper_inv oob f (conj He Hi)) as (Hlen & Hn & HP).
  now apply bounds_local_sound.
Qed.
End BoundsLocalProperty.

Module PolyBoundsFacts.
Import Poly PolyBounds.

Lemma unit_scale (u y lo hi : Qc) :
  0 <= u -> u <= 1 -> lo <= y -> y <= hi ->
  Qcmin 0 lo <= u * y /\ u * y <= Qcmax 0 hi.
Proof.
  intros H0 H1 Hlo Hhi. unfold Qcmin, Qcmax.
  dbl_case (lo <? 0)%dbl; dbl_case (0 <? hi)%dbl; split; qc2q; nra.
Qed.

Lemma pbounds_sound (p : poly) (u : Qc) :
  0 <= u -> u <= 1 -> contains (pbounds p) (peval p u).
Proof.
  intros H0 H1. induction p as [|a p IH]; cbn [pbounds peval].
  - split; apply Qcle_refl.
  - destruct IH as [Hlo Hhi].
    destruct (unit_scale u (peval p u) _ _ H0 H1 Hlo Hhi) as [Ha Hb].
    unfold contains. cbn [imin imax]. split; qlra.
Qed.

Lemma pbounds_local_sound (p : poly) (I : Interval) (x : Qc) :
  contains I x ->
  contains (pbounds (paffine p (imin I) (imax I - imin I))) (peval p x).
Proof.
  intros [Hlo Hhi].
  destruct (Qc_eq_dec (imin I) (imax I)) as [E|E].
  - assert (x = imin I) as -> by qlra.
    replace (peval p (imin I))
      with (peval (paffine p (imin I) (imax I - imin I)) 0).
    + apply pbounds_sound; [apply Qcle_refl|]. apply Qcleb_le. reflexivity.
    + rewrite PolyFacts.peval_paffine. f_equal. ring.
  - assert (Hw : 0 < imax I - imin I) by qlra.
    replace (peval p x)
      with (peval (paffine p (imin I) (imax I - imin I))
                  ((x - imin I) / (imax I - imin I))).
    + apply pbounds_sound.
      * apply Qcdiv_le_l; [assumption|]. qlra.
      * apply Qcdiv_le_r; [assumption|]. qlra.
    + rewrite PolyFacts.peval_paffine. f_equal. field. now apply Qc_pos_neq0.
Qed.
End PolyBoundsFacts.

Lemma bounds_enclose_witness :
  exists bf be,
    bounds_fast ex_f = Ok bf /\ bounds_exact ex_f = Ok be /\
    forall t, (cuts ex_f).[0] <= t -> t <= (cuts ex_f).[size ex_f] ->
      exists v, valueAt None ex_f t = Ok v /\ contains bf v /\ contains be v.
Proof.
  apply (bounds_enclose None ex_f); [reflexivity|reflexivity|].
  intros i u _ H0 H1. split; now apply PolyBoundsFacts.pbounds_sound.
Defined.

Lemma bounds_local_encloses_witness :
  exists b,
    bounds_local None ex_f (mkInterval (q 1 2) (q 3 2)) = Ok b /\
    forall t, q 1 2 <= t -> t <= q 3 2 ->
      (q 1 2 < q 3 2 ->
       t < q 3 2 \/ forall k, (0 < k < size ex_f)%nat -> q 3 2 <> (cuts ex_f).[k]) ->
      exists v, valueAt None ex_f t = Ok v /\ contains b v.
Proof.
  apply (bounds_local_encloses None ex_f (mkInterval (q 1 2) (q 3 2)));
    [reflexivity|reflexivity| | |].
  - intros i I u _ Hu. now apply PolyBoundsFacts.pbounds_local_sound.
  - intros i u _ H0 H1. now apply PolyBoundsFacts.pbounds_sound.
  - apply Qcleb_le. reflexivity.
Defined.

(** Why the end of the interval is set apart: over the cuts 0, 1, 2
    with the constants 0 and 5, the local bounds over [1/2, 1] are
    [0, 0], and the value at 1 is 5. *)
Lemma bounds_local_misses_end :
  bounds_local None (mkPiecewise [q 0 1; q 1 1; q 2 1] [[q 0 1]; [q 5 1]])
               (mkInterval (q 1 2) (q 1 1))
  = Ok (mkInterval (q 0 1) (q 0 1)) /\
  valueAt None (mkPiecewise [q 0 1; q 1 1; q 2 1] [[q 0 1]; [q 5 1]]) (q 1 1)
  = Ok (q 5 1).
Proof. split; reflexivity. Qed.
